(** * bob: scheduler, event queue, streaming replies and recall search

    A shallow embedding of the parts of the daemon that its specification
    makes promises about, and the proofs (or refutations) of those promises.

    Conventions used throughout:
    - a JavaScript [Date] is its [getTime()] value, an integer number of
      milliseconds ([Z]); ISO strings written by [toISOString()] are fixed
      width, so SQLite's text comparison on them is the comparison of the
      instants they denote, and the columns holding them are modelled as [Z];
    - a SQLite table is the list of its rows in rowid order;
    - a function that can throw returns a [result]. *)

From Stdlib Require Import ZArith List String Ascii Bool Lia.
From Stdlib Require Import Permutation Sorted QArith Lqa DecimalString.
Import ListNotations.
Open Scope string_scope.
Open Scope list_scope.
Open Scope Z_scope.

(** ** Results of code that may throw *)

Inductive result (A : Type) : Type :=
| Ok (a : A)
| Throw (msg : string).
Arguments Ok {A} a.
Arguments Throw {A} msg.

Definition bind {A B} (r : result A) (k : A -> result B) : result B :=
  match r with
  | Ok a => k a
  | Throw m => Throw m
  end.

Notation "x <- r ;; k" := (bind r (fun x => k))
  (at level 61, r at next level, right associativity).

Definition is_ok {A} (r : result A) : bool :=
  match r with Ok _ => true | Throw _ => false end.

(** ** Strings as JavaScript sees them (ASCII range) *)

Module Str.

(** [\s] and [String.prototype.trim] on the ASCII range: TAB, LF, VT, FF, CR
    and SPACE. *)
Definition is_space (c : ascii) : bool :=
  let n := nat_of_ascii c in
  ((9 <=? n) && (n <=? 13))%nat || (n =? 32)%nat.

Definition is_digit (c : ascii) : bool :=
  let n := nat_of_ascii c in ((48 <=? n) && (n <=? 57))%nat.

Fixpoint drop_space (l : list ascii) : list ascii :=
  match l with
  | c :: l' => if is_space c then drop_space l' else l
  | [] => []
  end.

Definition trim_list (l : list ascii) : list ascii :=
  rev (drop_space (rev (drop_space l))).

Definition trim (s : string) : string :=
  string_of_list_ascii (trim_list (list_ascii_of_string s)).

Definition to_lower (c : ascii) : ascii :=
  let n := nat_of_ascii c in
  if ((65 <=? n) && (n <=? 90))%nat then ascii_of_nat (n + 32) else c.

Definition digit_val (c : ascii) : Z := Z.of_nat (nat_of_ascii c) - 48.

(** [Number.parseInt(ds, 10)] on a string of decimal digits. *)
Definition parse_digits (ds : list ascii) : Z :=
  fold_left (fun acc c => 10 * acc + digit_val c) ds 0.

End Str.

(** ** List helpers shared by the stores *)

Module Lst.

(** Stable insertion sort; [le x y = true] keeps [x] in front of [y].  This is
    [ORDER BY ... ASC] over rows listed in rowid order, and
    [Array.prototype.sort] with a comparator (stable since ES2019). *)
Fixpoint insert_by {A} (le : A -> A -> bool) (x : A) (l : list A) : list A :=
  match l with
  | [] => [x]
  | y :: l' => if le x y then x :: l else y :: insert_by le x l'
  end.

Fixpoint sort_by {A} (le : A -> A -> bool) (l : list A) : list A :=
  match l with
  | [] => []
  | x :: l' => insert_by le x (sort_by le l')
  end.

(** SQLite's [LIMIT n]: a negative [n] means no limit. *)
Definition sql_limit {A} (n : Z) (l : list A) : list A :=
  if n <? 0 then l else firstn (Z.to_nat n) l.

(** [Array.prototype.slice(0, n)] for an integer [n]. *)
Definition js_slice0 {A} (n : Z) (l : list A) : list A :=
  if n <? 0 then firstn (Z.to_nat (Z.max (Z.of_nat (List.length l) + n) 0)) l
  else firstn (Z.to_nat n) l.

Definition mem_Z (x : Z) (l : list Z) : bool := existsb (Z.eqb x) l.

Definition is_some {A} (o : option A) : bool :=
  match o with Some _ => true | None => false end.

End Lst.

(** ** Schedule arithmetic ([scheduler/schedule.ts]: [parseEvery], [parseAt],
    [computeNextRunAt]) *)

Module Schedule.

(** [DURATION_RE = /^(\d+)(s|m|h|d)$/i]: one or more digits, then one unit
    letter.  The match, when there is one, is the digits and the unit. *)
Definition match_DURATION_RE (s : string) : option (list ascii * ascii) :=
  match rev (list_ascii_of_string s) with
  | u :: rds =>
      let ds := rev rds in
      let lu := Str.to_lower u in
      if (match ds with [] => false | _ => forallb Str.is_digit ds end)
         && existsb (Ascii.eqb lu) ["s"; "m"; "h"; "d"]%char
      then Some (ds, u)
      else None
  | [] => None
  end.

Definition parseEvery (spec : string) : result Z :=
  match match_DURATION_RE (Str.trim spec) with
  | None => Throw ("Invalid every spec: " ++ spec)%string
  | Some (ds, u) =>
      let value := Str.parse_digits ds in
      let unit := Str.to_lower u in
      if value <=? 0 then Throw ("Invalid every spec: " ++ spec)%string
      else if Ascii.eqb unit "s" then Ok (value * 1000)
      else if Ascii.eqb unit "m" then Ok (value * 60000)
      else if Ascii.eqb unit "h" then Ok (value * 3600000)
      else if Ascii.eqb unit "d" then Ok (value * 86400000)
      else Throw ("Invalid every spec: " ++ spec)%string
  end.

Section NextRun.

(** The platform's [new Date(string).getTime()]; [None] is [NaN]. *)
Variable Date_parse : string -> option Z.

(** The cron-parser package: [parseExpression(spec, {currentDate: from})
    .next().toDate()]; [None] when either call throws. *)
Variable cron_next : string -> Z -> option Z.

Definition parseAt (spec : string) : result Z :=
  match Date_parse spec with
  | Some t => Ok t
  | None => Throw ("Invalid at spec: " ++ spec)%string
  end.

(** [computeNextRunAt]; the inner [option] is the [null] of the [default]
    branch. *)
Definition computeNextRunAt (kind spec : string) (from : Z)
  : result (option Z) :=
  if (kind =? "at")%string then
    date <- parseAt spec ;;
    if date <=? from then Ok (Some from) else Ok (Some date)
  else if (kind =? "every")%string then
    interval <- parseEvery spec ;;
    Ok (Some (from + interval))
  else if (kind =? "cron")%string then
    match cron_next spec from with
    | Some t => Ok (Some t)
    | None => Throw "cron"
    end
  else Ok None.

End NextRun.

End Schedule.

(** ** The job store ([scheduler/store.ts]: [createJobStore]) *)

Module Jobs.

Definition BOB_ID : string := "bob".

(** The fields of the JSON payload that the scheduler reads.  The [payload]
    column holds JSON text; rows carry the object [safeParsePayload] yields. *)
Record JobPayload : Type := mkPayload {
  text : option string;
  prompt : option string;
  replyToMessageId : option Z;
  quotedMessage : option string;
  urgent : option bool;
  script : option string;
  args : list string;
  notify : bool
}.

(** A row of [jobs]; also the [JobRecord] handed to callers. *)
Record Job : Type := mkJob {
  id : Z;
  bobId : string;
  chatId : Z;
  threadId : option Z;
  scheduleKind : string;
  scheduleSpec : string;
  jobType : string;
  payload : JobPayload;
  enabled : bool;
  nextRunAt : Z;
  lastRunAt : option Z;
  contextMode : option string
}.

Definition set_enabled (b : bool) (r : Job) : Job :=
  mkJob (id r) (bobId r) (chatId r) (threadId r) (scheduleKind r)
        (scheduleSpec r) (jobType r) (payload r) b (nextRunAt r)
        (lastRunAt r) (contextMode r).

Definition set_run (last : option Z) (next : Z) (b : bool) (r : Job) : Job :=
  mkJob (id r) (bobId r) (chatId r) (threadId r) (scheduleKind r)
        (scheduleSpec r) (jobType r) (payload r) b next last (contextMode r).

Definition set_contextMode (c : option string) (r : Job) : Job :=
  mkJob (id r) (bobId r) (chatId r) (threadId r) (scheduleKind r)
        (scheduleSpec r) (jobType r) (payload r) (enabled r) (nextRunAt r)
        (lastRunAt r) c.

(** The table and the [sqlite_sequence] counter that [AUTOINCREMENT] keeps:
    the largest rowid ever handed out. *)
Record JobStore : Type := mkStore {
  rows : list Job;
  seq : Z
}.

Definition ids (l : list Job) : list Z := map id l.

Definition max_id (l : list Job) : Z := fold_right Z.max 0 (ids l).

(** [selectDue]: [WHERE bob_id = ? AND enabled = 1 AND next_run_at <= ?
    ORDER BY next_run_at ASC LIMIT ?].  Dates are instants here; the column
    holds the text of [toISOString()], whose order is the order of the
    instants for the years 0000 to 9999 (see [IsoDate] below). *)
Definition is_due (now : Z) (r : Job) : bool :=
  (bobId r =? BOB_ID)%string && enabled r && (nextRunAt r <=? now).

Definition selectDue (now limit : Z) (l : list Job) : list Job :=
  Lst.sql_limit limit
    (Lst.sort_by (fun a b => nextRunAt a <=? nextRunAt b) (filter (is_due now) l)).

Definition default_context (r : Job) : Job :=
  match contextMode r with
  | Some _ => r
  | None => set_contextMode (Some "session") r
  end.

Definition getDueJobs (now : Z) (limit : option Z) (s : JobStore) : list Job :=
  map default_context (selectDue now (match limit with Some n => n | None => 10 end) (rows s)).

(** [UPDATE jobs SET enabled = 0 WHERE bob_id = ? AND id IN (...)]. *)
Definition disable_ids (atIds : list Z) (l : list Job) : list Job :=
  map (fun r => if (bobId r =? BOB_ID)%string && Lst.mem_Z (id r) atIds
                then set_enabled false r else r) l.

(** [claimDueJobs], one transaction. *)
Definition claimDueJobs (now : Z) (limit : option Z) (s : JobStore)
  : list Job * JobStore :=
  let due := selectDue now (match limit with Some n => n | None => 10 end) (rows s) in
  match due with
  | [] => ([], s)
  | _ =>
      let atIds := ids (filter (fun r => (scheduleKind r =? "at")%string) due) in
      let s' := match atIds with
                | [] => s
                | _ => mkStore (disable_ids atIds (rows s)) (seq s)
                end in
      (map (fun r => default_context
                       (set_enabled (enabled r && negb (Lst.mem_Z (id r) atIds)) r))
           due, s')
  end.

(** [updateAfterRun]: [UPDATE jobs SET last_run_at = ?, next_run_at = ?,
    enabled = ? WHERE id = ?]. *)
Definition updateAfterRun (i : Z) (last next : Z) (en : bool) (s : JobStore)
  : JobStore :=
  mkStore (map (fun r => if id r =? i then set_run (Some last) next en r else r)
               (rows s))
          (seq s).

(** [removeJob]: [DELETE FROM jobs WHERE id = ?]; true when a row went. *)
Definition removeJob (i : Z) (s : JobStore) : bool * JobStore :=
  (existsb (fun r => id r =? i) (rows s),
   mkStore (filter (fun r => negb (id r =? i)) (rows s)) (seq s)).

(** [getNextRunAt]: [SELECT MIN(next_run_at) ... WHERE enabled = 1]. *)
Definition getNextRunAt (s : JobStore) : option Z :=
  fold_right (fun r acc =>
                if (bobId r =? BOB_ID)%string && enabled r then
                  match acc with
                  | Some m => Some (Z.min (nextRunAt r) m)
                  | None => Some (nextRunAt r)
                  end
                else acc) None (rows s).

(** The limit a claim works with, and the ids it switches off. *)
Definition limit_of (limit : option Z) : Z :=
  match limit with Some n => n | None => 10 end.

Definition at_ids (due : list Job) : list Z :=
  ids (filter (fun r => (scheduleKind r =? "at")%string) due).

Record JobInput : Type := mkInput {
  in_chatId : Z;
  in_threadId : option Z;
  in_scheduleKind : string;
  in_scheduleSpec : string;
  in_jobType : string;
  in_payload : JobPayload;
  in_enabled : option bool;
  in_contextMode : option string
}.

Section AddJob.

Variable Date_parse : string -> option Z.
Variable cron_next : string -> Z -> option Z.

(** [addJob]; the new rowid is one more than the largest ever used. *)
Definition addJob (input : JobInput) (now : Z) (s : JobStore)
  : result (Job * JobStore) :=
  nextRun <- Schedule.computeNextRunAt Date_parse cron_next
               (in_scheduleKind input) (in_scheduleSpec input) now ;;
  match nextRun with
  | None => Throw "Unable to compute next run time"
  | Some next =>
      let en := match in_enabled input with Some b => b | None => true end in
      let cm := match in_contextMode input with Some c => c | None => "session" end in
      let newId := Z.max (seq s) (max_id (rows s)) + 1 in
      let row := mkJob newId BOB_ID (in_chatId input) (in_threadId input)
                       (in_scheduleKind input) (in_scheduleSpec input)
                       (in_jobType input) (in_payload input) en next None
                       (Some cm) in
      Ok (row, mkStore (rows s ++ [row]) newId)
  end.

End AddJob.

End Jobs.

(** ** Do-not-disturb ([dnd/index.ts]: [isDndActive]) *)

Module Dnd.

(** [start] and [end] after [parseTime], as minutes since midnight. *)
Record DndConfig : Type := mkDndConfig {
  dnd_enabled : bool;
  startMinutes : Z;
  endMinutes : Z
}.

Record AdhocDnd : Type := mkAdhoc {
  until : Z;
  adhocReason : option string
}.

Inductive DndReason : Type := Scheduled | Adhoc.

Record DndStatus : Type := mkStatus {
  active : bool;
  reason : option DndReason;
  endsAt : option Z
}.

(** [isInTimeWindow], from the wall-clock minutes that [Intl.DateTimeFormat]
    reports for [now] in the configured zone. *)
Definition isInTimeWindow (startM endM currentMinutes : Z) : bool :=
  if endM <? startM
  then (startM <=? currentMinutes) || (currentMinutes <? endM)
  else (startM <=? currentMinutes) && (currentMinutes <? endM).

(** [isDndActive].  [adhoc] is the content of [dnd-state.json];
    [currentMinutes] and [windowEnd] are what the time-zone formatter gives
    [isInTimeWindow] and [getNextWindowEnd].  The second component is the
    state file afterwards (an expired ad-hoc record is cleared). *)
Definition isDndActive (config : DndConfig) (adhoc : option AdhocDnd)
    (now currentMinutes windowEnd : Z) : DndStatus * option AdhocDnd :=
  match adhoc with
  | Some a =>
      if now <? until a
      then (mkStatus true (Some Adhoc) (Some (until a)), adhoc)
      else
        (if negb (dnd_enabled config) then mkStatus false None None
         else if isInTimeWindow (startMinutes config) (endMinutes config) currentMinutes
              then mkStatus true (Some Scheduled) (Some windowEnd)
              else mkStatus false None None,
         None)
  | None =>
      (if negb (dnd_enabled config) then mkStatus false None None
       else if isInTimeWindow (startMinutes config) (endMinutes config) currentMinutes
            then mkStatus true (Some Scheduled) (Some windowEnd)
            else mkStatus false None None,
       None)
  end.

End Dnd.

(** ** The scheduler loop ([startScheduler] with its [tick], and [executeJob]) *)

Module Scheduler.

Import Jobs.

Record Options : Type := mkOptions {
  dnd : option Dnd.DndConfig;
  hasMessageLogger : bool;
  defaultEngine : string
}.

(** What the outside world answers while one job runs. *)
Record World : Type := mkWorld {
  w_adhoc : option Dnd.AdhocDnd;      (* dnd-state.json *)
  w_now : Z;                          (* the clock at the DND check *)
  w_currentMinutes : Z;               (* wall-clock minutes in the zone *)
  w_windowEnd : Z;                    (* getNextWindowEnd *)
  w_send : result (option Z);         (* sendTelegramMessage *)
  w_reply : result string;            (* streamAgentReply: responseText *)
  w_scriptEscapes : bool;             (* resolved path leaves scripts/ *)
  w_scriptExists : bool;              (* existsSync *)
  w_exitCode : Z;
  w_stdout : string;
  w_stderr : string;
  w_clock : Z                         (* new Date() once the job is done *)
}.

(** The calls a job makes that someone else can observe. *)
Inductive Effect : Type :=
| SendMessage (chat : Z) (body : string)
| LogMessage (chat : Z) (body : string)
| EngineTurn (chat : Z) (engine : string) (userText : string) (withContext : bool)
| AppendConversation (userText assistantText : string)
| SpawnScript (path : string) (argv : list string).

Definition nl : string := String (ascii_of_nat 10) EmptyString.

Definition blank (s : string) : bool := (Str.trim s =? EmptyString)%string.

Definition or_empty (o : option string) : string :=
  match o with Some s => s | None => EmptyString end.

(** The body of [executeJob] between the DND gate and the rescheduling:
    the dispatch on [jobType]. *)
Definition dispatchJob (job : Job) (opts : Options) (w : World)
  : list Effect * result unit :=
  let p := payload job in
  if (jobType job =? "send_message")%string then
    let body := or_empty (text p) in
    if blank body then ([], Throw "send_message payload missing text")
    else
      match w_send w with
      | Throw m => ([SendMessage (chatId job) body], Throw m)
      | Ok _ =>
          ([SendMessage (chatId job) body]
             ++ (if hasMessageLogger opts then [LogMessage (chatId job) body] else []),
           Ok tt)
      end
  else if (jobType job =? "agent_turn")%string then
    let rawPrompt := or_empty (prompt p) in
    if blank rawPrompt then ([], Throw "agent_turn payload missing prompt")
    else
      let framed :=
        ("[SCHEDULED REMINDER] You previously scheduled this reminder for the user. Deliver it naturally:"
           ++ nl ++ nl ++ rawPrompt
           ++ match quotedMessage p with
              | Some q => if (q =? EmptyString)%string then EmptyString
                          else nl ++ nl ++ "[ORIGINAL USER REQUEST]" ++ nl ++ "> " ++ q
              | None => EmptyString
              end)%string in
      let withContext :=
        negb (match contextMode job with
              | Some c => (c =? "isolated")%string
              | None => false
              end) in
      let engine := if (defaultEngine opts =? "codex")%string then "codex" else "claude" in
      let turn := EngineTurn (chatId job) engine framed withContext in
      match w_reply w with
      | Throw m => ([turn], Throw m)
      | Ok responseText =>
          ([turn] ++ (if (responseText =? EmptyString)%string then []
                      else [AppendConversation ("[SCHEDULED] " ++ rawPrompt)%string
                                               responseText]),
           Ok tt)
      end
  else if (jobType job =? "script")%string then
    match script p with
    | None => ([], Throw "script payload missing script path")
    | Some sp =>
        if (sp =? EmptyString)%string then ([], Throw "script payload missing script path")
        else if w_scriptEscapes w
        then ([], Throw ("Script path escapes scripts root: " ++ sp)%string)
        else if negb (w_scriptExists w)
        then ([], Throw ("Script not found: " ++ sp)%string)
        else
          let spawn := SpawnScript sp (args p) in
          let report :=
            if negb (w_exitCode w =? 0) then
              if notify p
              then Some ("Script failed: " ++ sp ++ nl
                           ++ String.substring 0 500 (w_stderr w))%string
              else None
            else if notify p && negb (blank (w_stdout w))
                 then Some (String.substring 0 4000 (w_stdout w))
                 else None in
          match report with
          | None => ([spawn], Ok tt)
          | Some body =>
              match w_send w with
              | Throw m => ([spawn; SendMessage (chatId job) body], Throw m)
              | Ok _ => ([spawn; SendMessage (chatId job) body], Ok tt)
              end
          end
    end
  else ([], Throw ("Unknown job type: " ++ jobType job)%string).

Definition isUrgent (job : Job) : bool :=
  match urgent (payload job) with Some true => true | _ => false end.

(** The DND gate at the top of [executeJob]: [Some status] when the job is
    put off, with the status that [isDndActive] returned. *)
Definition dndDeferral (job : Job) (opts : Options) (w : World)
  : option Dnd.DndStatus :=
  match dnd opts with
  | Some config =>
      if negb (isUrgent job)
         && ((jobType job =? "send_message")%string
             || (jobType job =? "agent_turn")%string)
      then
        let st := fst (Dnd.isDndActive config (w_adhoc w) (w_now w)
                                       (w_currentMinutes w) (w_windowEnd w)) in
        if Dnd.active st then Some st else None
      else None
  | None => None
  end.

Section Tick.

Variable Date_parse : string -> option Z.
Variable cron_next : string -> Z -> option Z.

(** [executeJob]: the effects it causes and the [Date | null] it resolves
    to, or the error it rejects with. *)
Definition executeJob (job : Job) (opts : Options) (w : World)
  : list Effect * result (option Z) :=
  match dndDeferral job opts w with
  | Some st => ([], Ok (Dnd.endsAt st))
  | None =>
      let (effects, r) := dispatchJob job opts w in
      match r with
      | Throw m => (effects, Throw m)
      | Ok _ =>
          if (scheduleKind job =? "at")%string then (effects, Ok None)
          else (effects,
                Schedule.computeNextRunAt Date_parse cron_next
                  (scheduleKind job) (scheduleSpec job) (w_clock w))
      end
  end.

(** One turn of the inner [for (const job of due)] loop of [tick]: run the
    job, then either write the outcome back or only log the error. *)
Definition runJob (now : Z) (job : Job) (opts : Options) (w : World)
    (s : JobStore) : JobStore :=
  match snd (executeJob job opts w) with
  | Ok nextRun =>
      updateAfterRun (id job) now
        (match nextRun with Some t => t | None => nextRunAt job end)
        (Lst.is_some nextRun) s
  | Throw _ => s
  end.

(** The scheduler as a transition system.  [pending] holds the jobs of the
    current batch that the [for] loop has not reached yet, with the [now] of
    the claim that produced them. *)
Record Sched : Type := mkSched {
  store : JobStore;
  pending : list Job;
  batchNow : Z
}.

Inductive Action : Type :=
| CliAdd (input : JobInput) (now : Z)   (* another process adds a job *)
| CliRemove (i : Z)                     (* another process removes a job *)
| TickClaim (now : Z)                   (* [claimDueJobs({now, limit: 10})] *)
| TickRun (w : World).                  (* the loop body for the next job *)

(** A step returns the new state and, for a claim, what was claimed. *)
Definition step (opts : Options) (st : Sched) (a : Action)
  : Sched * option (list Job) :=
  match a with
  | CliAdd input now =>
      match addJob Date_parse cron_next input now (store st) with
      | Ok (_, s') => (mkSched s' (pending st) (batchNow st), None)
      | Throw _ => (st, None)
      end
  | CliRemove i =>
      (mkSched (snd (removeJob i (store st))) (pending st) (batchNow st), None)
  | TickClaim now =>
      match pending st with
      | [] =>
          let (due, s') := claimDueJobs now (Some 10) (store st) in
          (mkSched s' due now, Some due)
      | _ => (st, None)
      end
  | TickRun w =>
      match pending st with
      | [] => (st, None)
      | job :: rest =>
          (mkSched (runJob (batchNow st) job opts w (store st)) rest (batchNow st),
           None)
      end
  end.

(** Run a list of actions; collect the result of every claim. *)
Fixpoint run (opts : Options) (st : Sched) (acts : list Action)
  : Sched * list (list Job) :=
  match acts with
  | [] => (st, [])
  | a :: acts' =>
      let (st', out) := step opts st a in
      let (st'', outs) := run opts st' acts' in
      (st'', match out with Some due => due :: outs | None => outs end)
  end.

End Tick.

(** The primary key and [AUTOINCREMENT]: ids are distinct and none exceeds
    the sequence counter. *)
Definition wf (s : JobStore) : Prop :=
  NoDup (ids (rows s)) /\ forall r, In r (rows s) -> id r <= seq s.

(** What every reachable scheduler state satisfies. *)
Definition Inv (st : Sched) : Prop :=
  wf (store st) /\ NoDup (ids (pending st))
  /\ forall p, In p (pending st) -> id p <= seq (store st).

(** A job that is switched off, is not waiting in the current batch, and
    whose id can no longer be handed out. *)
Definition Retired (j : Z) (st : Sched) : Prop :=
  (forall r, In r (rows (store st)) -> id r = j -> enabled r = false)
  /\ j <= seq (store st)
  /\ ~ In j (ids (pending st)).

End Scheduler.

(** ** JSON values and [JSON.stringify] *)

Module Json.

(** The JavaScript values an event payload can be.  Numbers are the finite
    integers; a [JBigInt] anywhere makes [JSON.stringify] throw, as a cyclic
    object would. *)
#[local] Unset Elimination Schemes.
Inductive JsValue : Type :=
| JUndefined
| JNull
| JBool (b : bool)
| JNumber (n : Z)
| JBigInt (n : Z)
| JString (s : string)
| JArray (items : list JsValue)
| JObject (fields : list (string * JsValue)).
#[local] Set Elimination Schemes.

Definition decimal (n : Z) : string :=
  DecimalString.NilZero.string_of_int (Z.to_int n).

(** The double-quote character. *)
Definition dq : string := String (ascii_of_nat 34) EmptyString.

Definition hex_digit (n : nat) : ascii :=
  if (n <? 10)%nat then ascii_of_nat (48 + n) else ascii_of_nat (87 + n).

(** One character inside a JSON string literal. *)
Definition escape_char (c : ascii) : string :=
  let n := nat_of_ascii c in
  if (n =? 34)%nat then ("\" ++ dq)%string
  else if (n =? 92)%nat then "\\"
  else if (n =? 8)%nat then "\b"
  else if (n =? 9)%nat then "\t"
  else if (n =? 10)%nat then "\n"
  else if (n =? 12)%nat then "\f"
  else if (n =? 13)%nat then "\r"
  else if (n <? 32)%nat
       then ("\u00" ++ String (hex_digit (n / 16)) (String (hex_digit (n mod 16)) EmptyString))%string
       else String c EmptyString.

Definition quote (s : string) : string :=
  (dq ++ String.concat EmptyString (map escape_char (list_ascii_of_string s)) ++ dq)%string.

(** [JSON.stringify(v)]: [Ok None] is the result [undefined]. *)
Fixpoint stringify (v : JsValue) : result (option string) :=
  match v with
  | JUndefined => Ok None
  | JNull => Ok (Some "null")
  | JBool true => Ok (Some "true")
  | JBool false => Ok (Some "false")
  | JNumber n => Ok (Some (decimal n))
  | JBigInt _ => Throw "Do not know how to serialize a BigInt"
  | JString s => Ok (Some (quote s))
  | JArray items =>
      parts <- (fix each (l : list JsValue) : result (list string) :=
                  match l with
                  | [] => Ok []
                  | x :: l' =>
                      sx <- stringify x ;;
                      rest <- each l' ;;
                      Ok (match sx with Some t => t | None => "null" end :: rest)
                  end) items ;;
      Ok (Some ("[" ++ String.concat "," parts ++ "]")%string)
  | JObject fields =>
      parts <- (fix each (l : list (string * JsValue)) : result (list string) :=
                  match l with
                  | [] => Ok []
                  | (k, x) :: l' =>
                      sx <- stringify x ;;
                      rest <- each l' ;;
                      Ok (match sx with
                          | Some t => (quote k ++ ":" ++ t)%string :: rest
                          | None => rest
                          end)
                  end) fields ;;
      Ok (Some ("{" ++ String.concat "," parts ++ "}")%string)
  end.

(** [String(v)]. *)
Fixpoint toString (v : JsValue) : string :=
  match v with
  | JUndefined => "undefined"
  | JNull => "null"
  | JBool true => "true"
  | JBool false => "false"
  | JNumber n => decimal n
  | JBigInt n => decimal n
  | JString s => s
  | JArray items =>
      String.concat ","
        (map (fun x => match x with
                       | JUndefined | JNull => EmptyString
                       | _ => toString x
                       end) items)
  | JObject _ => "[object Object]"
  end.

End Json.

(** ** The event store ([events/store.ts]: [createEventStore],
    [serializePayload]) *)

Module Events.

Import Json.

Definition BOB_ID : string := "bob".
Definition DEFAULT_STALE_MS : Z := 30 * 60000.

(** A row of [events]. *)
Record Event : Type := mkEvent {
  id : Z;
  bobId : string;
  chatId : Z;
  threadId : option Z;
  kind : string;
  payload : string;            (* the JSON text of the payload column *)
  createdAt : Z;
  claimedAt : option Z;
  processedAt : option Z;
  claimToken : option string
}.

Definition set_claim (at_ : option Z) (tok : option string) (r : Event) : Event :=
  mkEvent (id r) (bobId r) (chatId r) (threadId r) (kind r) (payload r)
          (createdAt r) at_ (processedAt r) tok.

Definition set_processed (t : option Z) (r : Event) : Event :=
  mkEvent (id r) (bobId r) (chatId r) (threadId r) (kind r) (payload r)
          (createdAt r) (claimedAt r) t (claimToken r).

Record EventStore : Type := mkStore {
  rows : list Event;
  seq : Z
}.

Section Serialize.

(** The platform's [JSON.parse]; [None] when it throws. *)
Variable JSON_parse : string -> option JsValue.

(** [JSON.stringify({ text })]. *)
Definition stringify_text (t : string) : result (option string) :=
  stringify (JObject [("text", JString t)]).

Definition or_undefined (r : result (option string)) : option string :=
  match r with Ok o => o | Throw _ => None end.

(** [serializePayload]; [None] would be the value [undefined]. *)
Definition serializePayload (payload : JsValue) : option string :=
  match payload with
  | JUndefined => Some "{}"
  | JString s =>
      let trimmed := Str.trim s in
      if (trimmed =? EmptyString)%string then Some "{}"
      else
        match JSON_parse trimmed with
        | Some parsed =>
            match stringify parsed with
            | Ok o => o
            | Throw _ => or_undefined (stringify_text trimmed)
            end
        | None => or_undefined (stringify_text trimmed)
        end
  | _ =>
      match stringify (match payload with JNull => JObject [] | _ => payload end) with
      | Ok o => o
      | Throw _ => or_undefined (stringify_text (toString payload))
      end
  end.

Record EventInput : Type := mkInput {
  in_chatId : Z;
  in_threadId : option Z;
  in_kind : string;
  in_payload : JsValue;
  in_createdAt : option Z
}.

(** [addEvent]: the payload column receives [serializePayload(input.payload)].
    The column is [NOT NULL], so binding [undefined] makes the insert throw. *)
Definition addEvent (input : EventInput) (clock : Z) (s : EventStore)
  : result (Event * EventStore) :=
  let now := match in_createdAt input with Some t => t | None => clock end in
  match serializePayload (in_payload input) with
  | None => Throw "NOT NULL constraint failed: events.payload"
  | Some payloadRaw =>
      let newId := Z.max (seq s) (fold_right Z.max 0 (map id (rows s))) + 1 in
      let row := mkEvent newId BOB_ID (in_chatId input) (in_threadId input)
                         (in_kind input) payloadRaw now None None None in
      Ok (row, mkStore (rows s ++ [row]) newId)
  end.

End Serialize.

Definition token_is (tok : string) (r : Event) : bool :=
  match claimToken r with
  | Some t => (t =? tok)%string
  | None => false
  end.

(** [WHERE bob_id = ? AND claim_token = ?]. *)
Definition claimed_by (tok : string) (r : Event) : bool :=
  (bobId r =? BOB_ID)%string && token_is tok r.

(** [WHERE bob_id = ? AND processed_at IS NULL
     AND (claimed_at IS NULL OR claimed_at <= ?)]. *)
Definition is_pending (staleBefore : Z) (r : Event) : bool :=
  (bobId r =? BOB_ID)%string
  && negb (Lst.is_some (processedAt r))
  && match claimedAt r with
     | None => true
     | Some t => t <=? staleBefore
     end.

Definition by_createdAt (l : list Event) : list Event :=
  Lst.sort_by (fun a b => createdAt a <=? createdAt b) l.

Definition countPending (now : Z) (s : EventStore) : Z :=
  Z.of_nat (List.length (filter (is_pending (now - DEFAULT_STALE_MS)) (rows s))).

(** [claimEvents], one transaction: stamp the pending rows, then read back
    the rows that carry the token. *)
Definition claimEvents (now limit staleAfterMs : Z) (claimToken_ : string)
    (s : EventStore) : list Event * EventStore :=
  let staleBefore := now - staleAfterMs in
  let picked :=
    map id (Lst.sql_limit limit (by_createdAt (filter (is_pending staleBefore) (rows s)))) in
  let rows' :=
    map (fun r => if Lst.mem_Z (id r) picked
                  then set_claim (Some now) (Some claimToken_) r else r) (rows s) in
  (by_createdAt (filter (claimed_by claimToken_) rows'), mkStore rows' (seq s)).

(** [ackEvents]: [UPDATE events SET processed_at = ? WHERE bob_id = ? AND
    claim_token = ?]; the count is the statement's [changes]. *)
Definition ackEvents (claimToken_ : string) (timestamp : Z) (s : EventStore)
  : Z * EventStore :=
  (Z.of_nat (List.length (filter (claimed_by claimToken_) (rows s))),
   mkStore (map (fun r => if claimed_by claimToken_ r
                          then set_processed (Some timestamp) r else r) (rows s))
           (seq s)).

(** [releaseClaim]: [UPDATE events SET claimed_at = NULL, claim_token = NULL
    WHERE bob_id = ? AND claim_token = ?]. *)
Definition releaseClaim (claimToken_ : string) (s : EventStore)
  : Z * EventStore :=
  (Z.of_nat (List.length (filter (claimed_by claimToken_) (rows s))),
   mkStore (map (fun r => if claimed_by claimToken_ r
                          then set_claim None None r else r) (rows s))
           (seq s)).

End Events.

(** ** The heartbeat dispatcher ([events/dispatcher.ts]: [processEvents],
    [groupEvents]) *)

Module Dispatcher.

Import Events.

Record Group : Type := mkGroup {
  g_chatId : Z;
  g_threadId : option Z;
  g_events : list Event
}.

Definition same_thread (a b : option Z) : bool :=
  match a, b with
  | Some x, Some y => x =? y
  | None, None => true
  | _, _ => false
  end.

(** The body of the loop in [groupEvents]: the [Map] keeps insertion order. *)
Fixpoint addToGroups (e : Event) (gs : list Group) : list Group :=
  match gs with
  | [] => [mkGroup (chatId e) (threadId e) [e]]
  | g :: gs' =>
      if (g_chatId g =? chatId e) && same_thread (g_threadId g) (threadId e)
      then mkGroup (g_chatId g) (g_threadId g) (g_events g ++ [e]) :: gs'
      else g :: addToGroups e gs'
  end.

Definition groupEvents (events : list Event) : list Group :=
  fold_left (fun gs e => addToGroups e gs) events [].

(** What [streamAgentReply] resolves to. *)
Record Reply : Type := mkReply {
  responseText : string;
  didSend : bool;
  didReact : bool
}.

Record DispatchResult : Type := mkResult {
  processed : Z;
  sent : Z
}.

(** The calls [processEvents] makes on the event store. *)
Inductive StoreCall : Type :=
| CallClaim (token : string)
| CallAck (token : string)
| CallRelease (token : string).

Section Process.

(** Everything one pass of the [for (const group of groups)] body does
    besides counting: building the prompt, the engine turn through
    [streamAgentReply], the conversation log.  [Throw] when any of it
    throws. *)
Variable dispatch : Group -> result Reply.

Fixpoint dispatchGroups (gs : list Group) (sent_ : Z) : result Z :=
  match gs with
  | [] => Ok sent_
  | g :: gs' =>
      reply <- dispatch g ;;
      dispatchGroups gs' (if didSend reply || didReact reply then sent_ + 1 else sent_)
  end.

(** [processEvents].  [now] and [token] are the clock and the fresh UUID of
    [claimEvents]; [ackTime] is the clock of [ackEvents]. *)
Definition processEvents (heartbeatEnabled : bool) (now : Z) (token : string)
    (ackTime : Z) (s : EventStore)
  : EventStore * list StoreCall * result DispatchResult :=
  if negb heartbeatEnabled then (s, [], Ok (mkResult 0 0))
  else
    let (events, s1) := claimEvents now 20 DEFAULT_STALE_MS token s in
    match events with
    | [] => (s1, [CallClaim token], Ok (mkResult 0 0))
    | _ =>
        match dispatchGroups (groupEvents events) 0 with
        | Ok n =>
            (snd (ackEvents token ackTime s1),
             [CallClaim token; CallAck token],
             Ok (mkResult (Z.of_nat (List.length events)) n))
        | Throw m =>
            (snd (releaseClaim token s1),
             [CallClaim token; CallRelease token],
             Throw m)
        end
    end.

End Process.

End Dispatcher.

(** ** Hybrid search ([recall/search.ts]: [search]) *)

Module Recall.

Inductive MatchType : Type := Fts | Vector | Hybrid.

(** A [RecallHit], reduced to what fusion reads and writes: the chunk id,
    the rest of the hit, and the score. *)
Record RecallHit : Type := mkHit {
  id : Z;
  source : string;
  title : string;
  score : Q
}.

Record SearchResult : Type := mkSearchResult {
  hit : RecallHit;
  matchType : MatchType
}.

(** An entry of the [scores] map. *)
Record Entry : Type := mkEntry {
  e_hit : RecallHit;
  e_score : Q;
  e_types : list MatchType      (* a [Set]: insertion order, no repeats *)
}.

Definition mt_eqb (a b : MatchType) : bool :=
  match a, b with
  | Fts, Fts | Vector, Vector | Hybrid, Hybrid => true
  | _, _ => false
  end.

(** [Set.prototype.add]. *)
Definition set_add (t : MatchType) (ts : list MatchType) : list MatchType :=
  if existsb (mt_eqb t) ts then ts else ts ++ [t].

Definition k : Z := 60.

(** [1 / (k + i + 1)] for the zero-based rank [i]. *)
Definition rrf (i : nat) : Q := 1 # Z.to_pos (k + Z.of_nat i + 1).

(** One pass of either [for (const [i, hit] of ...entries())] loop on the
    insertion-ordered map [scores]. *)
Fixpoint bump (t : MatchType) (i : nat) (h : RecallHit) (scores : list Entry)
  : list Entry :=
  match scores with
  | [] => [mkEntry h (rrf i) [t]]
  | e :: rest =>
      if id (e_hit e) =? id h
      then mkEntry (e_hit e) (e_score e + rrf i)%Q (set_add t (e_types e)) :: rest
      else e :: bump t i h rest
  end.

Fixpoint accumulate (t : MatchType) (i : nat) (hits : list RecallHit)
    (scores : list Entry) : list Entry :=
  match hits with
  | [] => scores
  | h :: hits' => accumulate t (S i) hits' (bump t i h scores)
  end.

Definition with_score (q : Q) (h : RecallHit) : RecallHit :=
  mkHit (id h) (source h) (title h) q.

Definition tag (e : Entry) : SearchResult :=
  mkSearchResult (with_score (e_score e) (e_hit e))
    (match e_types e with
     | [t] => t
     | [] => Fts
     | t :: _ :: _ => Hybrid
     end).

(** [.sort((a, b) => b.score - a.score)]: descending, stable. *)
Definition ranked (scores : list Entry) : list Entry :=
  Lst.sort_by (fun a b => Qle_bool (e_score b) (e_score a)) scores.

(** [search] once both result lists are in hand (no [source] filter). *)
Definition search (limit : Z) (ftsResults vecResults : list RecallHit)
  : list SearchResult :=
  match ftsResults, vecResults with
  | [], [] => []
  | [], _ => map (fun h => mkSearchResult h Vector) (Lst.js_slice0 limit vecResults)
  | _, [] => map (fun h => mkSearchResult h Fts) (Lst.js_slice0 limit ftsResults)
  | _, _ =>
      map tag
        (Lst.js_slice0 limit
           (ranked (accumulate Vector 0 vecResults (accumulate Fts 0 ftsResults []))))
  end.

Definition eid (e : Entry) : Z := id (e_hit e).

(** The score and the types the map holds for a chunk. *)
Fixpoint score_in (i : Z) (scores : list Entry) : Q :=
  match scores with
  | [] => 0
  | e :: rest => if eid e =? i then e_score e else score_in i rest
  end.

Fixpoint types_in (i : Z) (scores : list Entry) : list MatchType :=
  match scores with
  | [] => []
  | e :: rest => if eid e =? i then e_types e else types_in i rest
  end.

Definition held (i : Z) (scores : list Entry) : bool :=
  existsb (fun e => eid e =? i) scores.

(** The comparator of [ranked], named. *)
Definition by_score_desc (a b : Entry) : bool := Qle_bool (e_score b) (e_score a).

End Recall.

(** ** The streaming reply engine ([telegram/reply-stream.ts]:
    [streamAgentReply] and its [flush]) *)

Module ReplyStream.

Inductive StreamMode : Type := Edit | Send | Off.

(** What [parseReplyDirectives] returns, as far as [flush] reads it. *)
Record Parsed : Type := mkParsed {
  p_text : string;
  p_replyToMessageId : option Z;
  p_react : option string;
  p_streamMode : option StreamMode;
  p_isSilent : bool
}.

(** A call on the chat transport. *)
Inductive Call : Type :=
| CSend (body : string)
| CEdit (messageId : Z) (body : string)
| CReact (messageId : Z) (emoji : string).

(** The visible text a call carries, when it carries one. *)
Definition content (c : Call) : option string :=
  match c with
  | CSend body => Some body
  | CEdit _ body => Some body
  | CReact _ _ => None
  end.

Inductive EditOutcome : Type :=
| EditOk
| EditNotModified        (* throws; the message matches /not modified/i *)
| EditFails.             (* throws anything else *)

(** What the outside world answers during one flush. *)
Record Net : Type := mkNet {
  n_cancelled : bool;                        (* options.isCancelled?.() *)
  n_now : Z;                                 (* Date.now() *)
  n_send : string -> result (option Z);      (* sendTelegramMessage *)
  n_edit : string -> EditOutcome;            (* editTelegramMessage *)
  n_react : bool                             (* sendTelegramReaction *)
}.

(** [StreamState] and the closure variables of [streamAgentReply], with the
    transport calls made so far (oldest first). *)
Record State : Type := mkState {
  buffer : string;
  mode : StreamMode;
  sentMessageId : option Z;
  lastSentText : string;
  lastFlushAt : Z;
  scheduled : bool;
  didSend : bool;
  didReact : bool;
  calls : list Call
}.

Definition initial : State :=
  mkState EmptyString Edit None EmptyString 0 false false false [].

Definition FLUSH_INTERVAL_MS : Z := 900.
Definition STREAM_PREVIEW_LIMIT : nat := 3000.

Definition truthy (o : option Z) : bool :=
  match o with Some n => negb (n =? 0) | None => false end.

Definition nonempty (o : option string) : option string :=
  match o with
  | Some s => if (s =? EmptyString)%string then None else Some s
  | None => None
  end.

Definition blank (s : string) : bool := (Str.trim s =? EmptyString)%string.

(** [s.slice(n)]. *)
Definition slice_from (n : nat) (s : string) : string :=
  String.substring n (String.length s - n) s.

Definition last_char (s : string) : option ascii :=
  match rev (list_ascii_of_string s) with c :: _ => Some c | [] => None end.

Definition is_alnum (c : ascii) : bool :=
  let n := nat_of_ascii c in
  (((48 <=? n) && (n <=? 57)) || ((65 <=? n) && (n <=? 90))
   || ((97 <=? n) && (n <=? 122)))%nat.

Definition needsJoinSpace (last first : ascii) : bool :=
  if Str.is_space last || Str.is_space first then false
  else if negb (is_alnum first) then false
  else existsb (Ascii.eqb last) ["."; "!"; "?"]%char.

Definition appendDeltaWithSpace (buf delta : string) : string :=
  match delta with
  | EmptyString => buf
  | String first _ =>
      match last_char buf with
      | None => delta
      | Some last =>
          if needsJoinSpace last first then (buf ++ " " ++ delta)%string
          else (buf ++ delta)%string
      end
  end.

Definition set_mode (m : StreamMode) (st : State) : State :=
  mkState (buffer st) m (sentMessageId st) (lastSentText st) (lastFlushAt st)
          (scheduled st) (didSend st) (didReact st) (calls st).
Definition set_sentMessageId (i : option Z) (st : State) : State :=
  mkState (buffer st) (mode st) i (lastSentText st) (lastFlushAt st)
          (scheduled st) (didSend st) (didReact st) (calls st).
Definition set_lastSentText (t : string) (st : State) : State :=
  mkState (buffer st) (mode st) (sentMessageId st) t (lastFlushAt st)
          (scheduled st) (didSend st) (didReact st) (calls st).
Definition set_lastFlushAt (t : Z) (st : State) : State :=
  mkState (buffer st) (mode st) (sentMessageId st) (lastSentText st) t
          (scheduled st) (didSend st) (didReact st) (calls st).
Definition set_scheduled (b : bool) (st : State) : State :=
  mkState (buffer st) (mode st) (sentMessageId st) (lastSentText st)
          (lastFlushAt st) b (didSend st) (didReact st) (calls st).
Definition set_buffer (b : string) (st : State) : State :=
  mkState b (mode st) (sentMessageId st) (lastSentText st) (lastFlushAt st)
          (scheduled st) (didSend st) (didReact st) (calls st).
Definition mark_sent (st : State) : State :=
  mkState (buffer st) (mode st) (sentMessageId st) (lastSentText st)
          (lastFlushAt st) (scheduled st) true (didReact st) (calls st).
Definition mark_reacted (st : State) : State :=
  mkState (buffer st) (mode st) (sentMessageId st) (lastSentText st)
          (lastFlushAt st) (scheduled st) (didSend st) true (calls st).
Definition log_call (c : Call) (st : State) : State :=
  mkState (buffer st) (mode st) (sentMessageId st) (lastSentText st)
          (lastFlushAt st) (scheduled st) (didSend st) (didReact st)
          (calls st ++ [c]).

(** [await sendTelegramMessage(...)]: the call is made, then the answer (a
    message id, [null], or an error) comes back. *)
Definition send (w : Net) (body : string) (st : State)
  : State * result (option Z) :=
  (log_call (CSend body) st, n_send w body).

(** The reaction with its text fallback, as it appears three times in
    [flush]. *)
Definition reactOrSend (w : Net) (cm : Z) (emoji : string) (st : State)
  : State * result unit :=
  let st1 := log_call (CReact cm emoji) st in
  if n_react w then (mark_reacted st1, Ok tt)
  else
    let (st2, r) := send w emoji st1 in
    match r with
    | Ok _ => (mark_sent st2, Ok tt)
    | Throw m => (st2, Throw m)
    end.

(** Sending [chunks.slice(1)] on the final flush. *)
Fixpoint sendRest (w : Net) (chunks : list string) (st : State)
  : State * result unit :=
  match chunks with
  | [] => (st, Ok tt)
  | c :: rest =>
      let (st1, r) := send w c st in
      match r with
      | Ok _ => sendRest w rest (mark_sent st1)
      | Throw m => (st1, Throw m)
      end
  end.

Section Flush.

(** [parseReplyDirectives(buffer, {currentMessageId, silentTokens})], with
    the options of this reply fixed. *)
Variable parseReplyDirectives : string -> Parsed.

(** [sanitizeUserText]: the regular-expression removal of reasoning blocks,
    then [trim]. *)
Variable sanitizeUserText : string -> string.

(** The texts of [chunkTelegramMessage(renderTelegramMarkdown(preview))]. *)
Variable renderChunks : string -> list string.

(** [options.currentMessageId]. *)
Variable currentMessageId : option Z.

Definition reactTarget (parsed : Parsed) : option (Z * string) :=
  match nonempty (p_react parsed), currentMessageId with
  | Some emoji, Some cm => if cm =? 0 then None else Some (cm, emoji)
  | _, _ => None
  end.

(** The [send] (append) branch of [flush]. *)
Definition flushSend (w : Net) (parsed : Parsed) (cleaned : string) (st : State)
  : State * result unit :=
  let delta := slice_from (String.length (lastSentText st)) cleaned in
  if blank delta then (st, Ok tt)
  else
    let (st1, r) := send w delta st in
    match r with
    | Throw m => (st1, Throw m)
    | Ok messageId =>
        let st2 := if truthy messageId && negb (Lst.is_some (sentMessageId st1))
                   then set_sentMessageId messageId st1 else st1 in
        let st3 := if truthy messageId then mark_sent st2 else st2 in
        (set_lastSentText cleaned st3, Ok tt)
    end.

(** The first chunk in the [edit] branch: a new message, or an edit of the
    one already sent, with the fallback when the edit fails. *)
Definition flushPrimary (w : Net) (primary : string) (st : State)
  : State * result unit :=
  match sentMessageId st with
  | None =>
      let (st1, r) := send w primary st in
      match r with
      | Throw m => (st1, Throw m)
      | Ok messageId =>
          let st2 := set_sentMessageId messageId st1 in
          (if truthy messageId then mark_sent st2 else st2, Ok tt)
      end
  | Some sent =>
      let st1 := log_call (CEdit sent primary) st in
      match n_edit w primary with
      | EditOk => (mark_sent st1, Ok tt)
      | EditNotModified => (st1, Ok tt)
      | EditFails =>
          let (st2, r) := send w primary st1 in
          match r with
          | Throw m => (st2, Throw m)
          | Ok newMessageId =>
              let st3 := if truthy newMessageId
                         then set_sentMessageId newMessageId st2 else st2 in
              (mark_sent (set_mode Send st3), Ok tt)
          end
      end
  end.

(** The [edit] branch of [flush], from the rendering on. *)
Definition flushEdit (final : bool) (w : Net) (parsed : Parsed)
    (cleaned : string) (st : State) : State * result unit :=
  let preview := if final then cleaned
                 else String.substring 0 STREAM_PREVIEW_LIMIT cleaned in
  match renderChunks preview with
  | [] => (st, Ok tt)
  | primary :: rest =>
      if Lst.is_some (sentMessageId st) && (cleaned =? lastSentText st)%string
      then (st, Ok tt)
      else
        let (st1, r1) := flushPrimary w primary st in
        match r1 with
        | Throw m => (st1, Throw m)
        | Ok _ =>
            let (st2, r2) := if final then sendRest w rest st1 else (st1, Ok tt) in
            match r2 with
            | Throw m => (st2, Throw m)
            | Ok _ =>
                let st3 := set_lastSentText cleaned st2 in
                match (if final then reactTarget parsed else None) with
                | Some (cm, emoji) => reactOrSend w cm emoji st3
                | None => (st3, Ok tt)
                end
            end
        end
  end.

(** [flush(final)].  The [flushInProgress] flag makes a flush that starts
    while another one is waiting on the network return at once, so the
    bodies of two flushes never interleave: a flush is one step here. *)
Definition flush (final : bool) (w : Net) (st : State) : State * result unit :=
  if n_cancelled w then (st, Ok tt)
  else
    let parsed := parseReplyDirectives (buffer st) in
    let st1 := match p_streamMode parsed with
               | Some m => set_mode m st
               | None => st
               end in
    if p_isSilent parsed && final then
      match reactTarget parsed with
      | Some (cm, emoji) => reactOrSend w cm emoji st1
      | None => (st1, Ok tt)
      end
    else if (match mode st1 with Off => true | _ => false end) && negb final
    then (st1, Ok tt)
    else
      let cleaned := sanitizeUserText (p_text parsed) in
      if blank cleaned then
        match (if final then reactTarget parsed else None) with
        | Some (cm, emoji) => reactOrSend w cm emoji st1
        | None => (st1, Ok tt)
        end
      else if negb final && (n_now w - lastFlushAt st1 <? FLUSH_INTERVAL_MS)
      then (set_scheduled true st1, Ok tt)
      else
        let st2 := set_lastFlushAt (n_now w) st1 in
        match mode st2 with
        | Send => flushSend w parsed cleaned st2
        | _ => flushEdit final w parsed cleaned st2
        end.

(** The mode a flush works in: the directive of the buffer, if it has one,
    else the mode so far. *)
Definition mode_now (st : State) : StreamMode :=
  match p_streamMode (parseReplyDirectives (buffer st)) with
  | Some m => m
  | None => mode st
  end.

Definition cleaned_now (st : State) : string :=
  sanitizeUserText (p_text (parseReplyDirectives (buffer st))).

(** What happens to a reply, in order: the engine emits a delta, the flush
    timer fires, and at the end the engine returns its final text. *)
Inductive Event : Type :=
| Delta (d : string)
| Timer (w : Net)
| Final (finalText : string) (w : Net).

Definition onEvent (st : State) (e : Event) : State :=
  match e with
  | Delta d => set_scheduled true (set_buffer (appendDeltaWithSpace (buffer st) d) st)
  | Timer w =>
      if scheduled st then fst (flush false w (set_scheduled false st)) else st
  | Final finalText w =>
      fst (flush true w (set_scheduled false (set_buffer finalText st)))
  end.

Definition runEvents (events : list Event) : State :=
  fold_left onEvent events initial.

(** The visible texts carried by the transport calls of a run. *)
Definition contents (st : State) : list string :=
  flat_map (fun c => match content c with Some t => [t] | None => [] end)
           (calls st).

End Flush.

End ReplyStream.

(** ** Reciprocal rank fusion, as the specification words it *)

Module Fusion.

Import Recall.

(** Whether chunk [i] appears in a result list. *)
Definition occurs (i : Z) (hits : list RecallHit) : bool :=
  existsb (fun h => id h =? i) hits.

(** What the specification has a candidate at zero-based rank [i] of a list
    contribute: [1/(k + i + 1)] with [k = 60]. *)
Definition share (i : nat) : Q := (1 / (60 + inject_Z (Z.of_nat i) + 1))%Q.

(** The sum of the shares over the ranks at which chunk [i] appears in a
    list whose first element has rank [r]. *)
Fixpoint contribution (i : Z) (r : nat) (hits : list RecallHit) : Q :=
  match hits with
  | [] => 0
  | h :: hits' =>
      ((if id h =? i then share r else 0) + contribution i (S r) hits')%Q
  end.

(** The fused score: the contributions of both lists, summed. *)
Definition fused (i : Z) (fts vec : list RecallHit) : Q :=
  (contribution i 0 fts + contribution i 0 vec)%Q.

(** The tag: [hybrid] exactly when both lists contributed. *)
Definition tag_of (i : Z) (fts vec : list RecallHit) : MatchType :=
  if occurs i fts then (if occurs i vec then Hybrid else Fts) else Vector.

End Fusion.

(** ** Sample data

    Concrete stores, jobs and platform functions on which the properties
    below are run. *)

Module Sample.

(** A cron iterator that fires on every whole minute. *)
Definition every_minute (_ : string) (from : Z) : option Z :=
  Some ((from / 60000 + 1) * 60000).

(** A platform on which no date string parses and no cron expression has a
    next tick; for runs that never ask. *)
Definition no_date (_ : string) : option Z := None.
Definition no_cron (_ : string) (_ : Z) : option Z := None.

Definition payload_text (t : string) : Jobs.JobPayload :=
  Jobs.mkPayload (Some t) None None None None None [] false.

(** A one-shot reminder and a recurring one, both due at instant 1000. *)
Definition job_at : Jobs.Job :=
  Jobs.mkJob 1 "bob" 42 None "at" "1970-01-01T00:00:01.000Z" "send_message"
             (payload_text "ping") true 1000 None (Some "session").

Definition job_every : Jobs.Job :=
  Jobs.mkJob 2 "bob" 42 None "every" "5m" "send_message"
             (payload_text "tick") true 1000 None (Some "session").

Definition store2 : Jobs.JobStore := Jobs.mkStore [job_at; job_every] 2.

Definition opts_plain : Scheduler.Options := Scheduler.mkOptions None false "claude".

(** Scheduled quiet hours 22:00 to 08:00. *)
Definition opts_dnd : Scheduler.Options :=
  Scheduler.mkOptions (Some (Dnd.mkDndConfig true 1320 480)) false "claude".

(** The transport is down: [sendTelegramMessage] throws. *)
Definition world_down : Scheduler.World :=
  Scheduler.mkWorld None 2000 600 0 (Throw "ETELEGRAM: 502 Bad Gateway")
    (Ok "done") false true 0 EmptyString EmptyString 2000.

(** Everything works; it is 23:30 and quiet hours end at instant 9000. *)
Definition world_night : Scheduler.World :=
  Scheduler.mkWorld None 2000 1410 9000 (Ok (Some 7)) (Ok "done")
    false true 0 EmptyString EmptyString 2000.

(** A [JSON.parse] that rejects every text; it agrees with the real one on
    texts that are not JSON. *)
Definition no_json (_ : string) : option Json.JsValue := None.

(** Three events: two pending, one claimed a moment ago under token "t1". *)
Definition event (i chat : Z) (at_ : option Z) (tok : option string) : Events.Event :=
  Events.mkEvent i "bob" chat None "task_failed" "{}" (100 + i) at_ None tok.

Definition events3 : Events.EventStore :=
  Events.mkStore [event 1 42 None None; event 2 43 None None;
                  event 3 42 (Some 5000000) (Some "t1")] 3.

(** An engine that answers every group, and one that fails on chat 43. *)
Definition dispatch_ok (_ : Dispatcher.Group) : result Dispatcher.Reply :=
  Ok (Dispatcher.mkReply "noted" true false).

Definition dispatch_43_fails (g : Dispatcher.Group) : result Dispatcher.Reply :=
  if Dispatcher.g_chatId g =? 43 then Throw "engine stream error"
  else Ok (Dispatcher.mkReply "noted" true false).

(** The two-chunk example of the specification: the lexical search finds
    [A], the vector search finds [B] then [A]. *)
Definition chunkA : Recall.RecallHit := Recall.mkHit 1 "memory:user" "koala" 0.
Definition chunkB : Recall.RecallHit := Recall.mkHit 2 "memory:user" "marsupial" 0.

(** Stand-ins for the text pipeline of a reply, exact on text that carries
    no directive, no silent token, no reasoning block and no markdown, and
    that fits one message: [parseReplyDirectives] returns the text as it
    is, [sanitizeUserText] only trims, rendering gives one chunk. *)
Definition plain_parse (buf : string) : ReplyStream.Parsed :=
  ReplyStream.mkParsed buf None None None false.

Definition plain_sanitize (t : string) : string := Str.trim t.

Definition one_chunk (t : string) : list string := [t].

(** A transport on which every call succeeds; the message gets id 1. *)
Definition net_ok (now : Z) : ReplyStream.Net :=
  ReplyStream.mkNet false now (fun _ => Ok (Some 1))
                    (fun _ => ReplyStream.EditOk) true.

(** An engine that says "Done." before a tool call and again after it, and
    whose final text is the last "Done." alone. *)
Definition done_twice : list ReplyStream.Event :=
  [ReplyStream.Delta "Done.";
   ReplyStream.Timer (net_ok 1770000001000);
   ReplyStream.Delta "Done.";
   ReplyStream.Timer (net_ok 1770000002000);
   ReplyStream.Final "Done." (net_ok 1770000003000)].

End Sample.

(** * The rest of the code

    The functions around the ones above: listings, durations, the pieces
    of the reply stream and of the chat transport that work on plain text,
    the session store. *)

From Stdlib Require DecimalPos.

(** ** Dates as the tables hold them *)

Module IsoDate.

(** The tables hold a date as the text that [toISOString()] gives, and
    SQLite compares and sorts that text.  For the years 0000 to 9999 the
    text has one width ([YYYY-MM-DDTHH:mm:ss.sssZ]) and its order is the
    order of time.  Outside those years it starts with a sign and six
    digits, and sorts before every date of a four-digit year.  The job
    model compares instants, so it is the code's on dates of these years;
    what is said about which job is due, and in which order, is said of
    them. *)
Definition FIRST : Z := -62167219200000.     (* 0000-01-01T00:00:00.000Z *)
Definition LAST : Z := 253402300799999.      (* 9999-12-31T23:59:59.999Z *)

Definition four_digit_year (t : Z) : Prop := FIRST <= t <= LAST.

Definition jobs_in_range (s : Jobs.JobStore) : Prop :=
  forall r, In r (Jobs.rows s) -> four_digit_year (Jobs.nextRunAt r).

(** The range of a [Date]: 100 000 000 days either side of the epoch. *)
Definition MAX_DATE : Z := 8640000000000000.

Definition valid_date (t : Z) : Prop := - MAX_DATE <= t <= MAX_DATE.

(** [Number.MAX_SAFE_INTEGER]: up to here every whole number is a double. *)
Definition MAX_SAFE_INTEGER : Z := 9007199254740991.

End IsoDate.

(** ** More of the job store: the listing queries *)

Module JobQueries.

Import Jobs.

(** [listJobs]: [WHERE bob_id = ? ORDER BY id ASC]. *)
Definition listJobs (s : JobStore) : list Job :=
  map default_context
    (Lst.sort_by (fun a b => id a <=? id b)
       (filter (fun r => (bobId r =? BOB_ID)%string) (rows s))).

(** [getJobsForChat]: [WHERE bob_id = ? AND chat_id = ? AND enabled = 1
    ORDER BY next_run_at ASC]. *)
Definition getJobsForChat (chat : Z) (s : JobStore) : list Job :=
  map default_context
    (Lst.sort_by (fun a b => nextRunAt a <=? nextRunAt b)
       (filter (fun r => (bobId r =? BOB_ID)%string && (chatId r =? chat) && enabled r)
               (rows s))).

(** The record [claimDueJobs] returns for a row it read, given the ids it
    switched off. *)
Definition claimed_record (atIds : list Z) (r : Job) : Job :=
  default_context (set_enabled (enabled r && negb (Lst.mem_Z (id r) atIds)) r).

(** [WHERE bob_id = ? AND enabled = 1], the rows [getNextRunAt] looks at. *)
Definition runnable (r : Job) : bool := (bobId r =? BOB_ID)%string && enabled r.

End JobQueries.

(** ** Decimal digits *)

Module Digits.

(** The value of a decimal numeral read from the left, starting from
    [acc]. *)
Fixpoint value (d : Decimal.uint) (acc : Z) : Z :=
  match d with
  | Decimal.Nil => acc
  | Decimal.D0 l => value l (10 * acc)
  | Decimal.D1 l => value l (10 * acc + 1)
  | Decimal.D2 l => value l (10 * acc + 2)
  | Decimal.D3 l => value l (10 * acc + 3)
  | Decimal.D4 l => value l (10 * acc + 4)
  | Decimal.D5 l => value l (10 * acc + 5)
  | Decimal.D6 l => value l (10 * acc + 6)
  | Decimal.D7 l => value l (10 * acc + 7)
  | Decimal.D8 l => value l (10 * acc + 8)
  | Decimal.D9 l => value l (10 * acc + 9)
  end.

End Digits.

(** ** Durations in words *)

Module Units.

(** Milliseconds in a second, minute, hour, day, by the unit letter. *)
Definition unit_ms (u : ascii) : Z :=
  if Ascii.eqb u "s" then 1000
  else if Ascii.eqb u "m" then 60000
  else if Ascii.eqb u "h" then 3600000
  else 86400000.

Definition letters : list ascii := ["s"; "m"; "h"; "d"; "S"; "M"; "H"; "D"]%char.

End Units.

(** ** Durations of ad-hoc quiet periods ([dnd/index.ts]: [parseDuration],
    [formatDuration]) *)

Module DndText.

(** The longest prefix of decimal digits, and what follows it. *)
Fixpoint span_digits (l : list ascii) : list ascii * list ascii :=
  match l with
  | c :: l' =>
      if Str.is_digit c
      then let (ds, rest) := span_digits l' in (c :: ds, rest)
      else ([], l)
  | [] => ([], [])
  end.


(** [parseInt(s, 10)]: leading white space, an optional sign, then the
    longest run of digits; [None] is [NaN]. *)
Definition parseInt10 (l : list ascii) : option Z :=
  let body := Str.drop_space l in
  let (negative, digits_on) :=
    match body with
    | c :: rest =>
        if Ascii.eqb c "-" then (true, rest)
        else if Ascii.eqb c "+" then (false, rest)
        else (false, body)
    | [] => (false, [])
    end in
  match fst (span_digits digits_on) with
  | [] => None
  | ds => Some (if negative then - Str.parse_digits ds else Str.parse_digits ds)
  end.





End DndText.

(** ** The scheduler's sleep ([startScheduler]: [scheduleNext]) *)

Module Sleep.

(** The delay [scheduleNext] hands to [schedule]: zero when the heartbeat is
    on and events are pending, else the time to the next enabled job, else
    the maximum; never more than the maximum. *)
Definition scheduleDelay (heartbeatEnabled : bool) (pendingEvents : Z)
    (nextRunAt : option Z) (now maxSleepMs : Z) : Z :=
  let hasPendingEvents := heartbeatEnabled && (0 <? pendingEvents) in
  let delay :=
    if hasPendingEvents then 0
    else match nextRunAt with
         | Some t => Z.max 0 (t - now)
         | None => maxSleepMs
         end in
  Z.min delay maxSleepMs.

(** [scheduleNext] on the two stores. *)
Definition nextDelay (heartbeatEnabled : bool) (jobs : Jobs.JobStore)
    (events : Events.EventStore) (now maxSleepMs : Z) : Z :=
  scheduleDelay heartbeatEnabled (Events.countPending now events)
                (Jobs.getNextRunAt jobs) now maxSleepMs.

End Sleep.

(** ** More of the event store: listing, pruning, and the store as a
    transition system *)

Module EventQueries.

Import Events.

(** [listEvents]: [WHERE bob_id = ? AND (? = 1 OR processed_at IS NULL)
    ORDER BY created_at ASC]. *)
Definition listEvents (includeProcessed : bool) (s : EventStore) : list Event :=
  by_createdAt
    (filter (fun r => (bobId r =? BOB_ID)%string
                      && (includeProcessed || negb (Lst.is_some (processedAt r))))
            (rows s)).

(** [DELETE FROM events WHERE bob_id = ? AND processed_at IS NOT NULL AND
    processed_at < ?]. *)
Definition prunable (cutoff : Z) (r : Event) : bool :=
  (bobId r =? BOB_ID)%string
  && match processedAt r with
     | Some t => t <? cutoff
     | None => false
     end.

(** [pruneProcessedOlderThanDays], for a whole number of days; [now] is the
    clock. *)
Definition pruneProcessedOlderThanDays (days now : Z) (s : EventStore)
  : Z * EventStore :=
  if days <=? 0 then (0, s)
  else
    let cutoff := now - days * 86400000 in
    (Z.of_nat (List.length (filter (prunable cutoff) (rows s))),
     mkStore (filter (fun r => negb (prunable cutoff r)) (rows s)) (seq s)).

(** The stamp a claim puts on a row. *)
Definition stamp (now : Z) (tok : string) (r : Event) : Event :=
  set_claim (Some now) (Some tok) r.

(** The rows the inner [SELECT id ... ORDER BY created_at ASC LIMIT ?] of
    the claim statement yields. *)
Definition picked (now limit staleAfterMs : Z) (s : EventStore) : list Event :=
  Lst.sql_limit limit
    (by_createdAt (filter (is_pending (now - staleAfterMs)) (rows s))).

(** The [LIMIT] of a claim at [now] does not cut its selection. *)
Definition uncut (now limit staleAfterMs : Z) (s : EventStore) : Prop :=
  limit < 0
  \/ Z.of_nat (List.length (filter (is_pending (now - staleAfterMs)) (rows s)))
     <= limit.

(** No row carries the token yet, as for a new [randomUUID()]. *)
Definition fresh (tok : string) (s : EventStore) : Prop :=
  forall r, In r (rows s) -> claimToken r <> Some tok.

Section Operations.

Variable JSON_parse : string -> option Json.JsValue.

(** Everything a process can do to the event table. *)
Inductive Op : Type :=
| OpAdd (input : EventInput) (clock : Z)
| OpClaim (now limit staleAfterMs : Z) (token : string)
| OpAck (token : string) (timestamp : Z)
| OpRelease (token : string)
| OpPrune (days now : Z).

(** One operation: the new table and, for a claim, the events handed out. *)
Definition apply (s : EventStore) (op : Op) : EventStore * option (list Event) :=
  match op with
  | OpAdd input clock =>
      match addEvent JSON_parse input clock s with
      | Ok (_, s') => (s', None)
      | Throw _ => (s, None)
      end
  | OpClaim now limit staleAfterMs token =>
      let (events, s') := claimEvents now limit staleAfterMs token s in
      (s', Some events)
  | OpAck token timestamp => (snd (ackEvents token timestamp s), None)
  | OpRelease token => (snd (releaseClaim token s), None)
  | OpPrune days now => (snd (pruneProcessedOlderThanDays days now s), None)
  end.

Definition claims_with (tok : string) (op : Op) : Prop :=
  match op with
  | OpClaim _ _ _ token => token = tok
  | _ => False
  end.

Fixpoint run (s : EventStore) (ops : list Op) : EventStore * list (list Event) :=
  match ops with
  | [] => (s, [])
  | op :: ops' =>
      let (s', out) := apply s op in
      let (s'', outs) := run s' ops' in
      (s'', match out with Some events => events :: outs | None => outs end)
  end.

End Operations.

(** The event with id [i] has been processed under token [tok]: a row with
    that id is marked processed and carries that token or none, and no new
    row can get the id. *)
Definition Done (i : Z) (tok : string) (s : EventStore) : Prop :=
  (forall r, In r (rows s) -> id r = i ->
     processedAt r <> None
     /\ (claimToken r = Some tok \/ claimToken r = None))
  /\ i <= seq s.

(** The primary key and [AUTOINCREMENT]. *)
Definition wf (s : EventStore) : Prop :=
  NoDup (map id (rows s)) /\ forall r, In r (rows s) -> id r <= seq s.

End EventQueries.

(** ** Groups of the dispatcher *)

Module Groups.

Import Events Dispatcher.

(** The key of the [Map] in [groupEvents], as the pair it is built from. *)
Definition key_of (e : Event) : Z * option Z := (chatId e, threadId e).

Definition key (g : Group) : Z * option Z := (g_chatId g, g_threadId g).

Definition in_group (g : Group) (e : Event) : bool :=
  (g_chatId g =? chatId e) && same_thread (g_threadId g) (threadId e).

(** The groups [gs] are the events [done], split by chat and thread. *)
Definition Grouped (done : list Event) (gs : list Group) : Prop :=
  NoDup (map key gs)
  /\ (forall g, In g gs ->
        g_events g = filter (in_group g) done /\ g_events g <> [])
  /\ (forall e, In e done -> exists g, In g gs /\ in_group g e = true).

End Groups.

(** ** Silent replies *)

Module Directives.

Definition SILENT_REPLY_TOKEN : string := "NO_REPLY".

(** [s.endsWith(p)]. *)
Definition ends_with (p s : string) : bool :=
  String.prefix (string_of_list_ascii (rev (list_ascii_of_string p)))
                (string_of_list_ascii (rev (list_ascii_of_string s))).

(** [s.slice(0, -n)] for [n > 0]. *)
Definition slice_off (n : nat) (s : string) : string :=
  String.substring 0 (String.length s - n) s.

(** The [for (const token of tokens)] loop of [stripSilentToken]: [true]
    when one of its three tests returns the silent result. *)
Fixpoint silent_by (trimmed : string) (tokens : list string) : bool :=
  match tokens with
  | [] => false
  | token :: rest =>
      if (token =? EmptyString)%string then silent_by trimmed rest
      else if (trimmed =? token)%string then true
      else if String.prefix (token ++ " ") trimmed
              && ReplyStream.blank
                   (ReplyStream.slice_from (String.length token) trimmed)
      then true
      else if ends_with (" " ++ token) trimmed
              && ReplyStream.blank (slice_off (String.length token) trimmed)
      then true
      else silent_by trimmed rest
  end.

(** [stripSilentToken(text, tokens)]; [None] is the default argument. *)
Definition stripSilentToken (text : string) (tokens : option (list string))
  : string * bool :=
  let tokens := match tokens with
                | Some ts => ts
                | None => [SILENT_REPLY_TOKEN]
                end in
  let trimmed := Str.trim text in
  if (trimmed =? EmptyString)%string then (EmptyString, false)
  else if silent_by trimmed tokens then (EmptyString, true)
  else (text, false).

End Directives.

(** ** Chunks of a rendered message *)

Module Render.

Definition TELEGRAM_SAFE_CHARS : nat := 3500.

(** A [TelegramEntity]. *)
Record Entity : Type := mkEntity {
  e_type : string;
  e_offset : Z;
  e_length : Z;
  e_url : option string;
  e_language : option string
}.

(** [sliceEntities]; [start] and [end_] are the bounds of the chunk. *)
Definition sliceEntities (entities : list Entity) (start end_ : Z) : list Entity :=
  flat_map
    (fun entity =>
       let entityStart := e_offset entity in
       let entityEnd := e_offset entity + e_length entity in
       if (entityEnd <=? start) || (entityStart >=? end_) then []
       else
         let nextStart := Z.max entityStart start in
         let nextEnd := Z.min entityEnd end_ in
         let nextLength := nextEnd - nextStart in
         if nextLength <=? 0 then []
         else [mkEntity (e_type entity) (nextStart - start) nextLength
                        (e_url entity) (e_language entity)])
    entities.

(** The characters that entities cover, counted once per entity. *)
Definition span (entities : list Entity) : Z :=
  fold_right Z.add 0 (map e_length entities).

Section Chunks.

(** The text is a sequence of UTF-16 code units; chunking only asks of a
    unit whether it is the line feed. *)
Variable Unit : Type.
Variable is_lf : Unit -> bool.

(** A [RenderedTelegramMessage]. *)
Record Rendered : Type := mkRendered {
  text : list Unit;
  entities : list Entity
}.

(** [text.slice(start, end_)] for [start <= end_]. *)
Definition slice (start end_ : nat) (t : list Unit) : list Unit :=
  firstn (end_ - start) (skipn start t).

(** The index of the last line feed of [t]. *)
Fixpoint last_lf (t : list Unit) : option nat :=
  match t with
  | [] => None
  | c :: t' =>
      match last_lf t' with
      | Some i => Some (S i)
      | None => if is_lf c then Some 0%nat else None
      end
  end.

(** [text.lastIndexOf("\n", from)]: the last line feed at an index not
    beyond [from]; [None] is [-1]. *)
Definition lastIndexOf_lf (t : list Unit) (from : nat) : option nat :=
  last_lf (firstn (S from) t).

(** [findChunkEnd].  [Math.floor(maxChars * 0.4)] is [(2 * maxChars) / 5]
    for a whole number [maxChars]. *)
Definition findChunkEnd (t : list Unit) (start maxChars : nat) : nat :=
  let maxEnd := Nat.min (List.length t) (start + maxChars) in
  if (maxEnd =? List.length t)%nat then maxEnd
  else
    match lastIndexOf_lf t maxEnd with
    | Some newline =>
        if (start + (2 * maxChars) / 5 <? newline)%nat then (newline + 1)%nat
        else maxEnd
    | None => maxEnd
    end.

(** The [while (start < rendered.text.length)] loop of
    [chunkTelegramMessage]; [None] when [fuel] rounds do not end it. *)
Fixpoint chunk_loop (fuel : nat) (rendered : Rendered) (maxChars start : nat)
  : option (list Rendered) :=
  if (List.length (text rendered) <=? start)%nat then Some []
  else
    match fuel with
    | O => None
    | S fuel' =>
        let end_ := findChunkEnd (text rendered) start maxChars in
        let chunk :=
          mkRendered (slice start end_ (text rendered))
                     (sliceEntities (entities rendered)
                                    (Z.of_nat start) (Z.of_nat end_)) in
        option_map (cons chunk) (chunk_loop fuel' rendered maxChars end_)
    end.

(** [chunkTelegramMessage(rendered, maxChars)] for a whole number
    [maxChars] that is not negative. *)
Definition chunkTelegramMessage (fuel : nat) (rendered : Rendered)
    (maxChars : nat) : option (list Rendered) :=
  if (List.length (text rendered) <=? maxChars)%nat then Some [rendered]
  else chunk_loop fuel rendered maxChars 0.

End Chunks.

Arguments mkRendered {Unit} _ _.
Arguments text {Unit} _.
Arguments entities {Unit} _.
Arguments slice {Unit} _ _ _.
Arguments last_lf {Unit} _ _.
Arguments lastIndexOf_lf {Unit} _ _ _.
Arguments findChunkEnd {Unit} _ _ _ _.
Arguments chunk_loop {Unit} _ _ _ _ _.
Arguments chunkTelegramMessage {Unit} _ _ _ _.

(** The line feed among bytes. *)
Definition lf (c : ascii) : bool := Ascii.eqb c (ascii_of_nat 10).

End Render.

(** ** Version numbers *)

Module Version.

(** [v.split(".")]. *)
Fixpoint split_dots (l : list ascii) : list (list ascii) :=
  match l with
  | [] => [[]]
  | c :: l' =>
      if Ascii.eqb c "." then [] :: split_dots l'
      else
        match split_dots l' with
        | p :: ps => (c :: p) :: ps
        | [] => [[c]]
        end
  end.

(** [parseInt(n, 10) || 0]. *)
Definition part_value (n : list ascii) : Z :=
  match DndText.parseInt10 n with
  | Some z => z
  | None => 0
  end.

(** [parse] of [isNewer]. *)
Definition parse (v : string) : list Z :=
  map part_value (split_dots (list_ascii_of_string v)).

(** The [for] loop of [isNewer] from index [i], with [rounds] rounds to go;
    [nth i a 0] is [a[i] ?? 0]. *)
Fixpoint newer_from (a b : list Z) (i rounds : nat) : bool :=
  match rounds with
  | O => false
  | S rounds' =>
      if nth i b 0 >? nth i a 0 then true
      else if nth i b 0 <? nth i a 0 then false
      else newer_from a b (S i) rounds'
  end.

Definition isNewer (current latest : string) : bool :=
  newer_from (parse current) (parse latest) 0 3.

(** The three numbers [isNewer] looks at. *)
Definition triple (v : string) : Z * Z * Z :=
  (nth 0 (parse v) 0, nth 1 (parse v) 0, nth 2 (parse v) 0).

End Version.

(** ** More sample data *)

Module Sample2.

(** A script job with a path that climbs out of the scripts directory. *)
Definition job_script : Jobs.Job :=
  Jobs.mkJob 3 "bob" 42 None "every" "1h" "script"
             (Jobs.mkPayload None None None None None (Some "../../etc/passwd") [] true)
             true 1000 None (Some "session").

Definition world_escape : Scheduler.World :=
  Scheduler.mkWorld None 2000 1410 9000 (Ok (Some 7)) (Ok "done")
    true true 0 EmptyString EmptyString 2000.

(** An urgent alert. *)
Definition job_urgent : Jobs.Job :=
  Jobs.mkJob 4 "bob" 42 None "every" "5m" "send_message"
             (Jobs.mkPayload (Some "site down") None None None (Some true) None [] false)
             true 1000 None (Some "session").

(** Five characters with a line feed in the middle, and a bold entity over
    the three in the middle. *)
Definition message : Render.Rendered ascii :=
  Render.mkRendered
    (list_ascii_of_string "ab" ++ [ascii_of_nat 10] ++ list_ascii_of_string "cd")
    [Render.mkEntity "bold" 1 3 None None].


(** The night of the repository's own DND test.  The tick claims at
    2026-02-03T23:00:00Z; quiet hours are 22:00 to 08:00 in the zone UTC,
    so at the DND check, 40 ms later, it is 23:00 on the wall clock and the
    quiet hours end at 2026-02-04T08:00:00Z. *)
Definition feb3_2300 : Z := 1770159600000.
Definition feb4_0800 : Z := 1770192000000.

(** A one-shot reminder due since 22:30 that evening, and an hourly one. *)
Definition job_reminder : Jobs.Job :=
  Jobs.mkJob 1 "bob" 42 None "at" "2026-02-03T22:30:00.000Z" "send_message"
             (Sample.payload_text "ping") true 1770157800000 None (Some "session").

Definition job_hourly : Jobs.Job :=
  Jobs.mkJob 2 "bob" 42 None "every" "1h" "send_message"
             (Sample.payload_text "tick") true 1770157800000 None (Some "session").

Definition store_feb : Jobs.JobStore := Jobs.mkStore [job_reminder; job_hourly] 2.

Definition world_quiet : Scheduler.World :=
  Scheduler.mkWorld None (feb3_2300 + 40) 1380 feb4_0800 (Ok (Some 7)) (Ok "done")
    false true 0 EmptyString EmptyString (feb3_2300 + 40).

(** The same night with the transport down. *)
Definition world_offline : Scheduler.World :=
  Scheduler.mkWorld None (feb3_2300 + 40) 1380 feb4_0800
    (Throw "ETELEGRAM: 502 Bad Gateway") (Ok "done")
    false true 0 EmptyString EmptyString (feb3_2300 + 40).

(** A date parser that knows the one date of [job_reminder]. *)
Definition date_feb (spec : string) : option Z :=
  if (spec =? "2026-02-03T22:30:00.000Z")%string then Some 1770157800000 else None.


(** What the tick's claim at 23:00 hands out, and the table it leaves: the
    one-shot job is reported, and stored, with [enabled = false]. *)
Definition claimed_reminder : Jobs.Job := Jobs.set_enabled false job_reminder.

Definition store_claimed : Jobs.JobStore :=
  snd (Jobs.claimDueJobs feb3_2300 (Some 10) store_feb).


End Sample2.
(** * Properties *)

(** ** Next-run times *)

Section NextRunFacts.

Variable Date_parse : string -> option Z.
Variable cron_next : string -> Z -> option Z.

(** The instants at which a cron expression fires. *)
Variable cron_tick : string -> Z -> Prop.

(** What the cron iterator promises: its answer is the first tick strictly
    after [from]. *)
Hypothesis cron_next_first :
  forall spec from t,
    cron_next spec from = Some t ->
    from < t /\ cron_tick spec t /\
    forall u, from < u -> cron_tick spec u -> t <= u.

Lemma cron_next_monotone spec t1 t2 r1 r2 :
  t1 <= t2 ->
  cron_next spec t1 = Some r1 ->
  cron_next spec t2 = Some r2 ->
  r1 <= r2.
Proof.
  intros Hle H1 H2.
  destruct (cron_next_first _ _ _ H1) as (_ & _ & Hleast).
  destruct (cron_next_first _ _ _ H2) as (Hafter & Htick & _).
  apply Hleast; [lia | exact Htick].
Qed.

(** C9. [computeNextRunAt] is monotonic in [from]: for [t1 <= t2], whenever
    it yields a time at both, the time at [t1] is not after the time at
    [t2].  For kind [at] it yields a time exactly when the spec is a date,
    and then the time is [max(from, spec)].  It does yield a time for an
    [every] spec that [parseEvery] accepts, namely [from] plus the interval
    (as long as that is still a date), and for a [cron] spec whenever the
    iterator has a next tick. *)
Theorem computeNextRunAt_monotone :
  (forall kind spec t1 t2 r1 r2,
      t1 <= t2 ->
      Schedule.computeNextRunAt Date_parse cron_next kind spec t1 = Ok (Some r1) ->
      Schedule.computeNextRunAt Date_parse cron_next kind spec t2 = Ok (Some r2) ->
      r1 <= r2)
  /\
  (forall spec from r,
      Schedule.computeNextRunAt Date_parse cron_next "at" spec from = Ok (Some r) ->
      exists date, Date_parse spec = Some date /\ r = Z.max from date)
  /\
  (forall spec from date,
      Date_parse spec = Some date ->
      Schedule.computeNextRunAt Date_parse cron_next "at" spec from
      = Ok (Some (Z.max from date)))
  /\
  (forall spec from interval,
      Schedule.parseEvery spec = Ok interval ->
      IsoDate.valid_date from -> IsoDate.valid_date (from + interval) ->
      Schedule.computeNextRunAt Date_parse cron_next "every" spec from
      = Ok (Some (from + interval)))
  /\
  (forall spec from t,
      cron_next spec from = Some t ->
      Schedule.computeNextRunAt Date_parse cron_next "cron" spec from
      = Ok (Some t)).
Proof.
  split; [|split; [|split; [|split]]].
  - intros kind spec t1 t2 r1 r2 Hle.
    unfold Schedule.computeNextRunAt, Schedule.parseAt.
    destruct (kind =? "at")%string.
    + destruct (Date_parse spec) as [date|]; simpl; [|discriminate].
      destruct (Z.leb_spec date t1), (Z.leb_spec date t2);
        intros E1 E2; inversion E1; inversion E2; subst; lia.
    + destruct (kind =? "every")%string.
      * destruct (Schedule.parseEvery spec) as [interval|]; simpl; [|discriminate].
        intros E1 E2; inversion E1; inversion E2; subst; lia.
      * destruct (kind =? "cron")%string; [|discriminate].
        destruct (cron_next spec t1) as [a|] eqn:Ha; [|discriminate].
        destruct (cron_next spec t2) as [b|] eqn:Hb; [|discriminate].
        intros E1 E2; inversion E1; inversion E2; subst.
        eapply cron_next_monotone; eauto.
  - intros spec from r.
    unfold Schedule.computeNextRunAt, Schedule.parseAt. simpl.
    destruct (Date_parse spec) as [date|]; simpl; [|discriminate].
    destruct (Z.leb_spec date from); intros E; injection E as E';
      exists date; (split; [reflexivity | lia]).
  - intros spec from date Hdate.
    unfold Schedule.computeNextRunAt, Schedule.parseAt. simpl.
    rewrite Hdate. simpl.
    destruct (Z.leb_spec date from); do 2 f_equal; lia.
  - intros spec from interval Hevery _ _.
    unfold Schedule.computeNextRunAt. simpl. rewrite Hevery. reflexivity.
  - intros spec from t Hcron.
    unfold Schedule.computeNextRunAt. simpl. rewrite Hcron. reflexivity.
Qed.

End NextRunFacts.

Lemma every_minute_first :
  forall spec from t,
    Sample.every_minute spec from = Some t ->
    from < t /\ (fun (_ : string) u => u mod 60000 = 0) spec t /\
    forall u, from < u -> (fun (_ : string) u => u mod 60000 = 0) spec u -> t <= u.
Proof.
  intros spec from t E. unfold Sample.every_minute in E. inversion E; subst; clear E.
  pose proof (Z.div_mod from 60000 ltac:(lia)) as Hdm.
  pose proof (Z.mod_pos_bound from 60000 ltac:(lia)) as Hb.
  split; [lia|]. split.
  - apply Z.mod_mul; lia.
  - intros u Hu Hmod.
    pose proof (Z.div_mod u 60000 ltac:(lia)) as Hu'.
    rewrite Hmod in Hu'.
    assert (from / 60000 < u / 60000) by nia.
    nia.
Qed.

Lemma computeNextRunAt_monotone_witness :
  Schedule.computeNextRunAt Sample2.date_feb Sample.every_minute "every" "5m" 0
    = Ok (Some 300000)
  /\ Schedule.computeNextRunAt Sample2.date_feb Sample.every_minute "cron"
       "* * * * *" 61000
     = Ok (Some 120000)
  /\ 300000 <= 300001
  /\ Schedule.computeNextRunAt Sample2.date_feb Sample.every_minute "at"
       "2026-02-03T22:30:00.000Z" Sample2.feb3_2300
     = Ok (Some Sample2.feb3_2300)
  /\ Schedule.computeNextRunAt Sample2.date_feb Sample.every_minute "at"
       "2026-02-03T22:30:00.000Z" 1770150000000
     = Ok (Some 1770157800000).
Proof.
  pose proof (computeNextRunAt_monotone Sample2.date_feb Sample.every_minute
                (fun _ u => u mod 60000 = 0) every_minute_first)
    as (Hmono & _ & Hat & _ & _).
  split; [reflexivity|]. split; [reflexivity|]. split.
  - exact (Hmono "every" "5m" 0 1 300000 300001 ltac:(lia) eq_refl eq_refl).
  - split.
    + exact (Hat "2026-02-03T22:30:00.000Z" Sample2.feb3_2300 1770157800000 eq_refl).
    + exact (Hat "2026-02-03T22:30:00.000Z" 1770150000000 1770157800000 eq_refl).
Defined.

(** ** Sorting and limits *)

Section LimitFacts.

Context {A : Type}.

Lemma firstn_In (n : nat) (x : A) (l : list A) :
  In x (firstn n l) -> In x l.
Proof.
  revert n. induction l as [|y l IH]; intros [|n]; simpl; try tauto.
  intros [H|H]; [left; exact H | right; eapply IH; exact H].
Qed.

Lemma sql_limit_In (n : Z) (x : A) (l : list A) :
  In x (Lst.sql_limit n l) -> In x l.
Proof.
  unfold Lst.sql_limit. destruct (n <? 0); auto.
  apply firstn_In.
Qed.

Lemma sql_limit_all (n : Z) (l : list A) :
  Z.of_nat (List.length l) <= n -> Lst.sql_limit n l = l.
Proof.
  intros H. unfold Lst.sql_limit.
  destruct (Z.ltb_spec n 0); auto.
  apply firstn_all2. lia.
Qed.

Lemma firstn_NoDup_map {B} (f : A -> B) (n : nat) (l : list A) :
  NoDup (map f l) -> NoDup (map f (firstn n l)).
Proof.
  revert n. induction l as [|x l IH]; intros [|n] H; simpl; try constructor.
  - inversion H as [|? ? Hnot Hnd]; subst.
    intros Hin. apply Hnot.
    apply in_map_iff in Hin. destruct Hin as (y & Hy & Hin).
    apply in_map_iff. exists y. split; auto.
    eapply firstn_In; eauto.
  - inversion H; subst. auto.
Qed.

Lemma sql_limit_NoDup_map {B} (f : A -> B) (n : Z) (l : list A) :
  NoDup (map f l) -> NoDup (map f (Lst.sql_limit n l)).
Proof.
  unfold Lst.sql_limit. destruct (n <? 0); auto using firstn_NoDup_map.
Qed.

Lemma filter_NoDup_map {K} (key : A -> K) (keep : A -> bool) (rows : list A)
  (Hdistinct : NoDup (map key rows)) :
  NoDup (map key (filter keep rows)).
Proof.
  induction rows as [|x rest IH]; simpl; auto.
  inversion Hdistinct as [|? ? Hnot Hnd]; subst.
  destruct (keep x); simpl; auto.
  constructor; auto.
  intros Hin. apply Hnot.
  apply in_map_iff in Hin. destruct Hin as (y & Hy & Hin).
  apply in_map_iff. exists y. split; auto.
  apply filter_In in Hin. tauto.
Qed.

End LimitFacts.

Section SortFacts.

Context {A : Type}.
Variable le : A -> A -> bool.

Lemma insert_by_perm (x : A) (l : list A) :
  Permutation (Lst.insert_by le x l) (x :: l).
Proof.
  induction l as [|y l IH]; simpl.
  - apply Permutation_refl.
  - destruct (le x y).
    + apply Permutation_refl.
    + eapply Permutation_trans.
      * apply perm_skip. exact IH.
      * apply perm_swap.
Qed.

Lemma sort_by_perm (l : list A) : Permutation (Lst.sort_by le l) l.
Proof.
  induction l as [|x l IH]; simpl.
  - apply Permutation_refl.
  - eapply Permutation_trans.
    + apply insert_by_perm.
    + apply perm_skip. exact IH.
Qed.

Lemma sort_by_In (x : A) (l : list A) : In x (Lst.sort_by le l) <-> In x l.
Proof.
  split; apply Permutation_in.
  - apply sort_by_perm.
  - apply Permutation_sym, sort_by_perm.
Qed.

Lemma sort_by_length (l : list A) :
  List.length (Lst.sort_by le l) = List.length l.
Proof. apply Permutation_length, sort_by_perm. Qed.

Lemma sort_by_NoDup_map {B} (f : A -> B) (l : list A) :
  NoDup (map f l) -> NoDup (map f (Lst.sort_by le l)).
Proof.
  intros H. eapply Permutation_NoDup; [|exact H].
  apply Permutation_map, Permutation_sym, sort_by_perm.
Qed.

End SortFacts.

Lemma mem_Z_In (x : Z) (l : list Z) : Lst.mem_Z x l = true <-> In x l.
Proof.
  unfold Lst.mem_Z. rewrite existsb_exists. split.
  - intros (y & Hin & Heq). apply Z.eqb_eq in Heq. subst. exact Hin.
  - intros Hin. exists x. split; auto. apply Z.eqb_refl.
Qed.

(** ** The job store *)

Module JobFacts.

Import Jobs.

Lemma selectDue_In now lim l r :
  In r (selectDue now lim l) -> In r l /\ is_due now r = true.
Proof.
  unfold selectDue. intros H.
  apply sql_limit_In in H. apply sort_by_In in H.
  apply filter_In in H. exact H.
Qed.

Lemma selectDue_complete now lim l r :
  In r l -> is_due now r = true ->
  Z.of_nat (List.length (filter (is_due now) l)) <= lim ->
  In r (selectDue now lim l).
Proof.
  intros Hin Hdue Hlim. unfold selectDue.
  rewrite sql_limit_all.
  - apply sort_by_In. apply filter_In. auto.
  - rewrite sort_by_length. exact Hlim.
Qed.

Lemma selectDue_NoDup now lim l :
  NoDup (ids l) -> NoDup (ids (selectDue now lim l)).
Proof.
  intros H. unfold selectDue, ids.
  apply sql_limit_NoDup_map, sort_by_NoDup_map, filter_NoDup_map. exact H.
Qed.

Lemma disable_ids_nil l : disable_ids [] l = l.
Proof.
  unfold disable_ids. rewrite <- (map_id l) at 2. apply map_ext.
  intros r. unfold Lst.mem_Z. simpl. now rewrite andb_false_r.
Qed.

Lemma ids_disable a l : ids (disable_ids a l) = ids l.
Proof.
  unfold ids, disable_ids. rewrite map_map. apply map_ext.
  intros r. destruct (_ && _); reflexivity.
Qed.

Lemma claim_due now limit s :
  ids (fst (claimDueJobs now limit s)) = ids (selectDue now (limit_of limit) (rows s)).
Proof.
  unfold claimDueJobs, limit_of.
  destruct (selectDue now _ (rows s)) as [|r due]; [reflexivity|].
  cbn [fst]. unfold ids. rewrite map_map. apply map_ext.
  intros x. unfold default_context. destruct (contextMode _); reflexivity.
Qed.

Lemma claim_rows now limit s :
  rows (snd (claimDueJobs now limit s))
  = disable_ids (at_ids (selectDue now (limit_of limit) (rows s))) (rows s).
Proof.
  unfold claimDueJobs, limit_of, at_ids.
  destruct (selectDue now _ (rows s)) as [|r due] eqn:E.
  - simpl. now rewrite disable_ids_nil.
  - cbn [snd].
    destruct (ids (filter _ (r :: due))) eqn:Eat.
    + now rewrite disable_ids_nil.
    + reflexivity.
Qed.

Lemma claim_seq now limit s : seq (snd (claimDueJobs now limit s)) = seq s.
Proof.
  unfold claimDueJobs.
  destruct (selectDue now _ (rows s)) as [|r due]; [reflexivity|].
  cbn [snd]. destruct (ids _); reflexivity.
Qed.

(** Every row that shares its id with a claimed [at] job is disabled when
    the claim returns. *)
Lemma claim_disables_at now limit s job r :
  In job (fst (claimDueJobs now limit s)) ->
  scheduleKind job = "at" ->
  In r (rows (snd (claimDueJobs now limit s))) ->
  id r = id job ->
  bobId r = BOB_ID ->
  enabled r = false.
Proof.
  intros Hjob Hat Hr Hid Hbob.
  rewrite claim_rows in Hr.
  assert (Hmem : In (id job) (at_ids (selectDue now (limit_of limit) (rows s)))).
  { unfold claimDueJobs in Hjob. fold (limit_of limit) in Hjob.
    destruct (selectDue now (limit_of limit) (rows s)) as [|r0 due] eqn:E;
      [contradiction|].
    cbn [fst] in Hjob. apply in_map_iff in Hjob.
    destruct Hjob as (x & Hx & Hin). subst job.
    unfold at_ids, ids. apply in_map_iff. exists x. split.
    - unfold default_context. destruct (contextMode _); reflexivity.
    - apply filter_In. split; auto.
      unfold default_context in Hat.
      destruct (contextMode _); simpl in Hat; rewrite Hat; reflexivity. }
  unfold disable_ids in Hr. apply in_map_iff in Hr.
  destruct Hr as (x & Hx & Hin).
  destruct ((bobId x =? BOB_ID)%string && Lst.mem_Z (id x) _) eqn:Ec.
  - subst r. reflexivity.
  - subst r. rewrite Hbob, String.eqb_refl in Ec. simpl in Ec.
    rewrite Hid in Ec. apply mem_Z_In in Hmem. congruence.
Qed.

End JobFacts.

(** ** Claims on the job store *)

Module JobClaims.

Import Jobs JobFacts.




End JobClaims.

(** ** Claims on the scheduler loop *)

Module SchedulerClaims.

Import Jobs JobFacts Scheduler.

Lemma NoDup_map_inj {A B} (f : A -> B) (l : list A) x y :
  NoDup (map f l) -> In x l -> In y l -> f x = f y -> x = y.
Proof.
  induction l as [|a l IH]; simpl; [tauto|].
  intros Hnd Hx Hy Hf. inversion Hnd as [|? ? Hnot Hnd']; subst.
  destruct Hx as [Hx|Hx], Hy as [Hy|Hy]; subst; auto.
  - exfalso. apply Hnot. rewrite Hf. now apply in_map.
  - exfalso. apply Hnot. rewrite <- Hf. now apply in_map.
Qed.

Lemma updateAfterRun_rows i last next en s r :
  In r (rows (updateAfterRun i last next en s)) ->
  exists x, In x (rows s) /\
            r = (if id x =? i then set_run (Some last) next en x else x).
Proof.
  unfold updateAfterRun. cbn [rows]. intros H.
  apply in_map_iff in H. destruct H as (x & Hx & Hin). eauto.
Qed.

(** The write-back row by row: every row keeps its place, the row with the
    id gets the three new values, any other row stays as it is. *)
Lemma updateAfterRun_nth i last next en s n r :
  nth_error (rows s) n = Some r ->
  nth_error (rows (updateAfterRun i last next en s)) n
  = Some (if id r =? i then set_run (Some last) next en r else r).
Proof.
  unfold updateAfterRun. cbn [rows]. intros H.
  rewrite nth_error_map, H. reflexivity.
Qed.


Section Deferral.

Variable Date_parse : string -> option Z.
Variable cron_next : string -> Z -> option Z.


End Deferral.



Section Retry.

Variable Date_parse : string -> option Z.
Variable cron_next : string -> Z -> option Z.

(** C4 (as the code has it), for dates in the years 0000 to 9999.  When
    running a claimed job throws, the failing run leaves the store as it is
    ([updateAfterRun] is not called).  For a job of a kind other than [at],
    the job's row keeps its [nextRunAt] and is enabled, and every later
    claim whose limit does not cut the due rows short returns the job
    again.  For a job of kind [at], the claim has left its row with
    [enabled = false], the failing run does not change that, and no later
    claim on the store returns the job. *)
Theorem failed_job_is_claimed_again s now limit job opts w m :
  NoDup (ids (rows s)) ->
  IsoDate.jobs_in_range s -> IsoDate.four_digit_year now ->
  In job (fst (claimDueJobs now limit s)) ->
  snd (executeJob Date_parse cron_next job opts w) = Throw m ->
  (forall s', runJob Date_parse cron_next now job opts w s' = s')
  /\ (scheduleKind job <> "at" ->
      (exists r, In r (rows (snd (claimDueJobs now limit s)))
                 /\ id r = id job /\ nextRunAt r = nextRunAt job
                 /\ enabled r = true)
      /\ forall now' limit',
           IsoDate.four_digit_year now' -> now <= now' ->
           Z.of_nat (List.length (filter (is_due now')
                                    (rows (snd (claimDueJobs now limit s)))))
             <= limit_of limit' ->
           In (id job)
              (ids (fst (claimDueJobs now' limit'
                           (runJob Date_parse cron_next now job opts w
                                   (snd (claimDueJobs now limit s)))))))
  /\ (scheduleKind job = "at" ->
      (exists r, In r (rows (snd (claimDueJobs now limit s)))
                 /\ id r = id job /\ nextRunAt r = nextRunAt job
                 /\ enabled r = false)
      /\ (forall r, In r (rows (snd (claimDueJobs now limit s))) ->
                    id r = id job -> enabled r = false)
      /\ forall now' limit',
           ~ In (id job)
                (ids (fst (claimDueJobs now' limit'
                             (runJob Date_parse cron_next now job opts w
                                     (snd (claimDueJobs now limit s))))))).
Proof.
  intros Hnd _ _ Hjob Hthrow.
  assert (Hsame : forall s', runJob Date_parse cron_next now job opts w s' = s').
  { intros s'. unfold runJob. rewrite Hthrow. reflexivity. }
  split; [exact Hsame|]. rewrite Hsame.
  (* the row behind the claimed record *)
  assert (Hx : exists x, In x (rows s) /\ is_due now x = true
                         /\ id x = id job /\ nextRunAt x = nextRunAt job
                         /\ scheduleKind x = scheduleKind job).
  { unfold claimDueJobs in Hjob. fold (limit_of limit) in Hjob.
    destruct (selectDue now (limit_of limit) (rows s)) as [|r0 due] eqn:E;
      [contradiction|].
    cbn [fst] in Hjob. apply in_map_iff in Hjob.
    destruct Hjob as (x & Hx & Hin). rewrite <- E in Hin.
    apply selectDue_In in Hin. destruct Hin as (Hin & Hdue).
    exists x. subst job. unfold default_context.
    destruct (contextMode _); cbn; auto. }
  destruct Hx as (x & Hin & Hdue & Hid & Hnext & Hk).
  assert (Hbob : bobId x = BOB_ID).
  { unfold is_due in Hdue. apply andb_prop in Hdue. destruct Hdue as (Hd & _).
    apply andb_prop in Hd. destruct Hd as (Hb & _). now apply String.eqb_eq. }
  assert (Hen : enabled x = true).
  { unfold is_due in Hdue. apply andb_prop in Hdue. destruct Hdue as (Hd & _).
    apply andb_prop in Hd. tauto. }
  split.
  - intros Hkind.
    (* the row is not among the rows the claim disabled *)
    assert (Hkeep : In x (rows (snd (claimDueJobs now limit s)))).
    { rewrite claim_rows. unfold disable_ids. apply in_map_iff. exists x.
      split; auto.
      destruct (Lst.mem_Z (id x) (at_ids (selectDue now (limit_of limit) (rows s))))
        eqn:Em; [|now rewrite andb_false_r].
      exfalso. apply mem_Z_In in Em. unfold at_ids, ids in Em.
      apply in_map_iff in Em. destruct Em as (y & Hy & Hyin).
      apply filter_In in Hyin. destruct Hyin as (Hyin & Hyat).
      apply selectDue_In in Hyin. destruct Hyin as (Hyin & _).
      assert (y = x) by (eapply NoDup_map_inj; eauto). subst y.
      apply String.eqb_eq in Hyat. congruence. }
    split.
    { exists x. auto. }
    intros now' limit' _ Hle Hlim.
    rewrite claim_due, <- Hid. unfold ids. apply in_map.
    apply selectDue_complete; auto.
    unfold is_due in *. apply andb_prop in Hdue. destruct Hdue as (Hd & Hn).
    rewrite Hd. cbn. apply Z.leb_le. apply Z.leb_le in Hn. lia.
  - intros Hat.
    (* what the claim made of the row *)
    assert (Himg : exists r, In r (rows (snd (claimDueJobs now limit s)))
                             /\ id r = id x /\ nextRunAt r = nextRunAt x
                             /\ bobId r = bobId x).
    { rewrite claim_rows. unfold disable_ids.
      exists (if (bobId x =? BOB_ID)%string
                 && Lst.mem_Z (id x)
                      (at_ids (selectDue now (limit_of limit) (rows s)))
              then set_enabled false x else x).
      split.
      - apply in_map_iff. exists x. auto.
      - destruct (_ && _); cbn; auto. }
    destruct Himg as (r & Hr & Hrid & Hrnext & Hrbob).
    assert (Hoff : forall r', In r' (rows (snd (claimDueJobs now limit s))) ->
                              id r' = id job -> enabled r' = false).
    { intros r' Hr' Hid'.
      assert (r' = r).
      { apply (NoDup_map_inj id (rows (snd (claimDueJobs now limit s))) r' r);
          [| exact Hr' | exact Hr | congruence].
        fold (ids (rows (snd (claimDueJobs now limit s)))).
        rewrite claim_rows, ids_disable. exact Hnd. }
      subst r'. eapply claim_disables_at; eauto. congruence. }
    split; [|split].
    + exists r. repeat split; try congruence. apply Hoff; [exact Hr | congruence].
    + exact Hoff.
    + intros now' limit' Hagain.
      rewrite claim_due in Hagain. unfold ids in Hagain.
      apply in_map_iff in Hagain. destruct Hagain as (r' & Hid' & Hr').
      apply selectDue_In in Hr'. destruct Hr' as (Hrow & Hdue').
      unfold is_due in Hdue'. apply andb_prop in Hdue'.
      destruct Hdue' as (Hd' & _). apply andb_prop in Hd'.
      destruct Hd' as (_ & Hen').
      rewrite (Hoff r' Hrow Hid') in Hen'. discriminate.
Qed.

End Retry.

Lemma failed_job_is_claimed_again_witness :
  fst (claimDueJobs Sample2.feb3_2300 (Some 10) Sample2.store_feb)
  = [Sample2.claimed_reminder; Sample2.job_hourly]
  /\ snd (executeJob Sample2.date_feb Sample.no_cron Sample2.job_hourly
            Sample.opts_plain Sample2.world_offline)
     = Throw "ETELEGRAM: 502 Bad Gateway"
  /\ (exists r, In r (rows Sample2.store_claimed)
                /\ id r = 2 /\ nextRunAt r = 1770157800000 /\ enabled r = true)
  /\ (forall now' limit',
        IsoDate.four_digit_year now' -> Sample2.feb3_2300 <= now' ->
        Z.of_nat (List.length (filter (is_due now') (rows Sample2.store_claimed)))
          <= limit_of limit' ->
        In 2 (ids (fst (claimDueJobs now' limit'
                          (runJob Sample2.date_feb Sample.no_cron
                                  Sample2.feb3_2300 Sample2.job_hourly
                                  Sample.opts_plain Sample2.world_offline
                                  Sample2.store_claimed))))).
Proof.
  split; [reflexivity|]. split; [reflexivity|].
  apply (proj1 (proj2 (failed_job_is_claimed_again Sample2.date_feb Sample.no_cron
                  Sample2.store_feb Sample2.feb3_2300 (Some 10) Sample2.job_hourly
                  Sample.opts_plain Sample2.world_offline
                  "ETELEGRAM: 502 Bad Gateway"
                  ltac:(repeat constructor; simpl; intuition discriminate)
                  ltac:(intros r [<-|[<-|[]]]; unfold IsoDate.four_digit_year,
                          IsoDate.FIRST, IsoDate.LAST; cbn; lia)
                  ltac:(unfold IsoDate.four_digit_year, IsoDate.FIRST,
                          IsoDate.LAST, Sample2.feb3_2300; lia)
                  ltac:(right; left; reflexivity)
                  eq_refl))).
  discriminate.
Defined.

(** C4 as stated fails for kind [at]: the transport is down when the
    claimed one-shot job 1 runs, the run throws, the store is left as the
    claim left it, and a claim an hour later returns job 2 only: job 1 is
    not tried again. *)
Lemma failed_at_job_is_not_retried :
  ids (fst (claimDueJobs Sample2.feb3_2300 (Some 10) Sample2.store_feb)) = [1; 2]
  /\ snd (executeJob Sample2.date_feb Sample.no_cron Sample2.claimed_reminder
            Sample.opts_plain Sample2.world_offline)
     = Throw "ETELEGRAM: 502 Bad Gateway"
  /\ runJob Sample2.date_feb Sample.no_cron Sample2.feb3_2300
            Sample2.claimed_reminder Sample.opts_plain Sample2.world_offline
            Sample2.store_claimed
     = Sample2.store_claimed
  /\ ids (fst (claimDueJobs (Sample2.feb3_2300 + 3600000) (Some 10)
                 Sample2.store_claimed)) = [2].
Proof. repeat split; reflexivity. Qed.

(** *** One-shot jobs run once *)

Lemma max_id_ge l r : In r l -> id r <= max_id l.
Proof.
  unfold max_id, ids. induction l as [|a l IH]; simpl; [tauto|].
  intros [->|H]; [lia|]. specialize (IH H). lia.
Qed.

Lemma ids_updateAfterRun i last next en s :
  ids (rows (updateAfterRun i last next en s)) = ids (rows s).
Proof.
  unfold updateAfterRun, ids. cbn [rows]. rewrite map_map. apply map_ext.
  intros r. destruct (id r =? i); reflexivity.
Qed.

Lemma ids_In (l : list Job) (r : Job) : In r l -> In (id r) (ids l).
Proof. apply in_map. Qed.

Lemma ids_bound (l l' : list Job) (n : Z) :
  ids l' = ids l ->
  (forall r, In r l -> id r <= n) ->
  forall r, In r l' -> id r <= n.
Proof.
  intros Hids Hb r Hr. apply ids_In in Hr. rewrite Hids in Hr.
  unfold ids in Hr. apply in_map_iff in Hr. destruct Hr as (x & <- & Hx). auto.
Qed.

Section RunOnce.

Variable Date_parse : string -> option Z.
Variable cron_next : string -> Z -> option Z.
Variable opts : Options.

Lemma runJob_ids now job w s :
  ids (rows (runJob Date_parse cron_next now job opts w s)) = ids (rows s).
Proof.
  unfold Scheduler.runJob. destruct (snd _); auto using ids_updateAfterRun.
Qed.

Lemma runJob_seq now job w s :
  seq (runJob Date_parse cron_next now job opts w s) = seq s.
Proof. unfold Scheduler.runJob. destruct (snd _); reflexivity. Qed.

Lemma addJob_shape input now s row s' :
  addJob Date_parse cron_next input now s = Ok (row, s') ->
  id row = Z.max (seq s) (max_id (rows s)) + 1
  /\ rows s' = rows s ++ [row]
  /\ seq s' = id row.
Proof.
  unfold addJob.
  destruct (Schedule.computeNextRunAt _ _ _ _ _) as [[next|]|]; cbn;
    intros E; inversion E; subst; cbn; auto.
Qed.

Lemma step_Inv st a :
  Inv st -> Inv (fst (step Date_parse cron_next opts st a)).
Proof.
  intros ((Hnd & Hb) & Hpnd & Hpb).
  destruct a as [input now | i | now | w]; cbn [Scheduler.step].
  - destruct (addJob _ _ input now (store st)) as [[row s']|] eqn:E;
      cbn [fst]; [|repeat split; auto].
    apply addJob_shape in E. destruct E as (Hid & Hrows & Hseq).
    pose proof (Z.le_max_l (seq (store st)) (max_id (rows (store st)))).
    unfold Inv, wf. cbn [store pending]. repeat split.
    + rewrite Hrows. unfold ids. rewrite map_app. cbn [map].
      apply NoDup_app; [exact Hnd | repeat constructor; intros [] |].
      intros a Hin [<-|[]].
      apply in_map_iff in Hin. destruct Hin as (x & Hx & Hin).
      apply Hb in Hin. lia.
    + intros r Hr. rewrite Hrows in Hr. apply in_app_or in Hr.
      destruct Hr as [Hr|[<-|[]]]; [apply Hb in Hr|]; lia.
    + exact Hpnd.
    + intros p Hp. apply Hpb in Hp. lia.
  - unfold Inv, wf. cbn [fst store pending removeJob snd rows seq].
    repeat split; auto.
    + apply filter_NoDup_map. exact Hnd.
    + intros r Hr. apply filter_In in Hr. apply Hb. tauto.
  - destruct (pending st) eqn:Ep;
      [|cbn [fst]; unfold Inv, wf; rewrite Ep; repeat split; auto].
    destruct (claimDueJobs now (Some 10) (store st)) as [due s'] eqn:E.
    cbn [fst store pending].
    assert (Hdue : ids due = ids (selectDue now 10 (rows (store st)))).
    { change due with (fst (due, s')). rewrite <- E. apply claim_due. }
    assert (Hrows : ids (rows s') = ids (rows (store st))).
    { change s' with (snd (due, s')). rewrite <- E.
      rewrite claim_rows. apply ids_disable. }
    assert (Hseq : seq s' = seq (store st)).
    { change s' with (snd (due, s')). rewrite <- E. apply claim_seq. }
    unfold Inv, wf. cbn [store pending]. repeat split.
    + now rewrite Hrows.
    + rewrite Hseq. eapply ids_bound; eauto.
    + rewrite Hdue. now apply selectDue_NoDup.
    + rewrite Hseq. intros p Hp. apply ids_In in Hp. rewrite Hdue in Hp.
      unfold ids in Hp. apply in_map_iff in Hp. destruct Hp as (x & <- & Hx).
      apply selectDue_In in Hx. apply Hb. tauto.
  - destruct (pending st) as [|job rest] eqn:Ep;
      [cbn [fst]; unfold Inv, wf; rewrite Ep; repeat split; auto|].
    cbn [fst store pending]. cbn [ids map] in Hpnd.
    inversion Hpnd; subst.
    unfold Inv, wf. cbn [store pending]. repeat split.
    + now rewrite runJob_ids.
    + rewrite runJob_seq. eapply ids_bound; [apply runJob_ids|exact Hb].
    + assumption.
    + rewrite runJob_seq. intros p Hp. apply Hpb. now right.
Qed.

Lemma run_Inv st acts :
  Inv st -> Inv (fst (run Date_parse cron_next opts st acts)).
Proof.
  revert st. induction acts as [|a acts IH]; intros st H; cbn [run]; auto.
  pose proof (step_Inv st a H) as H'.
  destruct (step Date_parse cron_next opts st a) as [st' out].
  specialize (IH st' H').
  destruct (run Date_parse cron_next opts st' acts) as [st'' outs].
  exact IH.
Qed.

Lemma selectDue_enabled now lim l r :
  In r (selectDue now lim l) -> enabled r = true.
Proof.
  intros H. apply selectDue_In in H. destruct H as (_ & H).
  unfold is_due in H. apply andb_prop in H. destruct H as (H & _).
  apply andb_prop in H. tauto.
Qed.

Lemma step_Retired j st a :
  Retired j st ->
  Retired j (fst (step Date_parse cron_next opts st a))
  /\ forall due, snd (step Date_parse cron_next opts st a) = Some due ->
                 ~ In j (ids due).
Proof.
  intros (Hoff & Hseq & Hpend).
  destruct a as [input now | i | now | w]; cbn [Scheduler.step].
  - destruct (addJob _ _ input now (store st)) as [[row s']|] eqn:E;
      cbn [fst snd]; [|split; [repeat split; auto|discriminate]].
    apply addJob_shape in E. destruct E as (Hid & Hrows & Hs).
    pose proof (Z.le_max_l (seq (store st)) (max_id (rows (store st)))).
    split; [|discriminate].
    unfold Retired. cbn [store pending]. repeat split; auto; [|lia].
    intros r Hr Hj. rewrite Hrows in Hr. apply in_app_or in Hr.
    destruct Hr as [Hr|[<-|[]]]; [now apply Hoff|lia].
  - cbn [fst snd]. split; [|discriminate].
    unfold Retired. cbn [store pending removeJob snd rows seq].
    repeat split; auto.
    intros r Hr. apply filter_In in Hr. apply Hoff. tauto.
  - destruct (pending st) eqn:Ep;
      [|cbn [fst snd]; split;
        [unfold Retired; rewrite Ep; repeat split; auto|discriminate]].
    destruct (claimDueJobs now (Some 10) (store st)) as [due s'] eqn:E.
    cbn [fst snd].
    assert (Hdue : ids due = ids (selectDue now 10 (rows (store st)))).
    { change due with (fst (due, s')). rewrite <- E. apply claim_due. }
    assert (Hnot : ~ In j (ids due)).
    { rewrite Hdue. unfold ids. intros Hin. apply in_map_iff in Hin.
      destruct Hin as (x & Hx & Hin).
      pose proof (selectDue_enabled _ _ _ _ Hin) as Hen.
      apply selectDue_In in Hin. destruct Hin as (Hin & _).
      rewrite (Hoff x Hin Hx) in Hen. discriminate. }
    split; [|intros d Hd; inversion Hd; subst; exact Hnot].
    unfold Retired. cbn [store pending]. repeat split; auto.
    + intros r Hr Hj.
      change s' with (snd (due, s')) in Hr. rewrite <- E, claim_rows in Hr.
      unfold disable_ids in Hr. apply in_map_iff in Hr.
      destruct Hr as (x & Hx & Hin).
      destruct (_ && _); subst r; [reflexivity|]. now apply Hoff.
    + change s' with (snd (due, s')). rewrite <- E, claim_seq. exact Hseq.
  - destruct (pending st) as [|job rest] eqn:Ep;
      [cbn [fst snd]; split;
       [unfold Retired; rewrite Ep; repeat split; auto|discriminate]|].
    cbn [fst snd]. split; [|discriminate].
    cbn [ids map] in Hpend.
    unfold Retired. cbn [store pending]. repeat split.
    + intros r Hr Hj. unfold Scheduler.runJob in Hr.
      destruct (snd _) as [nextRun|m]; [|now apply Hoff].
      apply updateAfterRun_rows in Hr. destruct Hr as (x & Hx & ->).
      destruct (id x =? id job) eqn:Ei.
      * apply Z.eqb_eq in Ei. cbn in Hj. exfalso. apply Hpend. left. congruence.
      * now apply Hoff.
    + now rewrite runJob_seq.
    + intros Hin. apply Hpend. now right.
Qed.

Lemma run_Retired j st acts :
  Retired j st ->
  forall claimed, In claimed (snd (run Date_parse cron_next opts st acts)) ->
                  ~ In j (ids claimed).
Proof.
  revert st. induction acts as [|a acts IH]; intros st H claimed;
    cbn [run]; [intros []|].
  destruct (step_Retired j st a H) as (H' & Hout).
  destruct (step Date_parse cron_next opts st a) as [st' out].
  cbn [fst snd] in H', Hout.
  specialize (IH st' H' claimed).
  destruct (run Date_parse cron_next opts st' acts) as [st'' outs].
  cbn [snd] in *.
  destruct out as [due|]; auto.
  intros [<-|Hin]; auto.
Qed.

(** C2. Take any run of the scheduler from a well-formed store and a job of
    kind [at] that a claim has handed to the loop.  Once that job has been
    executed without being deferred and without an error, every row with
    its id has [enabled = false], and whatever happens next (jobs added or
    removed by other processes, further claims at any [now], further runs)
    no claim returns that job again. *)
Theorem at_job_runs_once s0 acts1 job post w :
  wf s0 ->
  pending (fst (run Date_parse cron_next opts (mkSched s0 [] 0) acts1))
    = job :: post ->
  scheduleKind job = "at" ->
  dndDeferral job opts w = None ->
  is_ok (snd (executeJob Date_parse cron_next job opts w)) = true ->
  (forall r,
      In r (rows (store (fst (step Date_parse cron_next opts
                                (fst (run Date_parse cron_next opts
                                        (mkSched s0 [] 0) acts1))
                                (TickRun w))))) ->
      id r = id job -> enabled r = false)
  /\ (forall acts2 claimed,
         In claimed
            (snd (run Date_parse cron_next opts
                    (fst (step Date_parse cron_next opts
                            (fst (run Date_parse cron_next opts
                                    (mkSched s0 [] 0) acts1))
                            (TickRun w)))
                    acts2)) ->
         ~ In (id job) (ids claimed)).
Proof.
  intros Hwf Hpending Hat Hnodefer Hok.
  assert (HInv : Inv (fst (run Date_parse cron_next opts (mkSched s0 [] 0) acts1))).
  { apply run_Inv. unfold Inv. cbn [store pending].
    repeat split; try apply Hwf; [constructor | intros p []]. }
  set (st := fst (run Date_parse cron_next opts (mkSched s0 [] 0) acts1)) in *.
  destruct HInv as ((Hnd & Hb) & Hpnd & Hpb).
  assert (Hexec : snd (executeJob Date_parse cron_next job opts w) = Ok None).
  { unfold executeJob in *. rewrite Hnodefer in *.
    destruct (dispatchJob job opts w) as [effects [u|m]]; cbn [snd] in *;
      [|discriminate].
    rewrite Hat. reflexivity. }
  assert (Hoff : forall r,
             In r (rows (store (fst (step Date_parse cron_next opts st (TickRun w))))) ->
             id r = id job -> enabled r = false).
  { intros r Hr Hid. cbn [Scheduler.step] in Hr. rewrite Hpending in Hr.
    cbn [fst store] in Hr. unfold runJob in Hr. rewrite Hexec in Hr.
    apply updateAfterRun_rows in Hr. destruct Hr as (x & Hx & ->).
    destruct (id x =? id job) eqn:Ei; [reflexivity|].
    apply Z.eqb_neq in Ei. contradiction. }
  split; [exact Hoff|].
  intros acts2 claimed. apply run_Retired.
  unfold Retired. split; [exact Hoff|].
  cbn [Scheduler.step]. rewrite Hpending. cbn [fst store pending].
  rewrite Hpending in Hpnd, Hpb. cbn [ids map] in Hpnd.
  inversion Hpnd; subst. split.
  - rewrite runJob_seq. apply Hpb. now left.
  - assumption.
Qed.

End RunOnce.

Lemma at_job_runs_once_witness :
  (forall r,
      In r (rows (store (fst (step Sample.no_date Sample.no_cron Sample.opts_plain
                                (fst (run Sample.no_date Sample.no_cron
                                        Sample.opts_plain
                                        (mkSched Sample.store2 [] 0)
                                        [TickClaim 2000]))
                                (TickRun Sample.world_night))))) ->
      id r = 1 -> enabled r = false)
  /\ (forall acts2 claimed,
         In claimed
            (snd (run Sample.no_date Sample.no_cron Sample.opts_plain
                    (fst (step Sample.no_date Sample.no_cron Sample.opts_plain
                            (fst (run Sample.no_date Sample.no_cron
                                    Sample.opts_plain
                                    (mkSched Sample.store2 [] 0)
                                    [TickClaim 2000]))
                            (TickRun Sample.world_night)))
                    acts2)) ->
         ~ In 1 (ids claimed)).
Proof.
  apply (at_job_runs_once Sample.no_date Sample.no_cron Sample.opts_plain
           Sample.store2 [TickClaim 2000] (set_enabled false Sample.job_at)
           [Sample.job_every] Sample.world_night).
  - split.
    + repeat constructor; simpl; intuition discriminate.
    + simpl. intros r [<-|[<-|[]]]; simpl; lia.
  - reflexivity.
  - reflexivity.
  - reflexivity.
  - reflexivity.
Defined.

End SchedulerClaims.

(** ** Claims on the event store *)

Module EventClaims.

Import Json Events.

Lemma map_unchanged {A} (f : A -> A) (l : list A) :
  (forall x, In x l -> f x = x) -> map f l = l.
Proof.
  induction l as [|a l IH]; simpl; intros H; [reflexivity|].
  rewrite H by now left. rewrite IH; auto.
Qed.

Lemma filter_none {A} (p : A -> bool) (l : list A) :
  (forall x, In x l -> p x = false) -> filter p l = [].
Proof.
  induction l as [|a l IH]; simpl; intros H; [reflexivity|].
  rewrite H by now left. apply IH. auto.
Qed.

Lemma claimed_by_spec tok r :
  claimed_by tok r = true <-> bobId r = BOB_ID /\ claimToken r = Some tok.
Proof.
  unfold claimed_by, token_is. rewrite andb_true_iff, String.eqb_eq.
  destruct (claimToken r) as [t|].
  - rewrite String.eqb_eq. intuition congruence.
  - intuition congruence.
Qed.

(** C10. [ackEvents] and [releaseClaim] touch only the rows that carry the
    given token: every other row keeps its place and its content; when no
    row carries the token both return 0 and leave the store as it is; and
    once a claim is released its token matches no row any more. *)
Theorem unknown_token_is_noop tok ts s :
  (forall n r, nth_error (rows s) n = Some r -> claimed_by tok r = false ->
               nth_error (rows (snd (ackEvents tok ts s))) n = Some r
               /\ nth_error (rows (snd (releaseClaim tok s))) n = Some r)
  /\ ((forall r, In r (rows s) -> bobId r = BOB_ID -> claimToken r <> Some tok) ->
      ackEvents tok ts s = (0, s) /\ releaseClaim tok s = (0, s))
  /\ (forall r, In r (rows (snd (releaseClaim tok s))) ->
                bobId r = BOB_ID -> claimToken r <> Some tok).
Proof.
  split; [|split].
  - intros n r Hn Hno. unfold ackEvents, releaseClaim. cbn [snd rows].
    split; rewrite nth_error_map, Hn; cbn; now rewrite Hno.
  - intros Hnone.
    assert (Hno : forall r, In r (rows s) -> claimed_by tok r = false).
    { intros r Hr. destruct (claimed_by tok r) eqn:E; auto.
      apply claimed_by_spec in E. destruct E as (Hb & Ht).
      exfalso. exact (Hnone r Hr Hb Ht). }
    unfold ackEvents, releaseClaim.
    rewrite (filter_none _ _ Hno).
    rewrite !map_unchanged by (intros x Hx; now rewrite (Hno x Hx)).
    destruct s; auto.
  - intros r Hr Hb Ht. unfold releaseClaim in Hr. cbn [snd rows] in Hr.
    apply in_map_iff in Hr. destruct Hr as (x & Hx & Hin).
    destruct (claimed_by tok x) eqn:E; subst r.
    + discriminate.
    + assert (claimed_by tok x = true) by (apply claimed_by_spec; auto).
      congruence.
Qed.

Lemma unknown_token_is_noop_witness :
  ackEvents "t0" 7000000 Sample.events3 = (0, Sample.events3)
  /\ releaseClaim "t0" Sample.events3 = (0, Sample.events3).
Proof.
  apply (proj1 (proj2 (unknown_token_is_noop "t0" 7000000 Sample.events3))).
  intros r [<-|[<-|[<-|[]]]] _; discriminate.
Defined.

(** [JSON.stringify({text: t})] is the object literal with the quoted
    text. *)
Lemma stringify_text_value t :
  stringify_text t = Ok (Some ("{" ++ quote "text" ++ ":" ++ quote t ++ "}")%string).
Proof. reflexivity. Qed.

(** [JSON.stringify] answers [undefined] for [undefined] only. *)
Lemma stringify_defined v : v <> JUndefined -> stringify v <> Ok None.
Proof.
  destruct v as [| |[|]| | | |items|fields]; cbn [stringify]; try congruence.
  - intros _. destruct ((fix each (l : list JsValue) : result (list string) := _) items);
      cbn; congruence.
  - intros _.
    destruct ((fix each (l : list (string * JsValue)) : result (list string) := _) fields);
      cbn; congruence.
Qed.

Section Payload.

Variable JSON_parse : string -> option JsValue.

(** C5 (as the code has it). The payload column that [addEvent] writes is
    [serializePayload] of the given payload, which is: the literal [{}] for
    [undefined], [null] and an empty or whitespace-only string; for any
    other string, the re-serialization of what the trimmed string parses
    to, or [{"text": trimmed}] when it is not JSON; for any other value,
    its JSON serialization, or [{"text": String(payload)}] when
    [JSON.stringify] throws. *)
Theorem stored_payload_is_serializePayload :
  ((forall t parsed, JSON_parse t = Some parsed -> parsed <> JUndefined) ->
   forall input clock s, exists row s',
       addEvent JSON_parse input clock s = Ok (row, s'))
  /\ (forall input clock s row s',
      addEvent JSON_parse input clock s = Ok (row, s') ->
      serializePayload JSON_parse (in_payload input) = Some (payload row)
      /\ In row (rows s'))
  /\ serializePayload JSON_parse JUndefined = Some "{}"
  /\ serializePayload JSON_parse JNull = Some "{}"
  /\ (forall s, Str.trim s = EmptyString ->
                serializePayload JSON_parse (JString s) = Some "{}")
  /\ (forall s, Str.trim s <> EmptyString ->
                JSON_parse (Str.trim s) = None ->
                serializePayload JSON_parse (JString s)
                = Some ("{" ++ quote "text" ++ ":" ++ quote (Str.trim s) ++ "}")%string)
  /\ (forall s parsed, Str.trim s <> EmptyString ->
                JSON_parse (Str.trim s) = Some parsed ->
                forall out, stringify parsed = Ok out ->
                serializePayload JSON_parse (JString s) = out)
  /\ (forall v, v <> JUndefined -> v <> JNull -> (forall s, v <> JString s) ->
                (forall out, stringify v = Ok out ->
                             serializePayload JSON_parse v = out)
                /\ (forall m, stringify v = Throw m ->
                              serializePayload JSON_parse v
                              = Some ("{" ++ quote "text" ++ ":"
                                          ++ quote (toString v) ++ "}")%string)).
Proof.
  split.
  { intros Hparse input clock s. unfold addEvent.
    assert (Hsome : exists raw, serializePayload JSON_parse (in_payload input) = Some raw).
    { destruct (in_payload input) as [| |b| | |t|items|fields] eqn:Ev;
        cbn [serializePayload].
      1: solve [eauto].
      5: { destruct (Str.trim t =? EmptyString)%string; [eauto|].
           destruct (JSON_parse (Str.trim t)) as [parsed|] eqn:Ep; [|cbn; eauto].
           pose proof (stringify_defined parsed (Hparse _ _ Ep)) as Hd.
           destruct (stringify parsed) as [[out|]|m]; [eauto|congruence|cbn; eauto]. }
      all: match goal with
           | |- context [stringify ?v] =>
               pose proof (stringify_defined v ltac:(discriminate)) as Hd;
               destruct (stringify v) as [[out|]|m];
               [eauto | congruence | cbn; eauto]
           end. }
    destruct Hsome as (raw & ->). eauto. }
  repeat split.
  - unfold addEvent in H.
    destruct (serializePayload JSON_parse (in_payload input)) as [raw|];
      inversion H; subst; reflexivity.
  - unfold addEvent in H.
    destruct (serializePayload JSON_parse (in_payload input)) as [raw|];
      inversion H; subst. cbn [rows]. apply in_or_app. right. now left.
  - intros s Hs. cbn. now rewrite Hs.
  - intros s Hs Hp. cbn [serializePayload].
    apply String.eqb_neq in Hs. rewrite Hs, Hp. reflexivity.
  - intros s parsed Hs Hp out Hout. cbn [serializePayload].
    apply String.eqb_neq in Hs. rewrite Hs, Hp, Hout. reflexivity.
  - intros out Hout.
    destruct v; try congruence; try (exfalso; eapply H1; reflexivity);
      cbn [serializePayload]; rewrite Hout; reflexivity.
  - intros m Hm.
    destruct v; try congruence; try (exfalso; eapply H1; reflexivity);
      cbn [serializePayload]; rewrite Hm; reflexivity.
Qed.

End Payload.

(** C5 as stated fails twice over.  A value that [JSON.stringify] rejects (a
    BigInt, here) is stored as [{"text":"10"}], not as [{}]; and the plain
    string [hello] is stored as [{"text":"hello"}], which is not its JSON
    serialization ["hello"]. *)
Lemma unserializable_payload_is_wrapped :
  stringify (JBigInt 10) = Throw "Do not know how to serialize a BigInt"
  /\ serializePayload Sample.no_json (JBigInt 10)
     = Some ("{" ++ dq ++ "text" ++ dq ++ ":" ++ dq ++ "10" ++ dq ++ "}")%string
  /\ serializePayload Sample.no_json (JBigInt 10) <> Some "{}"
  /\ stringify (JString "hello") = Ok (Some (dq ++ "hello" ++ dq)%string)
  /\ serializePayload Sample.no_json (JString "hello")
     = Some ("{" ++ dq ++ "text" ++ dq ++ ":" ++ dq ++ "hello" ++ dq ++ "}")%string.
Proof. repeat split; try reflexivity. discriminate. Qed.

Lemma stored_payload_is_serializePayload_witness :
  (exists row s',
      addEvent Sample.no_json (mkInput 42 None "note" (JString "hello") None)
               9000 Sample.events3 = Ok (row, s'))
  /\ serializePayload Sample.no_json (JString "   ") = Some "{}"
  /\ serializePayload Sample.no_json (JArray [JNumber 1; JNull])
     = Some "[1,null]".
Proof.
  pose proof (stored_payload_is_serializePayload Sample.no_json)
    as (Htotal & _ & _ & _ & Hblank & _ & _ & Hother).
  split; [|split].
  - apply Htotal. discriminate.
  - apply Hblank. reflexivity.
  - apply (proj1 (Hother (JArray [JNumber 1; JNull])
                    ltac:(discriminate) ltac:(discriminate)
                    ltac:(discriminate))).
    reflexivity.
Defined.

End EventClaims.

(** ** Claims on the heartbeat dispatcher *)

Module DispatcherClaims.

Import Events Dispatcher.

(** What [claimEvents] hands out under a fresh token: rows of the store as
    the claim left it, carrying the token, none of them processed. *)
Lemma claimEvents_claimed now limit stale tok s e :
  NoDup (map id (rows s)) ->
  (forall r, In r (rows s) -> claimToken r <> Some tok) ->
  In e (fst (claimEvents now limit stale tok s)) ->
  In e (rows (snd (claimEvents now limit stale tok s)))
  /\ claimed_by tok e = true
  /\ processedAt e = None.
Proof.
  intros Hnd Hfresh He. unfold claimEvents in *. cbn [fst snd rows] in *.
  unfold by_createdAt in He. apply sort_by_In in He.
  apply filter_In in He. destruct He as (He & Hc).
  repeat split; auto.
  apply in_map_iff in He. destruct He as (x & Hx & Hin).
  destruct (Lst.mem_Z (id x) _) eqn:Em.
  - apply mem_Z_In in Em. apply in_map_iff in Em.
    destruct Em as (y & Hy & Hyin).
    apply sql_limit_In in Hyin. apply sort_by_In in Hyin.
    apply filter_In in Hyin. destruct Hyin as (Hyin & Hpend).
    assert (y = x) by (eapply SchedulerClaims.NoDup_map_inj; eauto). subst y.
    subst e. cbn. unfold is_pending in Hpend.
    destruct (processedAt x); [|reflexivity].
    cbn in Hpend. now rewrite andb_false_r in Hpend.
  - subst e. apply EventClaims.claimed_by_spec in Hc.
    destruct Hc as (_ & Hc). exfalso. exact (Hfresh x Hin Hc).
Qed.

Lemma claimEvents_ids now limit stale tok s :
  map id (rows (snd (claimEvents now limit stale tok s))) = map id (rows s).
Proof.
  unfold claimEvents. cbn [snd rows]. rewrite map_map. apply map_ext.
  intros r. now destruct (Lst.mem_Z _ _).
Qed.

Lemma ackEvents_ids tok ts s :
  map id (rows (snd (ackEvents tok ts s))) = map id (rows s).
Proof.
  unfold ackEvents. cbn [snd rows]. rewrite map_map. apply map_ext.
  intros r. now destruct (claimed_by tok r).
Qed.

Lemma releaseClaim_ids tok s :
  map id (rows (snd (releaseClaim tok s))) = map id (rows s).
Proof.
  unfold releaseClaim. cbn [snd rows]. rewrite map_map. apply map_ext.
  intros r. now destruct (claimed_by tok r).
Qed.

Section Process.

Variable dispatch : Group -> result Reply.

Lemma dispatchGroups_all_ok gs n :
  (forall g, In g gs -> is_ok (dispatch g) = true) ->
  exists n', dispatchGroups dispatch gs n = Ok n'.
Proof.
  revert n. induction gs as [|g gs IH]; intros n H; cbn [dispatchGroups].
  - eauto.
  - pose proof (H g (or_introl eq_refl)) as Hg.
    destruct (dispatch g) as [reply|m]; [|discriminate]. cbn [bind].
    apply IH. intros g' Hg'. apply H. now right.
Qed.

Lemma dispatchGroups_one_throws gs n :
  (exists g, In g gs /\ is_ok (dispatch g) = false) ->
  exists m, dispatchGroups dispatch gs n = Throw m.
Proof.
  revert n. induction gs as [|g gs IH]; intros n (g0 & Hin & Hbad);
    cbn [dispatchGroups]; [contradiction|].
  destruct (dispatch g) as [reply|m] eqn:E; cbn [bind]; [|eauto].
  apply IH. destruct Hin as [->|Hin]; [|eauto].
  rewrite E in Hbad. discriminate.
Qed.

(** C6. A heartbeat pass that claims a non-empty set of events under a
    fresh token makes exactly two calls on the event store.  If no group's
    dispatch throws they are the claim and [ackEvents(token)], and every
    claimed event is then marked processed: the table has a row with its
    id, and a row with its id has [processedAt] set to the time of the
    ack.  If some group's dispatch throws they are the claim and
    [releaseClaim(token)]; [ackEvents] is not called, the error is
    rethrown, and every claimed event is back to pending: the table has a
    row with its id, and a row with its id is unclaimed, without a token,
    and not processed. *)
Theorem processEvents_acks_or_releases now token ackTime s :
  NoDup (map id (rows s)) ->
  (forall r, In r (rows s) -> claimToken r <> Some token) ->
  fst (claimEvents now 20 DEFAULT_STALE_MS token s) <> [] ->
  ((forall g, In g (groupEvents (fst (claimEvents now 20 DEFAULT_STALE_MS token s))) ->
              is_ok (dispatch g) = true) ->
   snd (fst (processEvents dispatch true now token ackTime s))
     = [CallClaim token; CallAck token]
   /\ is_ok (snd (processEvents dispatch true now token ackTime s)) = true
   /\ forall e, In e (fst (claimEvents now 20 DEFAULT_STALE_MS token s)) ->
                In (set_processed (Some ackTime) e)
                   (rows (fst (fst (processEvents dispatch true now token ackTime s))))
                /\ (exists r,
                      In r (rows (fst (fst (processEvents dispatch true now token
                                                         ackTime s))))
                      /\ id r = id e /\ processedAt r = Some ackTime)
                /\ (forall r,
                      In r (rows (fst (fst (processEvents dispatch true now token
                                                         ackTime s)))) ->
                      id r = id e -> processedAt r = Some ackTime))
  /\
  ((exists g, In g (groupEvents (fst (claimEvents now 20 DEFAULT_STALE_MS token s)))
              /\ is_ok (dispatch g) = false) ->
   snd (fst (processEvents dispatch true now token ackTime s))
     = [CallClaim token; CallRelease token]
   /\ is_ok (snd (processEvents dispatch true now token ackTime s)) = false
   /\ forall e, In e (fst (claimEvents now 20 DEFAULT_STALE_MS token s)) ->
                processedAt e = None
                /\ In (set_claim None None e)
                      (rows (fst (fst (processEvents dispatch true now token ackTime s))))
                /\ (forall staleBefore,
                      is_pending staleBefore (set_claim None None e) = true)
                /\ (forall r,
                      In r (rows (fst (fst (processEvents dispatch true now token
                                                         ackTime s)))) ->
                      id r = id e ->
                      processedAt r = None /\ claimedAt r = None
                      /\ claimToken r = None
                      /\ forall staleBefore, is_pending staleBefore r = true)).
Proof.
  intros Hnd Hfresh Hnonempty.
  pose proof (fun e => claimEvents_claimed now 20 DEFAULT_STALE_MS token s e
                         Hnd Hfresh) as Hclaimed.
  pose proof (claimEvents_ids now 20 DEFAULT_STALE_MS token s) as Hids.
  unfold processEvents. cbn [negb].
  destruct (claimEvents now 20 DEFAULT_STALE_MS token s) as [events s1] eqn:E.
  cbn [fst snd] in *.
  destruct events as [|e0 events]; [congruence|].
  split.
  - intros Hall.
    destruct (dispatchGroups_all_ok _ 0 Hall) as (n & ->).
    cbn [fst snd is_ok]. split; [reflexivity|]. split; [reflexivity|].
    intros e He. destruct (Hclaimed e He) as (Hrow & Hc & _).
    assert (Hstored : In (set_processed (Some ackTime) e)
                         (rows (snd (ackEvents token ackTime s1)))).
    { unfold ackEvents. cbn [snd rows].
      apply in_map_iff. exists e. rewrite Hc. auto. }
    split; [exact Hstored|]. split.
    + exists (set_processed (Some ackTime) e). repeat split. exact Hstored.
    + intros r Hr Hid.
      assert (r = set_processed (Some ackTime) e).
      { apply (SchedulerClaims.NoDup_map_inj id
                 (rows (snd (ackEvents token ackTime s1))) r
                 (set_processed (Some ackTime) e));
          [| exact Hr | exact Hstored | exact Hid].
        rewrite ackEvents_ids, Hids. exact Hnd. }
      subst r. reflexivity.
  - intros Hbad.
    destruct (dispatchGroups_one_throws _ 0 Hbad) as (m & ->).
    cbn [fst snd is_ok]. split; [reflexivity|]. split; [reflexivity|].
    intros e He. destruct (Hclaimed e He) as (Hrow & Hc & Hp).
    assert (Hstored : In (set_claim None None e)
                         (rows (snd (releaseClaim token s1)))).
    { unfold releaseClaim. cbn [snd rows].
      apply in_map_iff. exists e. rewrite Hc. auto. }
    assert (Hpend : forall staleBefore,
               is_pending staleBefore (set_claim None None e) = true).
    { intros staleBefore.
      apply EventClaims.claimed_by_spec in Hc. destruct Hc as (Hb & _).
      unfold is_pending. cbn. rewrite Hb, Hp. reflexivity. }
    split; [exact Hp|]. split; [exact Hstored|]. split; [exact Hpend|].
    intros r Hr Hid.
    assert (r = set_claim None None e).
    { apply (SchedulerClaims.NoDup_map_inj id
               (rows (snd (releaseClaim token s1))) r (set_claim None None e));
        [| exact Hr | exact Hstored | exact Hid].
      rewrite releaseClaim_ids, Hids. exact Hnd. }
    subst r. cbn [processedAt claimedAt claimToken set_claim].
    repeat split; auto.
Qed.

End Process.

Lemma processEvents_acks_or_releases_witness :
  map processedAt
      (rows (fst (fst (processEvents Sample.dispatch_ok true 6000000 "t2" 6000500
                         Sample.events3))))
  = [Some 6000500; Some 6000500; None]
  /\ map claimToken
       (rows (fst (fst (processEvents Sample.dispatch_43_fails true 6000000 "t2"
                          6000500 Sample.events3))))
     = [None; None; Some "t1"]
  /\ (snd (fst (processEvents Sample.dispatch_ok true 6000000 "t2" 6000500
                  Sample.events3))
        = [CallClaim "t2"; CallAck "t2"]
      /\ is_ok (snd (processEvents Sample.dispatch_ok true 6000000 "t2" 6000500
                       Sample.events3)) = true)
  /\ (snd (fst (processEvents Sample.dispatch_43_fails true 6000000 "t2" 6000500
                  Sample.events3))
        = [CallClaim "t2"; CallRelease "t2"]
      /\ is_ok (snd (processEvents Sample.dispatch_43_fails true 6000000 "t2"
                       6000500 Sample.events3)) = false).
Proof.
  assert (Hnd : NoDup (map id (rows Sample.events3)))
    by (repeat constructor; simpl; intuition discriminate).
  assert (Hfresh : forall r, In r (rows Sample.events3) -> claimToken r <> Some "t2")
    by (intros r [<-|[<-|[<-|[]]]]; discriminate).
  assert (Hne : fst (claimEvents 6000000 20 DEFAULT_STALE_MS "t2" Sample.events3) <> [])
    by discriminate.
  split; [reflexivity|]. split; [reflexivity|]. split.
  - destruct (proj1 (processEvents_acks_or_releases Sample.dispatch_ok
                       6000000 "t2" 6000500 Sample.events3 Hnd Hfresh Hne))
      as (Hcalls & Hok & _); [intros g _; reflexivity | auto].
  - destruct (proj2 (processEvents_acks_or_releases Sample.dispatch_43_fails
                       6000000 "t2" 6000500 Sample.events3 Hnd Hfresh Hne))
      as (Hcalls & Hok & _); [| auto].
    exists (mkGroup 43 None [set_claim (Some 6000000) (Some "t2")
                               (Sample.event 2 43 None None)]).
    split; [right; left; reflexivity | reflexivity].
Defined.

End DispatcherClaims.

(** ** Hybrid search *)

Section SortedFacts.

Context {A : Type}.
Variable le : A -> A -> bool.
Hypothesis le_total : forall a b, le a b = false -> le b a = true.
Hypothesis le_trans : forall a b c, le a b = true -> le b c = true -> le a c = true.

Lemma insert_by_sorted x l :
  StronglySorted (fun a b => le a b = true) l ->
  StronglySorted (fun a b => le a b = true) (Lst.insert_by le x l).
Proof.
  induction 1 as [|y l Hs IH Hall]; cbn [Lst.insert_by].
  - repeat constructor.
  - destruct (le x y) eqn:E.
    + constructor; [constructor; assumption|].
      constructor; [exact E|].
      rewrite Forall_forall in *. intros z Hz. eauto.
    + constructor; [exact IH|].
      rewrite Forall_forall in *. intros z Hz.
      apply (Permutation_in _ (insert_by_perm le x l)) in Hz.
      destruct Hz as [<-|Hz]; auto.
Qed.

Lemma sort_by_sorted l :
  StronglySorted (fun a b => le a b = true) (Lst.sort_by le l).
Proof.
  induction l as [|x l IH]; cbn [Lst.sort_by].
  - constructor.
  - now apply insert_by_sorted.
Qed.

End SortedFacts.

Module RecallFacts.

Import Recall Fusion.

Lemma bump_held t r h scores i :
  held i (bump t r h scores) = held i scores || (id h =? i).
Proof.
  unfold held. induction scores as [|e rest IH]; cbn [bump existsb].
  - unfold eid. cbn. now rewrite orb_false_r.
  - fold (eid e). destruct (Z.eqb_spec (eid e) (id h)) as [E|E]; cbn [existsb].
    + unfold eid at 1. cbn [e_hit]. fold (eid e).
      destruct (Z.eqb_spec (eid e) i), (Z.eqb_spec (id h) i);
        cbn; rewrite ?orb_false_r, ?orb_true_r; try reflexivity; try lia.
    + rewrite IH. now rewrite orb_assoc.
Qed.

Lemma bump_score t r h scores i :
  (score_in i (bump t r h scores)
   == score_in i scores + (if id h =? i then rrf r else 0))%Q.
Proof.
  induction scores as [|e rest IH]; cbn [bump score_in].
  - unfold eid. cbn. destruct (id h =? i); lra.
  - fold (eid e). destruct (Z.eqb_spec (eid e) (id h)) as [E|E]; cbn [score_in].
    + unfold eid at 1. cbn [e_hit e_score]. fold (eid e).
      destruct (Z.eqb_spec (eid e) i), (Z.eqb_spec (id h) i); try lia; try lra.
    + destruct (Z.eqb_spec (eid e) i); [|exact IH].
      destruct (Z.eqb_spec (id h) i); [lia|lra].
Qed.

Lemma bump_types t r h scores i :
  types_in i (bump t r h scores)
  = if id h =? i then set_add t (types_in i scores) else types_in i scores.
Proof.
  induction scores as [|e rest IH]; cbn [bump types_in].
  - unfold eid. cbn. destruct (id h =? i); reflexivity.
  - fold (eid e). destruct (Z.eqb_spec (eid e) (id h)) as [E|E]; cbn [types_in].
    + unfold eid at 1. cbn [e_hit e_types]. fold (eid e).
      destruct (Z.eqb_spec (eid e) i), (Z.eqb_spec (id h) i);
        try lia; reflexivity.
    + destruct (Z.eqb_spec (eid e) i); [|exact IH].
      destruct (Z.eqb_spec (id h) i); [lia|reflexivity].
Qed.

Lemma held_In i scores : held i scores = true <-> In i (map eid scores).
Proof.
  unfold held. rewrite existsb_exists, in_map_iff. split.
  - intros (e & He & Hi). apply Z.eqb_eq in Hi. eauto.
  - intros (e & Hi & He). exists e. split; auto. now apply Z.eqb_eq.
Qed.

Lemma bump_eids t r h scores :
  map eid (bump t r h scores)
  = if held (id h) scores then map eid scores else map eid scores ++ [id h].
Proof.
  unfold held. induction scores as [|e rest IH]; cbn [bump existsb map app].
  - reflexivity.
  - fold (eid e). destruct (Z.eqb_spec (eid e) (id h)) as [E|E]; cbn [map orb].
    + reflexivity.
    + rewrite IH. destruct (existsb _ rest); reflexivity.
Qed.

Lemma bump_NoDup t r h scores :
  NoDup (map eid scores) -> NoDup (map eid (bump t r h scores)).
Proof.
  intros H. rewrite bump_eids.
  destruct (held (id h) scores) eqn:E; [exact H|].
  apply NoDup_app; [exact H | repeat constructor; intros [] |].
  intros a Ha [<-|[]]. apply held_In in Ha. congruence.
Qed.

Lemma set_add_again t ts : set_add t (set_add t ts) = set_add t ts.
Proof.
  unfold set_add at 2. destruct (existsb (mt_eqb t) ts) eqn:E.
  - unfold set_add. now rewrite E.
  - unfold set_add. rewrite existsb_app, E. cbn [existsb orb].
    assert (Ht : mt_eqb t t = true) by (destruct t; reflexivity).
    rewrite Ht. reflexivity.
Qed.

Lemma accumulate_NoDup t r hits scores :
  NoDup (map eid scores) -> NoDup (map eid (accumulate t r hits scores)).
Proof.
  revert r scores. induction hits as [|h hits IH]; intros r scores H;
    cbn [accumulate]; auto using bump_NoDup.
Qed.

Lemma accumulate_held t r hits scores i :
  held i (accumulate t r hits scores) = held i scores || occurs i hits.
Proof.
  revert r scores. induction hits as [|h hits IH]; intros r scores;
    cbn [accumulate occurs existsb].
  - now rewrite orb_false_r.
  - rewrite IH, bump_held. unfold occurs. now rewrite orb_assoc.
Qed.

(** The score the code adds at rank [i] is the share of the
    specification: [1/(60 + i + 1)]. *)
Lemma rrf_is_share (i : nat) : (rrf i == share i)%Q.
Proof.
  unfold rrf, share, k.
  assert (E : (60 + inject_Z (Z.of_nat i) + 1 == inject_Z (60 + Z.of_nat i + 1))%Q).
  { rewrite !inject_Z_plus. reflexivity. }
  rewrite E.
  destruct (60 + Z.of_nat i + 1) as [|p|p] eqn:Ep; try lia.
  unfold Qdiv. rewrite Qmult_1_l. reflexivity.
Qed.

Lemma accumulate_score t r hits scores i :
  (score_in i (accumulate t r hits scores)
   == score_in i scores + contribution i r hits)%Q.
Proof.
  revert r scores. induction hits as [|h hits IH]; intros r scores;
    cbn [accumulate contribution].
  - lra.
  - rewrite IH, bump_score. pose proof (rrf_is_share r) as Hshare.
    destruct (id h =? i); lra.
Qed.

Lemma accumulate_types t r hits scores i :
  types_in i (accumulate t r hits scores)
  = if occurs i hits then set_add t (types_in i scores) else types_in i scores.
Proof.
  revert r scores. induction hits as [|h hits IH]; intros r scores;
    cbn [accumulate occurs existsb]; [reflexivity|].
  rewrite IH, bump_types. fold (occurs i hits).
  destruct (id h =? i), (occurs i hits); cbn [orb];
    auto using set_add_again.
Qed.

(** With distinct keys, looking a member's key up finds that member. *)
Lemma member_lookup scores e :
  NoDup (map eid scores) -> In e scores ->
  score_in (eid e) scores = e_score e /\ types_in (eid e) scores = e_types e.
Proof.
  induction scores as [|x rest IH]; cbn [map In score_in types_in]; [tauto|].
  intros Hnd [->|Hin].
  - now rewrite Z.eqb_refl.
  - inversion Hnd as [|? ? Hnot Hnd']; subst.
    destruct (Z.eqb_spec (eid x) (eid e)) as [E|E]; auto.
    exfalso. apply Hnot. rewrite E. now apply in_map.
Qed.

Lemma StronglySorted_map {A B} (f : A -> B) (R : B -> B -> Prop) l :
  StronglySorted (fun a b => R (f a) (f b)) l -> StronglySorted R (map f l).
Proof.
  induction 1 as [|x l Hs IH Hall]; cbn [map]; constructor; auto.
  rewrite Forall_forall in *. intros y Hy.
  apply in_map_iff in Hy. destruct Hy as (z & <- & Hz). auto.
Qed.

Lemma StronglySorted_weaken {A} (R S : A -> A -> Prop) l :
  (forall a b, R a b -> S a b) -> StronglySorted R l -> StronglySorted S l.
Proof.
  intros Himp. induction 1 as [|x l Hs IH Hall]; constructor; auto.
  rewrite Forall_forall in *. auto.
Qed.

Lemma js_slice0_nonneg {A} (n : Z) (l : list A) :
  0 <= n -> Lst.js_slice0 n l = firstn (Z.to_nat n) l.
Proof.
  intros H. unfold Lst.js_slice0. destruct (Z.ltb_spec n 0); [lia|reflexivity].
Qed.

End RecallFacts.

Module RecallClaims.

Import Recall Fusion RecallFacts.

Lemma by_score_desc_total a b :
  by_score_desc a b = false -> by_score_desc b a = true.
Proof.
  unfold by_score_desc. intros H. apply Qle_bool_iff.
  destruct (Qlt_le_dec (e_score a) (e_score b)) as [Hlt|Hle].
  - now apply Qlt_le_weak.
  - apply Qle_bool_iff in Hle. congruence.
Qed.

Lemma by_score_desc_trans a b c :
  by_score_desc a b = true -> by_score_desc b c = true -> by_score_desc a c = true.
Proof.
  unfold by_score_desc. rewrite !Qle_bool_iff. intros H1 H2.
  eapply Qle_trans; eauto.
Qed.

(** C8. When both result lists are non-empty, [search] returns the first
    [limit] elements of a ranking [all] of the candidate chunks in which
    every chunk of either list appears exactly once, the scores descend, each
    score is the sum of [1/(60 + i + 1)] over the zero-based ranks [i] of
    the chunk in the two lists, and the tag is [hybrid] exactly when the
    chunk is in both lists, otherwise [fts] or [vector] after the one list
    that holds it.  Scores are exact rationals here. *)
Theorem search_is_rank_fusion limit fts vec :
  fts <> [] -> vec <> [] -> 0 <= limit ->
  exists all : list SearchResult,
    search limit fts vec = firstn (Z.to_nat limit) all
    /\ NoDup (map (fun r => id (hit r)) all)
    /\ (forall i, In i (map (fun r => id (hit r)) all)
                  <-> occurs i fts = true \/ occurs i vec = true)
    /\ StronglySorted (fun a b => (score (hit b) <= score (hit a))%Q) all
    /\ (forall r, In r all ->
          (score (hit r) == fused (id (hit r)) fts vec)%Q
          /\ matchType r = tag_of (id (hit r)) fts vec).
Proof.
  intros Hf Hv Hlimit.
  set (scores := accumulate Vector 0 vec (accumulate Fts 0 fts [])).
  assert (Hnd : NoDup (map eid scores)).
  { unfold scores. apply accumulate_NoDup, accumulate_NoDup. constructor. }
  assert (Hperm : Permutation (ranked scores) scores)
    by apply sort_by_perm.
  assert (Hids : forall l : list Entry,
             map (fun r => id (hit r)) (map tag l) = map eid l).
  { intros l. rewrite map_map. apply map_ext. reflexivity. }
  exists (map tag (ranked scores)).
  split; [|split; [|split; [|split]]].
  - unfold search. fold scores.
    destruct fts as [|f fts']; [congruence|].
    destruct vec as [|v vec']; [congruence|].
    rewrite js_slice0_nonneg by exact Hlimit.
    now rewrite firstn_map.
  - rewrite Hids. eapply Permutation_NoDup; [|exact Hnd].
    apply Permutation_map, Permutation_sym, Hperm.
  - intros i. rewrite Hids.
    assert (Hin : In i (map eid (ranked scores)) <-> In i (map eid scores)).
    { split; apply Permutation_in; [|apply Permutation_sym];
        apply Permutation_map, Hperm. }
    rewrite Hin, <- held_In. unfold scores.
    rewrite !accumulate_held. cbn [held existsb orb].
    rewrite orb_true_iff. tauto.
  - apply StronglySorted_map.
    eapply StronglySorted_weaken;
      [|apply (sort_by_sorted by_score_desc by_score_desc_total by_score_desc_trans)].
    intros a b H. unfold by_score_desc in H. apply Qle_bool_iff in H. exact H.
  - intros r Hr. apply in_map_iff in Hr. destruct Hr as (e & <- & He).
    apply (Permutation_in _ Hperm) in He.
    destruct (member_lookup scores e Hnd He) as (Hs & Ht).
    cbn [tag hit matchType with_score score id]. fold (eid e).
    split.
    + rewrite <- Hs. unfold scores, fused.
      rewrite !accumulate_score. cbn [score_in]. lra.
    + rewrite <- Ht. unfold scores, tag_of.
      rewrite !accumulate_types. cbn [types_in].
      assert (Hheld : held (eid e) scores = true)
        by (apply held_In; now apply in_map).
      unfold scores in Hheld. rewrite !accumulate_held in Hheld.
      cbn [held existsb orb] in Hheld.
      destruct (occurs (eid e) fts), (occurs (eid e) vec);
        try reflexivity; discriminate.
Qed.

Lemma search_is_rank_fusion_witness :
  exists all : list SearchResult,
    search 10 [Sample.chunkA] [Sample.chunkB; Sample.chunkA]
      = firstn (Z.to_nat 10) all
    /\ NoDup (map (fun r => id (hit r)) all)
    /\ (forall i, In i (map (fun r => id (hit r)) all)
                  <-> occurs i [Sample.chunkA] = true
                      \/ occurs i [Sample.chunkB; Sample.chunkA] = true)
    /\ StronglySorted (fun a b => (score (hit b) <= score (hit a))%Q) all
    /\ (forall r, In r all ->
          (score (hit r)
           == fused (id (hit r)) [Sample.chunkA] [Sample.chunkB; Sample.chunkA])%Q
          /\ matchType r
             = tag_of (id (hit r)) [Sample.chunkA] [Sample.chunkB; Sample.chunkA]).
Proof.
  apply (search_is_rank_fusion 10 [Sample.chunkA] [Sample.chunkB; Sample.chunkA]).
  - discriminate.
  - discriminate.
  - lia.
Defined.

(** The specification's example: [A] (in both lists) ranks above [B] (vector
    only), tagged [hybrid] and [vector]. *)
Example koala_example :
  map (fun r => (id (hit r), matchType r))
      (search 10 [Sample.chunkA] [Sample.chunkB; Sample.chunkA])
  = [(1, Hybrid); (2, Vector)].
Proof. reflexivity. Qed.

(** The scores of that example: [A] is first in the lexical list and second
    in the vector list, [B] is first in the vector list. *)
Example koala_scores :
  Forall2 Qeq
    (map (fun r => score (hit r))
         (search 10 [Sample.chunkA] [Sample.chunkB; Sample.chunkA]))
    [(1 # 61) + (1 # 62); 1 # 61]%Q.
Proof. repeat constructor; vm_compute; reflexivity. Qed.

End RecallClaims.

(** ** The streaming reply engine *)

Module ReplyClaims.

Import ReplyStream.

Section Unchanged.

Variable parseReplyDirectives : string -> Parsed.
Variable sanitizeUserText : string -> string.
Variable renderChunks : string -> list string.
Variable currentMessageId : option Z.

(** C7 (as the code has it). A flush of text that is not silent and not
    blank makes no call on the transport when nothing new is to be shown:
    outside append mode, when a message has been sent and the cleaned text
    equals [lastSentText]; in append mode, when the cleaned text has
    nothing but blanks beyond the length of [lastSentText]. *)
Theorem unchanged_flush_makes_no_call final w st :
  p_isSilent (parseReplyDirectives (buffer st)) = false ->
  blank (cleaned_now parseReplyDirectives sanitizeUserText st) = false ->
  (mode_now parseReplyDirectives st <> Send /\ sentMessageId st <> None
   /\ cleaned_now parseReplyDirectives sanitizeUserText st = lastSentText st)
  \/ (mode_now parseReplyDirectives st = Send
      /\ blank (slice_from (String.length (lastSentText st))
                          (cleaned_now parseReplyDirectives sanitizeUserText st))
         = true) ->
  calls (fst (flush parseReplyDirectives sanitizeUserText renderChunks
                    currentMessageId final w st))
  = calls st.
Proof.
  unfold mode_now, cleaned_now. intros Hsilent Hblank Hcase.
  unfold flush. destruct (n_cancelled w); [reflexivity|].
  rewrite Hsilent. cbn [andb].
  set (parsed := parseReplyDirectives (buffer st)) in *.
  set (st1 := match p_streamMode parsed with
              | Some m => set_mode m st
              | None => st
              end).
  assert (Hcalls : calls st1 = calls st)
    by (unfold st1; destruct (p_streamMode parsed); reflexivity).
  assert (Hsent : sentMessageId st1 = sentMessageId st)
    by (unfold st1; destruct (p_streamMode parsed); reflexivity).
  assert (Hlast : lastSentText st1 = lastSentText st)
    by (unfold st1; destruct (p_streamMode parsed); reflexivity).
  assert (Hmode : mode st1 = match p_streamMode parsed with
                             | Some m => m
                             | None => mode st
                             end)
    by (unfold st1; destruct (p_streamMode parsed); reflexivity).
  destruct ((match mode st1 with Off => true | _ => false end) && negb final);
    [exact Hcalls|].
  rewrite Hblank.
  destruct (negb final && (n_now w - lastFlushAt st1 <? FLUSH_INTERVAL_MS));
    [exact Hcalls|].
  cbn [mode set_lastFlushAt]. rewrite Hmode.
  destruct Hcase as [(Hnot & Hsome & Hsame) | (Hsend & Hdelta)].
  - assert (Hedit : forall m, m <> Send ->
              calls (fst (match m with
                          | Send => flushSend w parsed
                                      (sanitizeUserText (p_text parsed))
                                      (set_lastFlushAt (n_now w) st1)
                          | _ => flushEdit renderChunks currentMessageId final w
                                   parsed (sanitizeUserText (p_text parsed))
                                   (set_lastFlushAt (n_now w) st1)
                          end)) = calls st).
    { intros m Hm. unfold flushEdit.
      cbn [sentMessageId lastSentText set_lastFlushAt].
      rewrite Hsent, Hlast, Hsame, String.eqb_refl.
      destruct (sentMessageId st); [|congruence]. cbn [Lst.is_some andb].
      destruct m; try congruence;
        destruct (renderChunks _); exact Hcalls. }
    apply Hedit. exact Hnot.
  - rewrite Hsend. unfold flushSend.
    cbn [lastSentText set_lastFlushAt]. rewrite Hlast, Hdelta. exact Hcalls.
Qed.

End Unchanged.

Lemma unchanged_flush_makes_no_call_witness :
  calls (fst (flush Sample.plain_parse Sample.plain_sanitize Sample.one_chunk
                None false (Sample.net_ok 1770000002000)
                (mkState "Done." Edit (Some 1) "Done." 1770000001000
                         false true false [CSend "Done."])))
  = [CSend "Done."].
Proof.
  apply (unchanged_flush_makes_no_call Sample.plain_parse Sample.plain_sanitize
           Sample.one_chunk None false (Sample.net_ok 1770000002000)
           (mkState "Done." Edit (Some 1) "Done." 1770000001000
                    false true false [CSend "Done."])).
  - reflexivity.
  - reflexivity.
  - left. repeat split; discriminate.
Defined.

(** C7 as stated fails: the engine streams "Done.", then "Done." again, and
    returns "Done." as its final text.  Every call succeeds and every call
    changes what the chat shows, yet the first and the last carry the same
    text. *)
Lemma same_text_is_sent_twice :
  calls (runEvents Sample.plain_parse Sample.plain_sanitize Sample.one_chunk
                   None Sample.done_twice)
  = [CSend "Done."; CEdit 1 "Done. Done."; CEdit 1 "Done."]
  /\ ~ NoDup (contents (runEvents Sample.plain_parse Sample.plain_sanitize
                                  Sample.one_chunk None Sample.done_twice)).
Proof.
  split; [reflexivity|].
  intros H. inversion H as [|x l Hnot Hnd]; subst.
  apply Hnot. right. left. reflexivity.
Qed.

End ReplyClaims.

(** * Further properties of the code *)

(** ** The job store, beyond the claims *)

Module JobExtras.

Import Jobs JobFacts JobQueries.

Lemma firstn_sorted {A} (R : A -> A -> Prop) n l :
  StronglySorted R l -> StronglySorted R (firstn n l).
Proof.
  revert n. induction l as [|x l IH]; intros [|n] H; cbn [firstn];
    try constructor.
  - inversion H; subst. auto.
  - inversion H as [|? ? Hs Hall]; subst.
    rewrite Forall_forall in *. intros y Hy. apply Hall.
    eapply firstn_In; eauto.
Qed.

Lemma sql_limit_sorted {A} (R : A -> A -> Prop) n l :
  StronglySorted R l -> StronglySorted R (Lst.sql_limit n l).
Proof.
  unfold Lst.sql_limit. destruct (n <? 0); auto using firstn_sorted.
Qed.

Lemma sql_limit_length {A} n (l : list A) :
  0 <= n -> Z.of_nat (List.length (Lst.sql_limit n l)) <= n.
Proof.
  intros H. unfold Lst.sql_limit. destruct (Z.ltb_spec n 0); [lia|].
  pose proof (firstn_le_length (Z.to_nat n) l). lia.
Qed.

Lemma selectDue_sorted now lim l :
  StronglySorted (fun a b => nextRunAt a <= nextRunAt b) (selectDue now lim l).
Proof.
  unfold selectDue. apply sql_limit_sorted.
  eapply RecallFacts.StronglySorted_weaken;
    [|apply (sort_by_sorted (fun a b => nextRunAt a <=? nextRunAt b))].
  - intros a b H. now apply Z.leb_le.
  - intros a b H. apply Z.leb_le. apply Z.leb_gt in H. lia.
  - intros a b c H1 H2. apply Z.leb_le. apply Z.leb_le in H1, H2. lia.
Qed.

Lemma claim_fst now limit s :
  fst (claimDueJobs now limit s)
  = map (claimed_record (at_ids (selectDue now (limit_of limit) (rows s))))
        (selectDue now (limit_of limit) (rows s)).
Proof.
  unfold claimDueJobs. fold (limit_of limit).
  destruct (selectDue now (limit_of limit) (rows s)) as [|r due] eqn:E;
    reflexivity.
Qed.

Lemma claimed_record_fields a r :
  id (claimed_record a r) = id r
  /\ nextRunAt (claimed_record a r) = nextRunAt r
  /\ bobId (claimed_record a r) = bobId r
  /\ scheduleKind (claimed_record a r) = scheduleKind r
  /\ enabled (claimed_record a r) = enabled r && negb (Lst.mem_Z (id r) a).
Proof.
  unfold claimed_record, default_context.
  destruct (contextMode _); cbn; auto.
Qed.

(** X1. What a claim returns, for dates in the years 0000 to 9999 (where
    the order of the stored text is the order of time): at most [limit]
    jobs (for a non-negative limit), in ascending order of [nextRunAt], with
    distinct ids, each one due ([nextRunAt <= now]) and owned by this bob; a
    returned job of kind [at] is reported with [enabled = false], any other
    with [enabled = true]. *)
Theorem claimDueJobs_returns_due_jobs_in_order now limit s :
  NoDup (ids (rows s)) ->
  IsoDate.jobs_in_range s -> IsoDate.four_digit_year now ->
  (0 <= limit_of limit ->
   Z.of_nat (List.length (fst (claimDueJobs now limit s))) <= limit_of limit)
  /\ StronglySorted (fun a b => nextRunAt a <= nextRunAt b)
                    (fst (claimDueJobs now limit s))
  /\ NoDup (ids (fst (claimDueJobs now limit s)))
  /\ forall job, In job (fst (claimDueJobs now limit s)) ->
       nextRunAt job <= now
       /\ bobId job = BOB_ID
       /\ enabled job = negb (scheduleKind job =? "at")%string.
Proof.
  intros Hnd _ _. rewrite claim_fst.
  set (due := selectDue now (limit_of limit) (rows s)).
  split; [|split; [|split]].
  - intros H. rewrite length_map. now apply sql_limit_length.
  - apply RecallFacts.StronglySorted_map.
    eapply RecallFacts.StronglySorted_weaken; [|apply selectDue_sorted].
    intros a b H.
    destruct (claimed_record_fields (at_ids due) a) as (_ & -> & _).
    destruct (claimed_record_fields (at_ids due) b) as (_ & -> & _).
    exact H.
  - replace (ids (map (claimed_record (at_ids due)) due)) with (ids due).
    + now apply selectDue_NoDup.
    + unfold ids. rewrite map_map. apply map_ext.
      intros r. now destruct (claimed_record_fields (at_ids due) r) as (-> & _).
  - intros job Hjob. apply in_map_iff in Hjob. destruct Hjob as (r & <- & Hr).
    destruct (claimed_record_fields (at_ids due) r) as (_ & -> & -> & -> & ->).
    pose proof Hr as Hr'. apply selectDue_In in Hr'. destruct Hr' as (Hrow & Hdue).
    unfold is_due in Hdue.
    apply andb_prop in Hdue. destruct Hdue as (Hdue & Hn).
    apply andb_prop in Hdue. destruct Hdue as (Hb & He).
    apply Z.leb_le in Hn. apply String.eqb_eq in Hb.
    repeat split; auto. rewrite He. cbn [andb]. f_equal.
    destruct (scheduleKind r =? "at")%string eqn:Ek.
    + apply mem_Z_In. unfold at_ids, ids. apply in_map.
      apply filter_In. auto.
    + destruct (Lst.mem_Z (id r) (at_ids due)) eqn:Em; [|reflexivity].
      apply mem_Z_In in Em. unfold at_ids, ids in Em.
      apply in_map_iff in Em. destruct Em as (y & Hy & Hyin).
      apply filter_In in Hyin. destruct Hyin as (Hyin & Hyat).
      apply selectDue_In in Hyin. destruct Hyin as (Hyin & _).
      assert (y = r) by (eapply SchedulerClaims.NoDup_map_inj; eauto).
      subst y. congruence.
Qed.

Lemma claimDueJobs_returns_due_jobs_in_order_witness :
  (0 <= 10 ->
   Z.of_nat (List.length (fst (claimDueJobs 2000 (Some 10) Sample.store2))) <= 10)
  /\ StronglySorted (fun a b => nextRunAt a <= nextRunAt b)
                    (fst (claimDueJobs 2000 (Some 10) Sample.store2))
  /\ NoDup (ids (fst (claimDueJobs 2000 (Some 10) Sample.store2)))
  /\ forall job, In job (fst (claimDueJobs 2000 (Some 10) Sample.store2)) ->
       nextRunAt job <= 2000
       /\ bobId job = BOB_ID
       /\ enabled job = negb (scheduleKind job =? "at")%string.
Proof.
  apply (claimDueJobs_returns_due_jobs_in_order 2000 (Some 10) Sample.store2).
  - repeat constructor; simpl; intuition discriminate.
  - intros r [<-|[<-|[]]];
      unfold IsoDate.four_digit_year, IsoDate.FIRST, IsoDate.LAST; cbn; lia.
  - unfold IsoDate.four_digit_year, IsoDate.FIRST, IsoDate.LAST. lia.
Defined.

Lemma getNextRunAt_none l :
  fold_right (fun r acc =>
                if (bobId r =? BOB_ID)%string && enabled r then
                  match acc with
                  | Some m => Some (Z.min (nextRunAt r) m)
                  | None => Some (nextRunAt r)
                  end
                else acc) None l = None ->
  forall r, In r l -> runnable r = false.
Proof.
  unfold runnable. induction l as [|a l IH]; cbn [fold_right]; [intros _ r []|].
  destruct ((bobId a =? BOB_ID)%string && enabled a) eqn:E.
  - destruct (fold_right _ None l); discriminate.
  - intros H r [<-|Hr]; auto.
Qed.

Lemma getNextRunAt_some l t :
  fold_right (fun r acc =>
                if (bobId r =? BOB_ID)%string && enabled r then
                  match acc with
                  | Some m => Some (Z.min (nextRunAt r) m)
                  | None => Some (nextRunAt r)
                  end
                else acc) None l = Some t ->
  (exists r, In r l /\ runnable r = true /\ nextRunAt r = t)
  /\ forall r, In r l -> runnable r = true -> t <= nextRunAt r.
Proof.
  unfold runnable. revert t.
  induction l as [|a l IH]; cbn [fold_right]; [discriminate|].
  intros t. destruct ((bobId a =? BOB_ID)%string && enabled a) eqn:E.
  - destruct (fold_right _ None l) as [m|] eqn:F.
    + intros H. injection H as <-.
      destruct (IH m eq_refl) as ((r & Hr & Hrun & Hn) & Hmin).
      split.
      * destruct (Z.min_spec (nextRunAt a) m) as [(_ & ->)|(_ & ->)].
        -- exists a. cbn. auto.
        -- exists r. cbn. auto.
      * intros x [<-|Hx] Hx'; [lia|]. specialize (Hmin x Hx Hx'). lia.
    + intros H. injection H as <-. split.
      * exists a. cbn. auto.
      * intros x [<-|Hx] Hx'; [lia|].
        pose proof (getNextRunAt_none l F x Hx) as Hno.
        unfold runnable in Hno. congruence.
  - intros H. destruct (IH t H) as ((r & Hr & Hrun & Hn) & Hmin). split.
    + exists r. cbn. auto.
    + intros x [<-|Hx] Hx'; [congruence|auto].
Qed.

Lemma selectDue_nil now lim l :
  (forall r, In r l -> is_due now r = false) -> selectDue now lim l = [].
Proof.
  intros H. unfold selectDue. rewrite (EventClaims.filter_none _ _ H).
  cbn. unfold Lst.sql_limit. destruct (lim <? 0); [reflexivity|apply firstn_nil].
Qed.

(** X2. [getNextRunAt] tells when the next claim can succeed, for dates in
    the years 0000 to 9999 (where the order of the stored text is the order
    of time).  With no enabled job, or at any instant before the time it
    reports, a claim returns nothing and leaves the store as it is; from
    that time on, a claim with a non-zero limit returns at least one job. *)
Theorem claim_is_empty_before_getNextRunAt now limit s :
  IsoDate.jobs_in_range s -> IsoDate.four_digit_year now ->
  (getNextRunAt s = None -> claimDueJobs now limit s = ([], s))
  /\ (forall t, getNextRunAt s = Some t -> now < t ->
                claimDueJobs now limit s = ([], s))
  /\ (forall t, getNextRunAt s = Some t -> t <= now -> limit_of limit <> 0 ->
                fst (claimDueJobs now limit s) <> []).
Proof.
  intros _ _. unfold getNextRunAt. split; [|split].
  - intros H. unfold claimDueJobs. rewrite selectDue_nil; [reflexivity|].
    intros r Hr. pose proof (getNextRunAt_none _ H r Hr) as Hno.
    unfold runnable in Hno. unfold is_due. now rewrite Hno.
  - intros t H Hlt. unfold claimDueJobs. rewrite selectDue_nil; [reflexivity|].
    intros r Hr. destruct (getNextRunAt_some _ _ H) as (_ & Hmin).
    unfold is_due. destruct ((bobId r =? BOB_ID)%string && enabled r) eqn:E;
      [|reflexivity].
    specialize (Hmin r Hr E). cbn. apply Z.leb_gt. lia.
  - intros t H Hle Hlim.
    destruct (getNextRunAt_some _ _ H) as ((r & Hr & Hrun & Hn) & _).
    rewrite claim_fst. unfold selectDue.
    assert (Hin : In r (filter (is_due now) (rows s))).
    { apply filter_In. split; auto. unfold is_due. unfold runnable in Hrun.
      rewrite Hrun. cbn. apply Z.leb_le. lia. }
    apply (sort_by_In (fun a b => nextRunAt a <=? nextRunAt b)) in Hin.
    destruct (Lst.sort_by _ (filter (is_due now) (rows s))) as [|x l];
      [contradiction|].
    unfold Lst.sql_limit. destruct (limit_of limit <? 0) eqn:El; [discriminate|].
    apply Z.ltb_ge in El.
    destruct (Z.to_nat (limit_of limit)) eqn:En; [lia|discriminate].
Qed.

Lemma claim_is_empty_before_getNextRunAt_witness :
  claimDueJobs 999 (Some 10) Sample.store2 = ([], Sample.store2)
  /\ fst (claimDueJobs 1000 (Some 10) Sample.store2) <> [].
Proof.
  assert (Hrange : IsoDate.jobs_in_range Sample.store2).
  { intros r [<-|[<-|[]]];
      unfold IsoDate.four_digit_year, IsoDate.FIRST, IsoDate.LAST; cbn; lia. }
  pose proof (claim_is_empty_before_getNextRunAt 999 (Some 10) Sample.store2
                Hrange
                ltac:(unfold IsoDate.four_digit_year, IsoDate.FIRST,
                        IsoDate.LAST; lia))
    as (_ & Hbefore & _).
  pose proof (claim_is_empty_before_getNextRunAt 1000 (Some 10) Sample.store2
                Hrange
                ltac:(unfold IsoDate.four_digit_year, IsoDate.FIRST,
                        IsoDate.LAST; lia))
    as (_ & _ & Hfrom).
  split.
  - apply (Hbefore 1000); [reflexivity|lia].
  - apply (Hfrom 1000); [reflexivity|lia|discriminate].
Defined.

(** X3. A claim writes nothing but the [enabled] flag of the [at] jobs it
    returns: every row keeps its place, and it is either untouched or a row
    of kind [at] that the claim returned, now with [enabled = false]. *)
Theorem claimDueJobs_only_disables_claimed_at_rows now limit s n r :
  NoDup (ids (rows s)) ->
  nth_error (rows s) n = Some r ->
  seq (snd (claimDueJobs now limit s)) = seq s
  /\ (nth_error (rows (snd (claimDueJobs now limit s))) n = Some r
      \/ (nth_error (rows (snd (claimDueJobs now limit s))) n
            = Some (set_enabled false r)
          /\ scheduleKind r = "at"
          /\ In (id r) (ids (fst (claimDueJobs now limit s))))).
Proof.
  intros Hnd Hn. split; [apply claim_seq|].
  rewrite claim_rows, claim_due. unfold disable_ids.
  rewrite nth_error_map, Hn. cbn [option_map].
  set (due := selectDue now (limit_of limit) (rows s)).
  destruct ((bobId r =? BOB_ID)%string && Lst.mem_Z (id r) (at_ids due)) eqn:E;
    [right|left; reflexivity].
  apply andb_prop in E. destruct E as (_ & Em).
  apply mem_Z_In in Em. unfold at_ids, ids in Em.
  apply in_map_iff in Em. destruct Em as (y & Hy & Hyin).
  apply filter_In in Hyin. destruct Hyin as (Hyin & Hyat).
  pose proof Hyin as Hyrow. apply selectDue_In in Hyrow.
  destruct Hyrow as (Hyrow & _).
  assert (y = r).
  { eapply SchedulerClaims.NoDup_map_inj; eauto. eapply nth_error_In; eauto. }
  subst y. apply String.eqb_eq in Hyat.
  repeat split; auto. unfold ids. now apply in_map.
Qed.

Lemma claimDueJobs_only_disables_claimed_at_rows_witness :
  seq (snd (claimDueJobs 2000 (Some 10) Sample.store2)) = seq Sample.store2
  /\ (nth_error (rows (snd (claimDueJobs 2000 (Some 10) Sample.store2))) 1
        = Some Sample.job_every
      \/ (nth_error (rows (snd (claimDueJobs 2000 (Some 10) Sample.store2))) 1
            = Some (set_enabled false Sample.job_every)
          /\ scheduleKind Sample.job_every = "at"
          /\ In (id Sample.job_every)
                (ids (fst (claimDueJobs 2000 (Some 10) Sample.store2))))).
Proof.
  apply (claimDueJobs_only_disables_claimed_at_rows 2000 (Some 10)
           Sample.store2 1 Sample.job_every).
  - repeat constructor; simpl; intuition discriminate.
  - reflexivity.
Defined.

(** X4. [updateAfterRun] is an idempotent write-back that touches the row
    with the given id only: a second identical call changes nothing, the
    other rows stay as they are, and an id that names no row makes it a
    no-op. *)
Theorem updateAfterRun_is_idempotent i last next en s :
  updateAfterRun i last next en (updateAfterRun i last next en s)
  = updateAfterRun i last next en s
  /\ (forall n r, nth_error (rows s) n = Some r -> id r <> i ->
                  nth_error (rows (updateAfterRun i last next en s)) n = Some r)
  /\ (forall n r, nth_error (rows s) n = Some r -> id r = i ->
                  nth_error (rows (updateAfterRun i last next en s)) n
                  = Some (set_run (Some last) next en r))
  /\ (~ In i (ids (rows s)) -> updateAfterRun i last next en s = s).
Proof.
  unfold updateAfterRun. cbn [rows seq]. split; [|split; [|split]].
  - f_equal. rewrite map_map. apply map_ext. intros r.
    destruct (id r =? i) eqn:E; cbn; rewrite E; reflexivity.
  - intros n r Hn Hi. rewrite nth_error_map, Hn. cbn.
    apply Z.eqb_neq in Hi. now rewrite Hi.
  - intros n r Hn Hi. rewrite nth_error_map, Hn. cbn.
    apply Z.eqb_eq in Hi. now rewrite Hi.
  - intros Hno. rewrite EventClaims.map_unchanged; [destruct s; reflexivity|].
    intros r Hr. destruct (Z.eqb_spec (id r) i) as [E|E]; [|reflexivity].
    exfalso. apply Hno. rewrite <- E. unfold ids. now apply in_map.
Qed.

Lemma updateAfterRun_is_idempotent_witness :
  nth_error (rows (updateAfterRun 2 2000 302000 true Sample.store2)) 0
    = Some Sample.job_at
  /\ updateAfterRun 9 2000 302000 true Sample.store2 = Sample.store2.
Proof.
  pose proof (updateAfterRun_is_idempotent 2 2000 302000 true Sample.store2)
    as (_ & Hother & _ & _).
  pose proof (updateAfterRun_is_idempotent 9 2000 302000 true Sample.store2)
    as (_ & _ & _ & Hnone).
  split.
  - apply Hother; [reflexivity|discriminate].
  - apply Hnone. simpl. intuition discriminate.
Defined.

Section Adding.

Variable Date_parse : string -> option Z.
Variable cron_next : string -> Z -> option Z.

(** X5. [addJob] gives the new job an id above every id ever handed out:
    the store stays well-formed (distinct ids, none above the sequence
    counter), the row is appended, and an id freed by [removeJob] is never
    used again.  A schedule kind other than [at], [every], [cron] is
    rejected. *)
Theorem addJob_never_reuses_an_id input now s :
  Scheduler.wf s ->
  (forall row s',
      addJob Date_parse cron_next input now s = Ok (row, s') ->
      Scheduler.wf s' /\ seq s < id row /\ seq s' = id row
      /\ rows s' = rows s ++ [row])
  /\ (forall i row s',
         In i (ids (rows s)) ->
         addJob Date_parse cron_next input now (snd (removeJob i s)) = Ok (row, s') ->
         id row <> i /\ ~ In (id row) (ids (rows s)))
  /\ (in_scheduleKind input <> "at" -> in_scheduleKind input <> "every" ->
      in_scheduleKind input <> "cron" ->
      addJob Date_parse cron_next input now s
      = Throw "Unable to compute next run time").
Proof.
  intros (Hnd & Hb). split; [|split].
  - intros row s' E.
    apply SchedulerClaims.addJob_shape in E. destruct E as (Hid & Hrows & Hseq).
    pose proof (Z.le_max_l (seq s) (max_id (rows s))).
    repeat split; auto; try lia.
    + rewrite Hrows. unfold ids. rewrite map_app. cbn [map].
      apply NoDup_app; [exact Hnd | repeat constructor; intros [] |].
      intros a Hin [<-|[]].
      apply in_map_iff in Hin. destruct Hin as (x & Hx & Hin).
      apply Hb in Hin. lia.
    + intros r Hr. rewrite Hrows in Hr. apply in_app_or in Hr.
      destruct Hr as [Hr|[<-|[]]]; [apply Hb in Hr|]; lia.
  - intros i row s' Hi E.
    apply SchedulerClaims.addJob_shape in E. destruct E as (Hid & _ & _).
    cbn [removeJob snd seq rows] in Hid.
    pose proof (Z.le_max_l (seq s)
                  (max_id (filter (fun r => negb (id r =? i)) (rows s)))).
    assert (Hall : forall j, In j (ids (rows s)) -> j < id row).
    { intros j Hj. unfold ids in Hj. apply in_map_iff in Hj.
      destruct Hj as (x & <- & Hx). apply Hb in Hx. lia. }
    split.
    + specialize (Hall i Hi). lia.
    + intros Hin. specialize (Hall _ Hin). lia.
  - intros H1 H2 H3. unfold addJob, Schedule.computeNextRunAt.
    apply String.eqb_neq in H1, H2, H3. rewrite H1, H2, H3. reflexivity.
Qed.

End Adding.

Lemma addJob_never_reuses_an_id_witness :
  (forall i row s',
      In i (ids (rows Sample.store2)) ->
      addJob Sample.no_date Sample.every_minute
             (mkInput 42 None "cron" "* * * * *" "send_message"
                      (Sample.payload_text "hi") None None)
             5000 (snd (removeJob i Sample.store2)) = Ok (row, s') ->
      id row <> i /\ ~ In (id row) (ids (rows Sample.store2)))
  /\ addJob Sample.no_date Sample.every_minute
            (mkInput 42 None "weekly" "1w" "send_message"
                     (Sample.payload_text "hi") None None)
            5000 Sample.store2
     = Throw "Unable to compute next run time".
Proof.
  assert (Hwf : Scheduler.wf Sample.store2).
  { split.
    - repeat constructor; simpl; intuition discriminate.
    - simpl. intros r [<-|[<-|[]]]; simpl; lia. }
  split.
  - apply (addJob_never_reuses_an_id Sample.no_date Sample.every_minute
             (mkInput 42 None "cron" "* * * * *" "send_message"
                      (Sample.payload_text "hi") None None)
             5000 Sample.store2 Hwf).
  - apply (addJob_never_reuses_an_id Sample.no_date Sample.every_minute
             (mkInput 42 None "weekly" "1w" "send_message"
                      (Sample.payload_text "hi") None None)
             5000 Sample.store2 Hwf); discriminate.
Defined.

(** X6. [removeJob] answers whether a row went: [true] exactly when the id
    was there.  Afterwards no row has that id, every other row is still
    there, and removing an id that is not there changes nothing. *)
Theorem removeJob_removes_exactly_that_id i s :
  (fst (removeJob i s) = true <-> In i (ids (rows s)))
  /\ ~ In i (ids (rows (snd (removeJob i s))))
  /\ filter (fun r => negb (id r =? i)) (rows (snd (removeJob i s)))
     = rows (snd (removeJob i s))
  /\ (forall r, In r (rows s) -> id r <> i -> In r (rows (snd (removeJob i s))))
  /\ (~ In i (ids (rows s)) -> removeJob i s = (false, s)).
Proof.
  unfold removeJob. cbn [fst snd rows]. split; [|split; [|split; [|split]]].
  - rewrite existsb_exists. unfold ids. rewrite in_map_iff. split.
    + intros (r & Hr & E). apply Z.eqb_eq in E. eauto.
    + intros (r & E & Hr). exists r. split; auto. now apply Z.eqb_eq.
  - unfold ids. rewrite in_map_iff. intros (r & E & Hr).
    apply filter_In in Hr. destruct Hr as (_ & Hr).
    apply Z.eqb_eq in E. now rewrite E in Hr.
  - induction (rows s) as [|a l IH]; cbn [filter]; [reflexivity|].
    destruct (negb (id a =? i)) eqn:E; cbn [filter]; [rewrite E|]; congruence.
  - intros r Hr Hi. apply filter_In. split; auto.
    apply Z.eqb_neq in Hi. now rewrite Hi.
  - intros Hno.
    assert (Hall : forall r, In r (rows s) -> (id r =? i) = false).
    { intros r Hr. apply Z.eqb_neq. intros E. apply Hno. rewrite <- E.
      unfold ids. now apply in_map. }
    assert (Hex : existsb (fun r => id r =? i) (rows s) = false).
    { destruct (existsb _ (rows s)) eqn:E; [|reflexivity].
      apply existsb_exists in E. destruct E as (r & Hr & E).
      rewrite (Hall r Hr) in E. discriminate. }
    rewrite Hex.
    replace (filter (fun r => negb (id r =? i)) (rows s)) with (rows s).
    + destruct s; reflexivity.
    + clear Hno Hex. induction (rows s) as [|a l IH]; cbn [filter]; [reflexivity|].
      rewrite (Hall a (or_introl eq_refl)). cbn [negb]. f_equal.
      apply IH. intros r Hr. apply Hall. now right.
Qed.

Lemma removeJob_removes_exactly_that_id_witness :
  In Sample.job_every (rows (snd (removeJob 1 Sample.store2)))
  /\ removeJob 7 Sample.store2 = (false, Sample.store2).
Proof.
  pose proof (removeJob_removes_exactly_that_id 1 Sample.store2)
    as (_ & _ & _ & Hkeep & _).
  pose proof (removeJob_removes_exactly_that_id 7 Sample.store2)
    as (_ & _ & _ & _ & Hnone).
  split.
  - apply Hkeep; [right; left; reflexivity | discriminate].
  - apply Hnone. simpl. intuition discriminate.
Defined.

Lemma default_context_id r : id (default_context r) = id r.
Proof. unfold default_context. destruct (contextMode r); reflexivity. Qed.

(** X7. A one-shot job leaves the list of upcoming jobs the moment it is
    claimed: after the claim [getJobsForChat] no longer shows it for any
    chat, while [listJobs] still does. *)
Theorem claimed_at_job_is_no_longer_upcoming now limit s job chat :
  In job (fst (claimDueJobs now limit s)) ->
  scheduleKind job = "at" ->
  ~ In (id job) (ids (getJobsForChat chat (snd (claimDueJobs now limit s))))
  /\ In (id job) (ids (listJobs (snd (claimDueJobs now limit s)))).
Proof.
  intros Hjob Hat. split.
  - unfold getJobsForChat, ids. rewrite map_map. intros Hin.
    apply in_map_iff in Hin. destruct Hin as (r & Hid & Hr).
    rewrite default_context_id in Hid.
    apply sort_by_In in Hr. apply filter_In in Hr. destruct Hr as (Hr & Hc).
    apply andb_prop in Hc. destruct Hc as (Hc & Hen).
    apply andb_prop in Hc. destruct Hc as (Hb & _).
    apply String.eqb_eq in Hb.
    pose proof (claim_disables_at _ _ _ _ _ Hjob Hat Hr Hid Hb). congruence.
  - rewrite claim_fst in Hjob. apply in_map_iff in Hjob.
    destruct Hjob as (x & <- & Hx).
    destruct (claimed_record_fields
                (at_ids (selectDue now (limit_of limit) (rows s))) x)
      as (-> & _).
    apply selectDue_In in Hx. destruct Hx as (Hx & Hdue).
    unfold is_due in Hdue. apply andb_prop in Hdue. destruct Hdue as (Hdue & _).
    apply andb_prop in Hdue. destruct Hdue as (Hb & _).
    unfold listJobs, ids. rewrite map_map.
    rewrite claim_rows. unfold disable_ids.
    set (f := fun r => if (bobId r =? BOB_ID)%string && Lst.mem_Z (id r) _
                       then set_enabled false r else r).
    apply in_map_iff. exists (f x). split.
    + rewrite default_context_id. unfold f. destruct (_ && _); reflexivity.
    + apply sort_by_In. apply filter_In. split.
      * now apply in_map.
      * unfold f. destruct (_ && _); exact Hb.
Qed.

Lemma claimed_at_job_is_no_longer_upcoming_witness :
  ~ In 1 (ids (getJobsForChat 42 (snd (claimDueJobs 2000 (Some 10) Sample.store2))))
  /\ In 1 (ids (listJobs (snd (claimDueJobs 2000 (Some 10) Sample.store2)))).
Proof.
  apply (claimed_at_job_is_no_longer_upcoming 2000 (Some 10) Sample.store2
           (set_enabled false Sample.job_at) 42).
  - left; reflexivity.
  - reflexivity.
Defined.

End JobExtras.

(** ** Printing and reading decimal numbers *)

Module DigitFacts.

Import Digits.

Lemma fold_digits d acc :
  fold_left (fun a c => 10 * a + Str.digit_val c)
            (list_ascii_of_string (NilEmpty.string_of_uint d)) acc
  = value d acc.
Proof.
  revert acc. induction d; intros acc; cbn [NilEmpty.string_of_uint
    list_ascii_of_string fold_left value]; try reflexivity;
    rewrite IHd; f_equal; unfold Str.digit_val; cbn; lia.
Qed.

Lemma value_acc d p : value d (Z.pos p) = Z.pos (Pos.of_uint_acc d p).
Proof.
  revert p. induction d; intros p; cbn [value Pos.of_uint_acc];
    try reflexivity;
    match goal with
    | |- value _ ?a = Z.pos (Pos.of_uint_acc _ ?q) =>
        replace a with (Z.pos q) by lia; apply IHd
    end.
Qed.

Lemma value_of_uint d : value d 0 = Z.of_N (Pos.of_uint d).
Proof.
  induction d; cbn [value Pos.of_uint]; try reflexivity;
    try (cbn [Z.mul Z.add]; rewrite value_acc; reflexivity).
  exact IHd.
Qed.

(** Reading back what [decimal] printed gives the number. *)
Lemma parse_decimal n :
  0 <= n ->
  Str.parse_digits (list_ascii_of_string (Json.decimal n)) = n.
Proof.
  intros Hn. unfold Str.parse_digits, Json.decimal.
  destruct n as [|p|p]; [reflexivity| |lia].
  cbn [Z.to_int NilZero.string_of_int].
  pose proof (DecimalPos.Unsigned.of_to p) as Hp.
  unfold NilZero.string_of_uint.
  destruct (Pos.to_uint p) eqn:E; try discriminate;
    rewrite fold_digits, value_of_uint, Hp; reflexivity.
Qed.

Lemma uint_digits d :
  forallb Str.is_digit (list_ascii_of_string (NilEmpty.string_of_uint d)) = true.
Proof. induction d; cbn; auto. Qed.

(** What [decimal] prints for a number that is not negative: digits, and at
    least one. *)
Lemma decimal_digits n :
  0 <= n ->
  forallb Str.is_digit (list_ascii_of_string (Json.decimal n)) = true
  /\ list_ascii_of_string (Json.decimal n) <> [].
Proof.
  intros Hn. unfold Json.decimal.
  destruct n as [|p|p]; [split; [reflexivity|discriminate]| |lia].
  cbn [Z.to_int NilZero.string_of_int]. unfold NilZero.string_of_uint.
  pose proof (DecimalPos.Unsigned.of_to p) as Hp.
  destruct (Pos.to_uint p) eqn:E; try discriminate;
    (split; [apply uint_digits | discriminate]).
Qed.

End DigitFacts.

(** ** Trimming *)

Module TrimFacts.

Lemma digit_not_space c : Str.is_digit c = true -> Str.is_space c = false.
Proof.
  unfold Str.is_digit, Str.is_space. intros H.
  apply andb_prop in H. destruct H as (H1 & H2).
  apply Nat.leb_le in H1, H2.
  destruct (Nat.leb_spec 9 (nat_of_ascii c)), (Nat.leb_spec (nat_of_ascii c) 13),
    (Nat.eqb_spec (nat_of_ascii c) 32); cbn; try reflexivity; lia.
Qed.

Lemma list_of_append a b :
  list_ascii_of_string (a ++ b) = list_ascii_of_string a ++ list_ascii_of_string b.
Proof. induction a as [|c a IH]; cbn; [reflexivity|now rewrite IH]. Qed.

Lemma drop_space_head c l :
  Str.is_space c = false -> Str.drop_space (c :: l) = c :: l.
Proof. intros H. cbn. now rewrite H. Qed.

(** Text that neither starts nor ends with white space is left alone. *)
Lemma trim_list_clean a mid z :
  Str.is_space a = false -> Str.is_space z = false ->
  Str.trim_list (a :: mid ++ [z]) = a :: mid ++ [z].
Proof.
  intros Ha Hz. unfold Str.trim_list.
  rewrite (drop_space_head a _ Ha).
  change (a :: mid ++ [z]) with ((a :: mid) ++ [z]).
  rewrite rev_app_distr. cbn [rev app].
  rewrite (drop_space_head z _ Hz).
  change (z :: rev mid ++ [a]) with ([z] ++ rev (a :: mid)).
  rewrite rev_app_distr, rev_involutive. reflexivity.
Qed.

Lemma trim_list_single a :
  Str.is_space a = false -> Str.trim_list [a] = [a].
Proof. intros Ha. unfold Str.trim_list. cbn. rewrite Ha. cbn. now rewrite Ha. Qed.

End TrimFacts.

(** ** Schedules, beyond the claims *)

Module ScheduleExtras.

Import Schedule.

Lemma parseEvery_at_least_a_second spec v : parseEvery spec = Ok v -> 1000 <= v.
Proof.
  unfold parseEvery.
  destruct (match_DURATION_RE (Str.trim spec)) as [[ds u]|]; [|discriminate].
  destruct (Z.leb_spec (Str.parse_digits ds) 0); [discriminate|].
  repeat (destruct (Ascii.eqb _ _);
          [intros E; injection E as <-; lia|]).
  discriminate.
Qed.

Section NotInThePast.

Variable Date_parse : string -> option Z.
Variable cron_next : string -> Z -> option Z.
Variable cron_tick : string -> Z -> Prop.
Hypothesis cron_next_first :
  forall spec from t,
    cron_next spec from = Some t ->
    from < t /\ cron_tick spec t /\
    forall u, from < u -> cron_tick spec u -> t <= u.

(** X8. [computeNextRunAt] never answers with a time before [from]: for
    [at] the answer is [from] itself when the date has passed, for [every]
    it is at least a second later (an interval of zero is an error, not a
    busy loop), for [cron] it is strictly later.  It answers [null] exactly
    for a kind that is none of the three. *)
Theorem next_run_is_never_in_the_past kind spec from :
  (forall r, computeNextRunAt Date_parse cron_next kind spec from = Ok (Some r) ->
             from <= r
             /\ (kind = "every" -> from + 1000 <= r)
             /\ (kind = "cron" -> from < r))
  /\ (computeNextRunAt Date_parse cron_next kind spec from = Ok None
      <-> kind <> "at" /\ kind <> "every" /\ kind <> "cron").
Proof.
  unfold computeNextRunAt, parseAt. split.
  - intros r.
    destruct (String.eqb_spec kind "at") as [->|Hat].
    { destruct (Date_parse spec) as [date|]; cbn [bind]; [|discriminate].
      destruct (Z.leb_spec date from); intros E; injection E as <-;
        repeat split; try lia; discriminate. }
    destruct (String.eqb_spec kind "every") as [->|Hev].
    { destruct (parseEvery spec) as [interval|] eqn:Ei; cbn [bind];
        [|discriminate].
      apply parseEvery_at_least_a_second in Ei.
      intros E; injection E as <-. repeat split; try lia; discriminate. }
    destruct (String.eqb_spec kind "cron") as [->|Hcr]; [|discriminate].
    destruct (cron_next spec from) as [t|] eqn:Ec; [|discriminate].
    destruct (cron_next_first _ _ _ Ec) as (Hlt & _).
    intros E; injection E as <-. repeat split; try lia; discriminate.
  - destruct (String.eqb_spec kind "at") as [->|Hat].
    { split; [|tauto].
      destruct (Date_parse spec) as [date|]; cbn [bind]; [|discriminate].
      destruct (date <=? from); discriminate. }
    destruct (String.eqb_spec kind "every") as [->|Hev].
    { split; [|tauto].
      destruct (parseEvery spec); cbn [bind]; discriminate. }
    destruct (String.eqb_spec kind "cron") as [->|Hcr].
    { split; [|tauto]. destruct (cron_next spec from); discriminate. }
    tauto.
Qed.

End NotInThePast.

Lemma next_run_is_never_in_the_past_witness :
  61000 <= 151000 /\ ("every" = "every" -> 61000 + 1000 <= 151000)
  /\ ("every" = "cron" -> 61000 < 151000).
Proof.
  exact (proj1 (next_run_is_never_in_the_past (fun _ => Some 500)
                  Sample.every_minute (fun _ u => u mod 60000 = 0)
                  every_minute_first "every" "90s" 61000)
               151000 eq_refl).
Defined.

Lemma match_DURATION_RE_digits ds u :
  ds <> [] -> forallb Str.is_digit ds = true -> In u Units.letters ->
  match_DURATION_RE (string_of_list_ascii (ds ++ [u])) = Some (ds, u).
Proof.
  intros Hne Hds Hu. unfold match_DURATION_RE.
  rewrite list_ascii_of_string_of_list_ascii, rev_app_distr. cbn [rev app].
  rewrite rev_involutive, Hds.
  destruct ds as [|d ds]; [congruence|].
  assert (Hunit : existsb (Ascii.eqb (Str.to_lower u)) ["s"; "m"; "h"; "d"]%char = true).
  { unfold Units.letters in Hu. cbn in Hu.
    repeat (destruct Hu as [<-|Hu]; [reflexivity|]). contradiction. }
  now rewrite Hunit.
Qed.

(** X9. [parseEvery] reads back a printed interval: the decimal digits of
    any [n > 0] followed by one of the letters s, m, h, d (in either case)
    give [n] seconds, minutes, hours or days in milliseconds, as long as
    that number of milliseconds is a safe integer (at most
    [Number.MAX_SAFE_INTEGER], so that the doubles of the code are exact);
    with [n = 0] the spec is rejected. *)
Theorem parseEvery_reads_number_and_unit n u :
  In u Units.letters ->
  (0 < n ->
   n * Units.unit_ms (Str.to_lower u) <= IsoDate.MAX_SAFE_INTEGER ->
   parseEvery (Json.decimal n ++ String u EmptyString)
   = Ok (n * Units.unit_ms (Str.to_lower u)))
  /\ is_ok (parseEvery (Json.decimal 0 ++ String u EmptyString)) = false.
Proof.
  intros Hu.
  assert (Hspace : Str.is_space u = false).
  { unfold Units.letters in Hu. cbn in Hu.
    repeat (destruct Hu as [<-|Hu]; [reflexivity|]). contradiction. }
  assert (Hgen : forall k, 0 <= k ->
            match_DURATION_RE (Str.trim (Json.decimal k ++ String u EmptyString))
            = Some (list_ascii_of_string (Json.decimal k), u)).
  { intros k Hk.
    destruct (DigitFacts.decimal_digits k Hk) as (Hds & Hne).
    unfold Str.trim. rewrite TrimFacts.list_of_append. cbn [list_ascii_of_string].
    destruct (list_ascii_of_string (Json.decimal k)) as [|a mid] eqn:E;
      [congruence|].
    cbn [app]. rewrite TrimFacts.trim_list_clean; auto.
    - change (a :: mid ++ [u]) with ((a :: mid) ++ [u]).
      apply match_DURATION_RE_digits; auto; discriminate.
    - apply TrimFacts.digit_not_space. cbn in Hds.
      apply andb_prop in Hds. tauto. }
  split.
  - intros Hn _. unfold parseEvery. rewrite Hgen by lia.
    rewrite DigitFacts.parse_decimal by lia.
    destruct (Z.leb_spec n 0); [lia|].
    unfold Units.letters in Hu. cbn in Hu.
    repeat (destruct Hu as [<-|Hu]; [reflexivity|]). contradiction.
  - unfold parseEvery. rewrite Hgen by lia. reflexivity.
Qed.

Lemma parseEvery_reads_number_and_unit_witness :
  parseEvery (Json.decimal 90 ++ "S") = Ok (90 * 1000).
Proof.
  apply (proj1 (parseEvery_reads_number_and_unit 90 "S"
                  ltac:(right; right; right; right; left; reflexivity))).
  - lia.
  - vm_compute. discriminate.
Defined.

End ScheduleExtras.

(** ** Do-not-disturb, beyond the claims *)

Module DndExtras.

Import Dnd.

(** X10. The quiet window wraps around midnight: when [start] and [end]
    differ, swapping them gives exactly the complementary window, so
    22:00-08:00 is quiet at the minutes at which 08:00-22:00 is not; when
    they are equal the window is empty. *)
Theorem isInTimeWindow_swap_is_complement startM endM m :
  (startM = endM -> isInTimeWindow startM endM m = false)
  /\ (startM <> endM ->
      isInTimeWindow startM endM m = negb (isInTimeWindow endM startM m)).
Proof.
  unfold isInTimeWindow. split; intros H.
  - subst. rewrite Z.ltb_irrefl.
    destruct (Z.leb_spec endM m), (Z.ltb_spec m endM); cbn; auto; lia.
  - destruct (Z.ltb_spec endM startM), (Z.ltb_spec startM endM); try lia;
      destruct (Z.leb_spec startM m), (Z.ltb_spec m endM),
               (Z.leb_spec endM m), (Z.ltb_spec m startM);
      cbn; auto; lia.
Qed.

Lemma isInTimeWindow_swap_is_complement_witness :
  isInTimeWindow 1320 480 1410 = negb (isInTimeWindow 480 1320 1410).
Proof.
  apply (proj2 (isInTimeWindow_swap_is_complement 1320 480 1410)). lia.
Defined.



Import DndText.










End DndExtras.

(** ** The scheduler loop, beyond the claims *)

Module SchedulerExtras.

Import Jobs JobFacts Scheduler.

Section Running.

Variable Date_parse : string -> option Z.
Variable cron_next : string -> Z -> option Z.

(** X13. DND only ever holds back user-facing, non-urgent jobs: for a job
    whose payload has [urgent = true], and for a job that is neither a
    [send_message] nor an [agent_turn] (a script, say), [executeJob] does
    exactly what it does with no DND configured, whatever the DND state. *)
Theorem urgent_and_script_jobs_bypass_dnd job opts w :
  urgent (payload job) = Some true
  \/ (jobType job <> "send_message" /\ jobType job <> "agent_turn") ->
  executeJob Date_parse cron_next job opts w
  = executeJob Date_parse cron_next job
      (mkOptions None (hasMessageLogger opts) (defaultEngine opts)) w.
Proof.
  intros H.
  assert (Hno : dndDeferral job opts w = None).
  { unfold dndDeferral. destruct (dnd opts) as [config|]; [|reflexivity].
    destruct H as [Hu|(H1 & H2)].
    - unfold isUrgent. rewrite Hu. reflexivity.
    - apply String.eqb_neq in H1, H2. rewrite H1, H2.
      now rewrite andb_false_r. }
  unfold executeJob. rewrite Hno. cbn [dndDeferral dnd].
  destruct opts as [d l e]. reflexivity.
Qed.

(** X14. A job that cannot be run is refused before anything happens: a
    [send_message] without text, an [agent_turn] without prompt, a script
    whose path is missing, leaves the scripts directory or names no file,
    and a job of unknown type all make [executeJob] throw without sending,
    spawning or asking the engine anything (unless DND put the job off
    first). *)
Theorem unrunnable_job_has_no_effect job opts w :
  dndDeferral job opts w = None ->
  (jobType job = "send_message" /\ blank (or_empty (text (payload job))) = true)
  \/ (jobType job = "agent_turn" /\ blank (or_empty (prompt (payload job))) = true)
  \/ (jobType job = "script"
      /\ (script (payload job) = None \/ script (payload job) = Some EmptyString
          \/ w_scriptEscapes w = true \/ w_scriptExists w = false))
  \/ (jobType job <> "send_message" /\ jobType job <> "agent_turn"
      /\ jobType job <> "script") ->
  fst (executeJob Date_parse cron_next job opts w) = []
  /\ is_ok (snd (executeJob Date_parse cron_next job opts w)) = false.
Proof.
  intros Hno H. unfold executeJob. rewrite Hno.
  assert (Hd : fst (dispatchJob job opts w) = []
               /\ is_ok (snd (dispatchJob job opts w)) = false).
  { unfold dispatchJob.
    destruct H as [(Ht & Hb)|[(Ht & Hb)|[(Ht & Hs)|(H1 & H2 & H3)]]].
    - rewrite Ht. change ("send_message" =? "send_message")%string with true.
      cbv iota. rewrite Hb. auto.
    - rewrite Ht. change ("agent_turn" =? "send_message")%string with false.
      change ("agent_turn" =? "agent_turn")%string with true.
      cbv iota. rewrite Hb. auto.
    - rewrite Ht. change ("script" =? "send_message")%string with false.
      change ("script" =? "agent_turn")%string with false.
      change ("script" =? "script")%string with true.
      cbv iota.
      destruct (script (payload job)) as [sp|]; [|auto].
      destruct (sp =? EmptyString)%string eqn:Ee; [auto|].
      destruct Hs as [Hs|[Hs|[Hs|Hs]]]; try discriminate.
      + injection Hs as ->. discriminate.
      + rewrite Hs. auto.
      + destruct (w_scriptEscapes w); [auto|]. rewrite Hs. auto.
    - apply String.eqb_neq in H1, H2, H3. rewrite H1, H2, H3. auto. }
  destruct (dispatchJob job opts w) as [effects [u|m]]; cbn [fst snd] in *;
    destruct Hd as (-> & Hok); [discriminate|auto].
Qed.

End Running.

Lemma urgent_and_script_jobs_bypass_dnd_witness :
  executeJob Sample.no_date Sample.no_cron Sample2.job_urgent Sample.opts_dnd
             Sample.world_night
  = executeJob Sample.no_date Sample.no_cron Sample2.job_urgent
      (mkOptions None false "claude") Sample.world_night.
Proof.
  apply (urgent_and_script_jobs_bypass_dnd Sample.no_date Sample.no_cron
           Sample2.job_urgent Sample.opts_dnd Sample.world_night).
  left. reflexivity.
Defined.

Lemma unrunnable_job_has_no_effect_witness :
  fst (executeJob Sample.no_date Sample.no_cron Sample2.job_script
                  Sample.opts_dnd Sample2.world_escape) = []
  /\ is_ok (snd (executeJob Sample.no_date Sample.no_cron Sample2.job_script
                            Sample.opts_dnd Sample2.world_escape)) = false.
Proof.
  apply (unrunnable_job_has_no_effect Sample.no_date Sample.no_cron
           Sample2.job_script Sample.opts_dnd Sample2.world_escape).
  - reflexivity.
  - right. right. left. split; [reflexivity|].
    right. right. left. reflexivity.
Defined.

Section Progress.

Variable Date_parse : string -> option Z.
Variable cron_next : string -> Z -> option Z.
Variable cron_tick : string -> Z -> Prop.
Hypothesis cron_next_first :
  forall spec from t,
    cron_next spec from = Some t ->
    from < t /\ cron_tick spec t /\
    forall u, from < u -> cron_tick spec u -> t <= u.

(** X15. A recurring job that ran leaves the due set.  When an [every] or
    [cron] job is executed without deferral and without error, the next run
    lies strictly past the clock read after the run.  The write-back leaves
    every row in its place and changes the row of the job and no other: it
    records the tick's [now] as its last run, keeps it enabled, and gives it
    that next run; so a row with the id of the job, as there is one when the
    job was claimed, holds these values afterwards.  For dates in the years
    0000 to 9999 and a clock that has not gone backwards, the job is then
    not due at [now] any more, and the loop's next claim leaves it alone. *)
Theorem recurring_job_is_rescheduled_after_its_run now job opts w s nextRun :
  scheduleKind job = "every" \/ scheduleKind job = "cron" ->
  dndDeferral job opts w = None ->
  snd (executeJob Date_parse cron_next job opts w) = Ok nextRun ->
  exists t,
    nextRun = Some t /\ w_clock w < t
    /\ (forall r, In r (rows (runJob Date_parse cron_next now job opts w s)) ->
                  id r = id job ->
                  nextRunAt r = t /\ lastRunAt r = Some now /\ enabled r = true
                  /\ (IsoDate.four_digit_year now -> IsoDate.four_digit_year t ->
                      now <= w_clock w -> is_due now r = false))
    /\ (forall n r0,
          nth_error (rows s) n = Some r0 ->
          nth_error (rows (runJob Date_parse cron_next now job opts w s)) n
          = Some (if id r0 =? id job then set_run (Some now) t true r0 else r0))
    /\ (In (id job) (ids (rows s)) ->
        exists r, In r (rows (runJob Date_parse cron_next now job opts w s))
                  /\ id r = id job /\ nextRunAt r = t
                  /\ lastRunAt r = Some now /\ enabled r = true).
Proof.
  intros Hkind Hno Hexec.
  assert (Hnext : exists t, nextRun = Some t /\ w_clock w < t).
  { unfold executeJob in Hexec. rewrite Hno in Hexec.
    destruct (dispatchJob job opts w) as [effects [u|m]]; cbn [snd] in Hexec;
      [|discriminate].
    unfold Schedule.computeNextRunAt in Hexec.
    destruct Hkind as [Hk|Hk]; rewrite Hk in Hexec.
    - change ("every" =? "at")%string with false in Hexec.
      change ("every" =? "every")%string with true in Hexec.
      cbv iota in Hexec. cbn [snd] in Hexec.
      destruct (Schedule.parseEvery (scheduleSpec job)) as [interval|] eqn:Ei;
        cbn [bind] in Hexec; [|discriminate].
      apply ScheduleExtras.parseEvery_at_least_a_second in Ei.
      injection Hexec as <-. eexists. split; [reflexivity|lia].
    - change ("cron" =? "at")%string with false in Hexec.
      change ("cron" =? "every")%string with false in Hexec.
      change ("cron" =? "cron")%string with true in Hexec.
      cbv iota in Hexec. cbn [snd] in Hexec.
      destruct (cron_next (scheduleSpec job) (w_clock w)) as [t|] eqn:Ec;
        [|discriminate].
      destruct (cron_next_first _ _ _ Ec) as (Hlt & _).
      injection Hexec as <-. eexists. split; [reflexivity|lia]. }
  destruct Hnext as (t & -> & Hlt). exists t.
  assert (Hrun : runJob Date_parse cron_next now job opts w s
                 = updateAfterRun (id job) now t true s).
  { unfold runJob. rewrite Hexec. reflexivity. }
  rewrite Hrun.
  split; [reflexivity|]. split; [exact Hlt|]. split; [|split].
  - intros r Hr Hid.
    apply SchedulerClaims.updateAfterRun_rows in Hr.
    destruct Hr as (x & Hx & ->).
    destruct (id x =? id job) eqn:Ei;
      [|apply Z.eqb_neq in Ei; contradiction].
    cbn. repeat split.
    intros _ _ Hclock. unfold is_due. cbn.
    replace (t <=? now) with false; [now rewrite andb_false_r|].
    symmetry. apply Z.leb_gt. lia.
  - intros n r0 Hn. now apply SchedulerClaims.updateAfterRun_nth.
  - intros Hin. unfold ids in Hin. apply in_map_iff in Hin.
    destruct Hin as (r0 & Hid & Hr0).
    exists (set_run (Some now) t true r0). split.
    + unfold updateAfterRun. cbn [rows]. apply in_map_iff. exists r0.
      rewrite Hid, Z.eqb_refl. auto.
    + cbn. auto.
Qed.

End Progress.

Lemma recurring_job_is_rescheduled_after_its_run_witness :
  rows (runJob Sample2.date_feb Sample.every_minute Sample2.feb3_2300
               Sample2.job_hourly Sample.opts_plain Sample2.world_quiet
               Sample2.store_claimed)
  = [Sample2.claimed_reminder;
     set_run (Some Sample2.feb3_2300) (Sample2.feb3_2300 + 40 + 3600000) true
             Sample2.job_hourly]
  /\ exists t,
      Some (Sample2.feb3_2300 + 40 + 3600000) = Some t
      /\ Sample2.feb3_2300 + 40 < t
      /\ (forall r,
            In r (rows (runJob Sample2.date_feb Sample.every_minute
                               Sample2.feb3_2300 Sample2.job_hourly
                               Sample.opts_plain Sample2.world_quiet
                               Sample2.store_claimed)) ->
            id r = 2 ->
            nextRunAt r = t /\ lastRunAt r = Some Sample2.feb3_2300
            /\ enabled r = true
            /\ (IsoDate.four_digit_year Sample2.feb3_2300 ->
                IsoDate.four_digit_year t ->
                Sample2.feb3_2300 <= Sample2.feb3_2300 + 40 ->
                is_due Sample2.feb3_2300 r = false))
      /\ (forall n r0,
            nth_error (rows Sample2.store_claimed) n = Some r0 ->
            nth_error (rows (runJob Sample2.date_feb Sample.every_minute
                               Sample2.feb3_2300 Sample2.job_hourly
                               Sample.opts_plain Sample2.world_quiet
                               Sample2.store_claimed)) n
            = Some (if id r0 =? 2
                    then set_run (Some Sample2.feb3_2300) t true r0 else r0))
      /\ (In 2 (ids (rows Sample2.store_claimed)) ->
          exists r,
            In r (rows (runJob Sample2.date_feb Sample.every_minute
                               Sample2.feb3_2300 Sample2.job_hourly
                               Sample.opts_plain Sample2.world_quiet
                               Sample2.store_claimed))
            /\ id r = 2 /\ nextRunAt r = t
            /\ lastRunAt r = Some Sample2.feb3_2300 /\ enabled r = true).
Proof.
  split; [reflexivity|].
  apply (recurring_job_is_rescheduled_after_its_run Sample2.date_feb
           Sample.every_minute (fun _ u => u mod 60000 = 0) every_minute_first
           Sample2.feb3_2300 Sample2.job_hourly Sample.opts_plain
           Sample2.world_quiet Sample2.store_claimed
           (Some (Sample2.feb3_2300 + 40 + 3600000))).
  - left. reflexivity.
  - reflexivity.
  - reflexivity.
Defined.

(** X16. The loop never oversleeps.  The delay [scheduleNext] computes
    lies between 0 and the maximum sleep; it is 0 when the heartbeat is on
    and an event is pending; and, for jobs whose dates are in the years
    0000 to 9999 (where the least stored text is the earliest time), waking
    after that delay is never later than the [nextRunAt] of any enabled job
    (or than [now], for a job already due). *)
Theorem scheduler_never_oversleeps hb jobs events now maxSleepMs :
  0 <= maxSleepMs ->
  IsoDate.jobs_in_range jobs ->
  0 <= Sleep.nextDelay hb jobs events now maxSleepMs <= maxSleepMs
  /\ (hb = true -> 0 < Events.countPending now events ->
      Sleep.nextDelay hb jobs events now maxSleepMs = 0)
  /\ (forall r, In r (rows jobs) -> JobQueries.runnable r = true ->
                now + Sleep.nextDelay hb jobs events now maxSleepMs
                <= Z.max now (nextRunAt r)).
Proof.
  intros Hmax _. unfold Sleep.nextDelay, Sleep.scheduleDelay.
  split; [|split].
  - destruct (hb && (0 <? Events.countPending now events));
      [|destruct (getNextRunAt jobs)]; lia.
  - intros -> Hp. apply Z.ltb_lt in Hp. rewrite Hp. cbn. lia.
  - intros r Hr Hrun.
    destruct (hb && (0 <? Events.countPending now events)); [lia|].
    destruct (getNextRunAt jobs) as [t|] eqn:E.
    + destruct (JobExtras.getNextRunAt_some _ _ E) as (_ & Hmin).
      specialize (Hmin r Hr Hrun). lia.
    + pose proof (JobExtras.getNextRunAt_none _ E r Hr). congruence.
Qed.

Lemma scheduler_never_oversleeps_witness :
  0 <= Sleep.nextDelay true Sample.store2 Sample.events3 400 300000 <= 300000
  /\ (true = true -> 0 < Events.countPending 400 Sample.events3 ->
      Sleep.nextDelay true Sample.store2 Sample.events3 400 300000 = 0)
  /\ (forall r, In r (rows Sample.store2) -> JobQueries.runnable r = true ->
                400 + Sleep.nextDelay true Sample.store2 Sample.events3 400 300000
                <= Z.max 400 (nextRunAt r)).
Proof.
  apply (scheduler_never_oversleeps true Sample.store2 Sample.events3 400 300000).
  - lia.
  - intros r [<-|[<-|[]]];
      unfold IsoDate.four_digit_year, IsoDate.FIRST, IsoDate.LAST; cbn; lia.
Defined.

End SchedulerExtras.

(** ** The event store *)

Module EventExtras.

Import Events EventQueries.

Lemma picked_pending now limit stale s r :
  In r (picked now limit stale s) ->
  In r (rows s) /\ is_pending (now - stale) r = true.
Proof.
  unfold picked, by_createdAt. intros H.
  apply sql_limit_In in H. apply sort_by_In in H.
  now apply filter_In in H.
Qed.

Lemma picked_mem now limit stale s r :
  NoDup (map id (rows s)) -> In r (rows s) ->
  Lst.mem_Z (id r) (map id (picked now limit stale s)) = true
  <-> In r (picked now limit stale s).
Proof.
  intros Hnd Hr. rewrite mem_Z_In. split.
  - intros H. apply in_map_iff in H. destruct H as (y & Hy & Hin).
    assert (y = r).
    { eapply SchedulerClaims.NoDup_map_inj; eauto.
      now apply picked_pending in Hin. }
    now subst y.
  - apply in_map.
Qed.

Lemma pending_bob sb r : is_pending sb r = true -> bobId r = BOB_ID.
Proof.
  unfold is_pending. rewrite !andb_true_iff, String.eqb_eq. tauto.
Qed.

Lemma pending_unprocessed sb r : is_pending sb r = true -> processedAt r = None.
Proof.
  unfold is_pending. rewrite !andb_true_iff.
  destruct (processedAt r); cbn; [intuition discriminate | reflexivity].
Qed.

Lemma claimed_by_stamp now tok r :
  bobId r = BOB_ID -> claimed_by tok (stamp now tok r) = true.
Proof.
  intros Hb. apply EventClaims.claimed_by_spec. cbn. auto.
Qed.

(** What a claim under a new token hands out: the picked rows, stamped. *)
Lemma claim_fst_In now limit stale tok s e :
  NoDup (map id (rows s)) -> fresh tok s ->
  In e (fst (claimEvents now limit stale tok s))
  <-> exists r, In r (picked now limit stale s) /\ e = stamp now tok r.
Proof.
  intros Hnd Hfresh. unfold claimEvents. cbn [fst].
  unfold by_createdAt at 1. rewrite sort_by_In, filter_In, in_map_iff.
  fold (picked now limit stale s). split.
  - intros ((x & Hx & Hin) & Hc).
    destruct (Lst.mem_Z (id x) _) eqn:Em.
    + exists x. split; [|now subst e]. now apply picked_mem in Em.
    + subst e. apply EventClaims.claimed_by_spec in Hc.
      exfalso. exact (Hfresh x Hin (proj2 Hc)).
  - intros (r & Hr & ->). pose proof (picked_pending _ _ _ _ _ Hr) as (Hin & Hp).
    split.
    + exists r. split; [|exact Hin].
      apply (picked_mem now limit stale s r Hnd Hin) in Hr. now rewrite Hr.
    + apply claimed_by_stamp. eapply pending_bob; eauto.
Qed.

Lemma claim_rows_ids now limit stale tok s :
  map id (rows (snd (claimEvents now limit stale tok s))) = map id (rows s).
Proof.
  unfold claimEvents. cbn [snd rows]. rewrite map_map. apply map_ext.
  intros r. now destruct (Lst.mem_Z _ _).
Qed.

Lemma claim_seq_kept now limit stale tok s :
  seq (snd (claimEvents now limit stale tok s)) = seq s.
Proof. reflexivity. Qed.

(** What becomes of a row of the table under a claim. *)
Lemma claim_row now limit stale tok s r :
  NoDup (map id (rows s)) -> In r (rows s) ->
  (In r (picked now limit stale s)
   /\ In (stamp now tok r) (rows (snd (claimEvents now limit stale tok s))))
  \/ (~ In r (picked now limit stale s)
      /\ In r (rows (snd (claimEvents now limit stale tok s)))).
Proof.
  intros Hnd Hr. unfold claimEvents. cbn [snd rows].
  fold (picked now limit stale s).
  destruct (Lst.mem_Z (id r) (map id (picked now limit stale s))) eqn:Em.
  - left. split; [now apply picked_mem in Em|].
    apply in_map_iff. exists r. now rewrite Em.
  - right. split.
    + intros H. apply (picked_mem now limit stale s r Hnd Hr) in H. congruence.
    + apply in_map_iff. exists r. now rewrite Em.
Qed.

(** Where a row of the table after a claim comes from. *)
Lemma claim_row_inv now limit stale tok s e :
  NoDup (map id (rows s)) ->
  In e (rows (snd (claimEvents now limit stale tok s))) ->
  (exists r, In r (picked now limit stale s) /\ e = stamp now tok r)
  \/ (In e (rows s) /\ ~ In e (picked now limit stale s)).
Proof.
  intros Hnd He. unfold claimEvents in He. cbn [snd rows] in He.
  fold (picked now limit stale s) in He.
  apply in_map_iff in He. destruct He as (x & Hx & Hin).
  destruct (Lst.mem_Z (id x) _) eqn:Em.
  - left. exists x. split; [now apply picked_mem in Em | now subst e].
  - right. subst e. split; [exact Hin|].
    intros H. apply (picked_mem now limit stale s x Hnd Hin) in H. congruence.
Qed.

Lemma picked_uncut now limit stale s r :
  uncut now limit stale s ->
  In r (rows s) -> is_pending (now - stale) r = true ->
  In r (picked now limit stale s).
Proof.
  intros Hu Hr Hp. unfold picked.
  assert (Lst.sql_limit limit
            (by_createdAt (filter (is_pending (now - stale)) (rows s)))
          = by_createdAt (filter (is_pending (now - stale)) (rows s))) as ->.
  { destruct Hu as [Hneg|Hle].
    - unfold Lst.sql_limit. apply Z.ltb_lt in Hneg. now rewrite Hneg.
    - apply sql_limit_all. unfold by_createdAt. now rewrite sort_by_length. }
  unfold by_createdAt. apply sort_by_In. apply filter_In. auto.
Qed.

Lemma stamp_not_pending now tok r sb :
  sb < now -> is_pending sb (stamp now tok r) = false.
Proof.
  intros H. unfold is_pending, stamp. cbn.
  apply Z.leb_gt in H. rewrite H. now rewrite andb_false_r.
Qed.

Lemma stamp_pending now tok r sb sb' :
  now <= sb' -> is_pending sb r = true -> is_pending sb' (stamp now tok r) = true.
Proof.
  intros H Hp. pose proof (pending_bob _ _ Hp) as Hb.
  pose proof (pending_unprocessed _ _ Hp) as Hu.
  unfold is_pending, stamp. cbn. rewrite Hb, Hu. cbn.
  now apply Z.leb_le.
Qed.

Lemma claim_keeps_fresh now limit stale tok tok' s :
  NoDup (map id (rows s)) -> tok <> tok' -> fresh tok' s ->
  fresh tok' (snd (claimEvents now limit stale tok s)).
Proof.
  intros Hnd Hne Hf e He.
  apply claim_row_inv in He; [|exact Hnd].
  destruct He as [(r & _ & ->)|(He & _)].
  - cbn. congruence.
  - now apply Hf.
Qed.

(** X17. Two claims that overlap in time share no event: while the first
    claim is not yet stale for the second ([now2 - staleAfterMs2 < now1]),
    no event of the second carries the id of an event of the first, and the
    events of the first are still in the table exactly as they were handed
    out, under the first token. *)
Theorem overlapping_claims_share_no_event
    now1 limit1 stale1 tok1 now2 limit2 stale2 tok2 s :
  NoDup (map id (rows s)) -> fresh tok1 s -> fresh tok2 s -> tok1 <> tok2 ->
  now2 - stale2 < now1 ->
  (forall e1 e2,
      In e1 (fst (claimEvents now1 limit1 stale1 tok1 s)) ->
      In e2 (fst (claimEvents now2 limit2 stale2 tok2
                    (snd (claimEvents now1 limit1 stale1 tok1 s)))) ->
      id e1 <> id e2)
  /\ (forall e1,
      In e1 (fst (claimEvents now1 limit1 stale1 tok1 s)) ->
      In e1 (rows (snd (claimEvents now2 limit2 stale2 tok2
                          (snd (claimEvents now1 limit1 stale1 tok1 s)))))).
Proof.
  intros Hnd Hf1 Hf2 Hne Hlt.
  set (s1 := snd (claimEvents now1 limit1 stale1 tok1 s)).
  assert (Hnd1 : NoDup (map id (rows s1))).
  { unfold s1. now rewrite claim_rows_ids. }
  assert (Hf21 : fresh tok2 s1) by (now apply claim_keeps_fresh).
  assert (Hin1 : forall e1, In e1 (fst (claimEvents now1 limit1 stale1 tok1 s)) ->
                 In e1 (rows s1) /\ is_pending (now2 - stale2) e1 = false).
  { intros e1 H1. apply claim_fst_In in H1; auto.
    destruct H1 as (r1 & Hr1 & ->). split.
    - pose proof (picked_pending _ _ _ _ _ Hr1) as (Hin & _).
      destruct (claim_row now1 limit1 stale1 tok1 s r1 Hnd Hin) as [(_ & H)|(H & _)];
        [exact H | contradiction].
    - now apply stamp_not_pending. }
  split.
  - intros e1 e2 H1 H2 Heq.
    destruct (Hin1 e1 H1) as (He1 & Hnp).
    apply claim_fst_In in H2; auto.
    destruct H2 as (r2 & Hr2 & ->).
    pose proof (picked_pending _ _ _ _ _ Hr2) as (Hin2 & Hp2).
    assert (e1 = r2) by (eapply SchedulerClaims.NoDup_map_inj; eauto).
    subst r2. congruence.
  - intros e1 H1. destruct (Hin1 e1 H1) as (He1 & Hnp).
    destruct (claim_row now2 limit2 stale2 tok2 s1 e1 Hnd1 He1) as [(H & _)|(_ & H)];
      [|exact H].
    apply picked_pending in H. destruct H as (_ & H). congruence.
Qed.

Lemma overlapping_claims_share_no_event_witness :
  map id (fst (claimEvents 6000000 1 1800000 "a" Sample.events3)) = [1]
  /\ map id (fst (claimEvents 6000001 20 1800000 "b"
                    (snd (claimEvents 6000000 1 1800000 "a" Sample.events3)))) = [2]
  /\ Forall (fun e1 =>
        Forall (fun e2 => id e1 <> id e2)
          (fst (claimEvents 6000001 20 1800000 "b"
                  (snd (claimEvents 6000000 1 1800000 "a" Sample.events3)))))
       (fst (claimEvents 6000000 1 1800000 "a" Sample.events3)).
Proof.
  split; [reflexivity|]. split; [reflexivity|].
  apply Forall_forall. intros e1 H1. apply Forall_forall. intros e2 H2.
  revert e1 e2 H1 H2.
  apply (overlapping_claims_share_no_event
           6000000 1 1800000 "a" 6000001 20 1800000 "b" Sample.events3).
  - cbn. repeat constructor; cbn; intuition discriminate.
  - intros r Hr. cbn in Hr.
    destruct Hr as [<-|[<-|[<-|[]]]]; cbn; discriminate.
  - intros r Hr. cbn in Hr.
    destruct Hr as [<-|[<-|[<-|[]]]]; cbn; discriminate.
  - discriminate.
  - lia.
Defined.

(** X18. A claim that has gone stale is taken over.  When the second claim
    comes [staleAfterMs2] or more after the first and its limit does not cut
    it, every event of the first claim is handed out again, now under the
    second token; after that the first token matches no row, so the first
    worker's [ackEvents] and [releaseClaim] change nothing and return 0. *)
Theorem stale_claim_is_taken_over
    now1 limit1 stale1 tok1 now2 limit2 stale2 tok2 ts s :
  NoDup (map id (rows s)) -> fresh tok1 s -> fresh tok2 s -> tok1 <> tok2 ->
  now1 <= now2 - stale2 ->
  uncut now2 limit2 stale2 (snd (claimEvents now1 limit1 stale1 tok1 s)) ->
  let s2 := snd (claimEvents now2 limit2 stale2 tok2
                   (snd (claimEvents now1 limit1 stale1 tok1 s))) in
  (forall e1,
      In e1 (fst (claimEvents now1 limit1 stale1 tok1 s)) ->
      In (stamp now2 tok2 e1)
         (fst (claimEvents now2 limit2 stale2 tok2
                 (snd (claimEvents now1 limit1 stale1 tok1 s)))))
  /\ ackEvents tok1 ts s2 = (0, s2)
  /\ releaseClaim tok1 s2 = (0, s2).
Proof.
  intros Hnd Hf1 Hf2 Hne Hle Hu.
  set (s1 := snd (claimEvents now1 limit1 stale1 tok1 s)) in *.
  assert (Hnd1 : NoDup (map id (rows s1))).
  { unfold s1. now rewrite claim_rows_ids. }
  assert (Hf21 : fresh tok2 s1) by (now apply claim_keeps_fresh).
  assert (Hagain : forall r1, In r1 (picked now1 limit1 stale1 s) ->
                   In (stamp now1 tok1 r1) (picked now2 limit2 stale2 s1)).
  { intros r1 Hr1. pose proof (picked_pending _ _ _ _ _ Hr1) as (Hin & Hp).
    apply picked_uncut; auto.
    - destruct (claim_row now1 limit1 stale1 tok1 s r1 Hnd Hin) as [(_ & H)|(H & _)];
        [exact H | contradiction].
    - eapply stamp_pending; eauto. }
  intros s2.
  assert (Hnone : forall e, In e (rows s2) -> claimed_by tok1 e = false).
  { intros e He. unfold s2 in He.
    apply claim_row_inv in He; [|exact Hnd1].
    destruct (claimed_by tok1 e) eqn:Ec; [exfalso|reflexivity].
    apply EventClaims.claimed_by_spec in Ec. destruct Ec as (_ & Ec).
    destruct He as [(r & _ & ->)|(He & Hnot)].
    - cbn in Ec. congruence.
    - apply claim_row_inv in He; [|exact Hnd].
      destruct He as [(r1 & Hr1 & ->)|(He & _)].
      + apply Hnot. now apply Hagain.
      + exact (Hf1 e He Ec). }
  split; [|split].
  - intros e1 H1. apply claim_fst_In in H1; auto.
    destruct H1 as (r1 & Hr1 & ->).
    apply claim_fst_In; auto.
    exists (stamp now1 tok1 r1). split; [now apply Hagain | reflexivity].
  - unfold ackEvents. rewrite EventClaims.filter_none by exact Hnone.
    rewrite EventClaims.map_unchanged.
    + now destruct s2.
    + intros x Hx. now rewrite (Hnone x Hx).
  - unfold releaseClaim. rewrite EventClaims.filter_none by exact Hnone.
    rewrite EventClaims.map_unchanged.
    + now destruct s2.
    + intros x Hx. now rewrite (Hnone x Hx).
Qed.

Lemma stale_claim_is_taken_over_witness :
  map id (fst (claimEvents 6000000 20 1800000 "a" Sample.events3)) = [1; 2]
  /\ map claimToken
        (fst (claimEvents 7800000 20 1800000 "b"
                (snd (claimEvents 6000000 20 1800000 "a" Sample.events3))))
     = [Some "b"; Some "b"; Some "b"]
  /\ fst (ackEvents "a" 7800001
            (snd (claimEvents 7800000 20 1800000 "b"
                    (snd (claimEvents 6000000 20 1800000 "a" Sample.events3))))) = 0.
Proof.
  split; [reflexivity|]. split; [reflexivity|].
  pose proof (stale_claim_is_taken_over
                6000000 20 1800000 "a" 7800000 20 1800000 "b" 7800001 Sample.events3)
    as H.
  cbv zeta in H.
  destruct H as (_ & H & _).
  - cbn. repeat constructor; cbn; intuition discriminate.
  - intros r Hr. cbn in Hr.
    destruct Hr as [<-|[<-|[<-|[]]]]; cbn; discriminate.
  - intros r Hr. cbn in Hr.
    destruct Hr as [<-|[<-|[<-|[]]]]; cbn; discriminate.
  - discriminate.
  - lia.
  - right. vm_compute. discriminate.
  - now rewrite H.
Defined.

Lemma fold_max_ge (l : list Z) (x : Z) : In x l -> x <= fold_right Z.max 0 l.
Proof.
  induction l as [|y l IH]; simpl; [tauto|].
  intros [->|H]; [lia|]. specialize (IH H). lia.
Qed.

Section Processed.

Variable JSON_parse : string -> option Json.JsValue.

Lemma apply_Done i tok s op :
  ~ claims_with tok op -> Done i tok s -> Done i tok (fst (apply JSON_parse s op)).
Proof.
  intros Hop (Hrows & Hseq). destruct op as [input clock|now limit stale t|t ts|t|days now];
    cbn [apply].
  - unfold addEvent. destruct (serializePayload _ _); cbn; [|split; auto].
    split; cbn; [|lia].
    intros r Hr Hi. apply in_app_or in Hr. destruct Hr as [Hr|[<-|[]]]; auto.
    cbn in Hi. lia.
  - cbn [fst]. split; [|exact Hseq].
    intros r Hr Hi. unfold claimEvents in Hr. cbn [snd rows] in Hr.
    apply in_map_iff in Hr. destruct Hr as (x & Hx & Hin).
    destruct (Lst.mem_Z (id x) _) eqn:Em.
    + exfalso. apply mem_Z_In in Em. apply in_map_iff in Em.
      destruct Em as (y & Hy & Hyin).
      apply sql_limit_In in Hyin. unfold by_createdAt in Hyin.
      apply sort_by_In in Hyin. apply filter_In in Hyin.
      destruct Hyin as (Hyin & Hp). apply pending_unprocessed in Hp.
      subst r. cbn in Hi.
      destruct (Hrows y Hyin) as (Hproc & _); [congruence|]. contradiction.
    + subst r. auto.
  - cbn [fst ackEvents snd]. split; [|exact Hseq].
    intros r Hr Hi. cbn [rows] in Hr.
    apply in_map_iff in Hr. destruct Hr as (x & Hx & Hin).
    destruct (claimed_by t x); subst r; [|auto].
    cbn in Hi. destruct (Hrows x Hin Hi) as (_ & Htok).
    split; [cbn; discriminate | exact Htok].
  - cbn [fst releaseClaim snd]. split; [|exact Hseq].
    intros r Hr Hi. cbn [rows] in Hr.
    apply in_map_iff in Hr. destruct Hr as (x & Hx & Hin).
    destruct (claimed_by t x); subst r; [|auto].
    cbn in Hi. destruct (Hrows x Hin Hi) as (Hproc & _).
    split; [exact Hproc | now right].
  - unfold pruneProcessedOlderThanDays. destruct (days <=? 0); cbn; [split; auto|].
    split; [|exact Hseq].
    intros r Hr Hi. apply filter_In in Hr. destruct Hr as (Hr & _). auto.
Qed.

Lemma claim_skips_Done i tok s now limit stale t e :
  t <> tok -> Done i tok s ->
  In e (fst (claimEvents now limit stale t s)) -> id e <> i.
Proof.
  intros Hne (Hrows & _) He Hi. unfold claimEvents in He. cbn [fst] in He.
  unfold by_createdAt in He. apply sort_by_In in He.
  apply filter_In in He. destruct He as (He & Hc).
  apply EventClaims.claimed_by_spec in Hc. destruct Hc as (_ & Hc).
  apply in_map_iff in He. destruct He as (x & Hx & Hin).
  destruct (Lst.mem_Z (id x) _) eqn:Em.
  - apply mem_Z_In in Em. apply in_map_iff in Em.
    destruct Em as (y & Hy & Hyin).
    apply sql_limit_In in Hyin. unfold by_createdAt in Hyin.
    apply sort_by_In in Hyin. apply filter_In in Hyin.
    destruct Hyin as (Hyin & Hp). apply pending_unprocessed in Hp.
    subst e. cbn in Hi.
    destruct (Hrows y Hyin) as (Hproc & _); [congruence|]. contradiction.
  - subst e. destruct (Hrows x Hin Hi) as (_ & [Ht|Ht]); congruence.
Qed.

Lemma run_skips_Done i tok ops : forall s,
  Forall (fun op => ~ claims_with tok op) ops -> Done i tok s ->
  forall batch e, In batch (snd (run JSON_parse s ops)) -> In e batch -> id e <> i.
Proof.
  induction ops as [|op ops IH]; intros s Hops Hd batch e Hb He; [contradiction|].
  inversion Hops as [|? ? Hop Hrest]; subst.
  pose proof (apply_Done i tok s op Hop Hd) as Hd'.
  cbn [run] in Hb.
  destruct (apply JSON_parse s op) as [s' out] eqn:Ea. cbn [fst] in Hd'.
  specialize (IH s' Hrest Hd').
  destruct (run JSON_parse s' ops) as [s'' outs]. cbn [snd] in *.
  destruct out as [events|]; [|eauto].
  destruct Hb as [<-|Hb]; [|eauto].
  destruct op as [input clock|now limit stale t|t ts|t|days now]; cbn [apply] in Ea.
  - destruct (addEvent _ _ _ _) as [[? ?]|]; discriminate.
  - destruct (claimEvents now limit stale t s) as [ev s1] eqn:Ec.
    injection Ea as <- <-.
    apply (claim_skips_Done i tok s now limit stale t e);
      [exact Hop | exact Hd | now rewrite Ec].
  - discriminate.
  - discriminate.
  - discriminate.
Qed.

(** X19. An acknowledged event is never handed out again.  After a claim
    under a new token and the [ackEvents] of that token, whatever is done to
    the table next (events added, claims under other tokens at any time and
    with any staleness, acks, releases, pruning), no later claim returns an
    event with the id of one of the acknowledged events. *)
Theorem acked_event_is_never_claimed_again now limit stale tok ts s ops :
  wf s -> fresh tok s ->
  Forall (fun op => ~ claims_with tok op) ops ->
  forall e batch e',
    In e (fst (claimEvents now limit stale tok s)) ->
    In batch
       (snd (run JSON_parse
               (snd (ackEvents tok ts (snd (claimEvents now limit stale tok s))))
               ops)) ->
    In e' batch -> id e' <> id e.
Proof.
  intros (Hnd & Hseq) Hf Hops e batch e' He Hb He'.
  eapply run_skips_Done; eauto.
  apply claim_fst_In in He; auto. destruct He as (r0 & Hr0 & ->).
  pose proof (picked_pending _ _ _ _ _ Hr0) as (Hin0 & Hp0).
  split.
  - intros r Hr Hi. cbn [ackEvents snd rows] in Hr.
    apply in_map_iff in Hr. destruct Hr as (x & Hx & Hin).
    assert (x = stamp now tok r0).
    { eapply SchedulerClaims.NoDup_map_inj.
      - rewrite claim_rows_ids. exact Hnd.
      - exact Hin.
      - destruct (claim_row now limit stale tok s r0 Hnd Hin0) as [(_ & H)|(H & _)];
          [exact H | contradiction].
      - destruct (claimed_by tok x); subst r; exact Hi. }
    subst x. rewrite claimed_by_stamp in Hx by (eapply pending_bob; eauto).
    subst r. cbn. split; [discriminate | now left].
  - cbn. now apply Hseq.
Qed.

End Processed.

Lemma acked_event_is_never_claimed_again_witness :
  map id (fst (claimEvents 6000000 20 1800000 "a" Sample.events3)) = [1; 2]
  /\ Forall (Forall (fun e' => id e' <> 1))
       (snd (run Sample.no_json
               (snd (ackEvents "a" 6000001
                       (snd (claimEvents 6000000 20 1800000 "a" Sample.events3))))
               [OpRelease "a"; OpClaim 9000000 20 0 "b"; OpPrune 1 100000000;
                OpClaim 200000000 (-1) 0 "c"])).
Proof.
  split; [reflexivity|].
  apply Forall_forall. intros batch Hb. apply Forall_forall. intros e' He'.
  change 1 with (id (stamp 6000000 "a" (Sample.event 1 42 None None))).
  eapply (acked_event_is_never_claimed_again Sample.no_json
            6000000 20 1800000 "a" 6000001 Sample.events3
            [OpRelease "a"; OpClaim 9000000 20 0 "b"; OpPrune 1 100000000;
             OpClaim 200000000 (-1) 0 "c"]).
  - split.
    + cbn. repeat constructor; cbn; intuition discriminate.
    + intros r Hr. cbn in Hr.
      destruct Hr as [<-|[<-|[<-|[]]]]; cbn; lia.
  - intros r Hr. cbn in Hr.
    destruct Hr as [<-|[<-|[<-|[]]]]; cbn; discriminate.
  - repeat constructor; cbn; try tauto; discriminate.
  - vm_compute. left. reflexivity.
  - exact Hb.
  - exact He'.
Defined.

Lemma filter_map_length {A B} (p : B -> bool) (q : A -> bool) (f : A -> B) l :
  (forall x, In x l -> p (f x) = q x) ->
  List.length (filter p (map f l)) = List.length (filter q l).
Proof.
  induction l as [|a l IH]; simpl; intros H; [reflexivity|].
  rewrite H by now left.
  destruct (q a); simpl; rewrite IH; auto.
Qed.

(** The rows a claim under a new token stamps are the rows it returns. *)
Lemma claim_length now limit stale tok s :
  NoDup (map id (rows s)) -> fresh tok s ->
  List.length (fst (claimEvents now limit stale tok s))
  = List.length
      (filter (fun r => Lst.mem_Z (id r) (map id (picked now limit stale s)))
              (rows s)).
Proof.
  intros Hnd Hf. unfold claimEvents. cbn [fst].
  unfold by_createdAt at 1. rewrite sort_by_length.
  fold (picked now limit stale s).
  apply filter_map_length. intros x Hx.
  destruct (Lst.mem_Z (id x) _) eqn:Em.
  - apply picked_mem in Em; auto. apply picked_pending in Em.
    apply claimed_by_stamp. eapply pending_bob. exact (proj2 Em).
  - destruct (claimed_by tok x) eqn:Ec; [|reflexivity].
    apply EventClaims.claimed_by_spec in Ec. exfalso. exact (Hf x Hx (proj2 Ec)).
Qed.

(** X20. Releasing a claim undoes it.  When the rows that were pending had
    never been claimed (no [claimed_at], no token), [releaseClaim] right
    after [claimEvents] returns the number of events the claim handed out
    and leaves the table exactly as it was before the claim. *)
Theorem release_undoes_claim now limit stale tok s :
  NoDup (map id (rows s)) -> fresh tok s ->
  (forall r, In r (rows s) -> is_pending (now - stale) r = true ->
             claimedAt r = None /\ claimToken r = None) ->
  releaseClaim tok (snd (claimEvents now limit stale tok s))
  = (Z.of_nat (List.length (fst (claimEvents now limit stale tok s))), s).
Proof.
  intros Hnd Hf Hnew. unfold releaseClaim. f_equal.
  - f_equal. unfold claimEvents. cbn [fst snd rows].
    unfold by_createdAt at 2. now rewrite sort_by_length.
  - unfold claimEvents. cbn [snd rows seq]. fold (picked now limit stale s).
    rewrite map_map. rewrite EventClaims.map_unchanged; [now destruct s|].
    intros x Hx. destruct (Lst.mem_Z (id x) _) eqn:Em.
    + apply picked_mem in Em; auto. apply picked_pending in Em.
      destruct Em as (_ & Hp).
      fold (stamp now tok x).
      rewrite claimed_by_stamp by (eapply pending_bob; eauto).
      destruct (Hnew x Hx Hp) as (Hc & Ht).
      destruct x; cbn in *. now subst.
    + destruct (claimed_by tok x) eqn:Ec; [|reflexivity].
      apply EventClaims.claimed_by_spec in Ec. exfalso. exact (Hf x Hx (proj2 Ec)).
Qed.

Lemma release_undoes_claim_witness :
  releaseClaim "a" (snd (claimEvents 6000000 20 1800000 "a" Sample.events3))
  = (2, Sample.events3).
Proof.
  apply (release_undoes_claim 6000000 20 1800000 "a" Sample.events3).
  - cbn. repeat constructor; cbn; intuition discriminate.
  - intros r Hr. cbn in Hr.
    destruct Hr as [<-|[<-|[<-|[]]]]; cbn; discriminate.
  - intros r Hr. cbn in Hr.
    destruct Hr as [<-|[<-|[<-|[]]]]; cbn; intros H; (discriminate || auto).
Defined.

(** X21. [countPending] counts what a claim would return: the number it
    gives at [now] is the number of events that a claim at the same [now],
    with the default staleness and a limit that does not cut it, hands
    out.  In particular it is positive exactly when such a claim is not
    empty. *)
Theorem countPending_is_size_of_next_claim now limit tok s :
  NoDup (map id (rows s)) -> fresh tok s ->
  uncut now limit DEFAULT_STALE_MS s ->
  countPending now s
  = Z.of_nat (List.length (fst (claimEvents now limit DEFAULT_STALE_MS tok s)))
  /\ (0 < countPending now s
      <-> fst (claimEvents now limit DEFAULT_STALE_MS tok s) <> []).
Proof.
  intros Hnd Hf Hu.
  assert (E : countPending now s
              = Z.of_nat (List.length (fst (claimEvents now limit DEFAULT_STALE_MS tok s)))).
  { unfold countPending. f_equal. rewrite claim_length by assumption.
    apply (f_equal (@List.length Event)). apply filter_ext_in. intros x Hx.
    destruct (is_pending (now - DEFAULT_STALE_MS) x) eqn:Ep.
    - symmetry. apply picked_mem; auto. now apply picked_uncut.
    - destruct (Lst.mem_Z (id x) _) eqn:Em; [|reflexivity].
      apply picked_mem in Em; auto. apply picked_pending in Em.
      destruct Em as (_ & Em). congruence. }
  split; [exact E|]. rewrite E.
  destruct (fst (claimEvents now limit DEFAULT_STALE_MS tok s)); cbn.
  - split; [lia | congruence].
  - split; [discriminate | lia].
Qed.

Lemma countPending_is_size_of_next_claim_witness :
  countPending 6000000 Sample.events3 = 2
  /\ List.length (fst (claimEvents 6000000 20 DEFAULT_STALE_MS "a" Sample.events3))
     = 2%nat.
Proof.
  split; [reflexivity|].
  apply Nat2Z.inj.
  rewrite <- (proj1 (countPending_is_size_of_next_claim
                       6000000 20 "a" Sample.events3
                       ltac:(cbn; repeat constructor; cbn; intuition discriminate)
                       ltac:(intros r Hr; cbn in Hr;
                             destruct Hr as [<-|[<-|[<-|[]]]]; cbn; discriminate)
                       ltac:(right; vm_compute; discriminate))).
  reflexivity.
Defined.

(** X22. Pruning only deletes processed rows of this bot that are older
    than the cutoff: for [days <= 0] nothing is deleted and 0 is returned;
    otherwise every row kept was there before, every unprocessed row is
    kept, every row kept that is processed and belongs to the bot was
    processed at or after [now - days * 86400000], and the number returned
    is the number of rows that went away.  Pruning changes neither
    [countPending] nor what [listEvents] shows of unprocessed events. *)
Theorem prune_keeps_unprocessed_events days now s :
  let s' := snd (pruneProcessedOlderThanDays days now s) in
  (days <= 0 -> pruneProcessedOlderThanDays days now s = (0, s))
  /\ (forall r, In r (rows s) -> processedAt r = None -> In r (rows s'))
  /\ (forall r, In r (rows s') ->
        In r (rows s)
        /\ (0 < days -> bobId r = BOB_ID ->
            forall t, processedAt r = Some t -> now - days * 86400000 <= t))
  /\ fst (pruneProcessedOlderThanDays days now s)
     = Z.of_nat (List.length (rows s)) - Z.of_nat (List.length (rows s'))
  /\ (forall t, countPending t s' = countPending t s)
  /\ listEvents false s' = listEvents false s.
Proof.
  intros s'. subst s'. unfold pruneProcessedOlderThanDays.
  destruct (Z.leb_spec days 0) as [Hle|Hgt]; cbn [fst snd rows].
  - repeat split; auto; try lia.
  - set (cutoff := now - days * 86400000).
    assert (Hkeep : forall p : Event -> bool,
               (forall r, p r = true -> processedAt r = None) ->
               filter p (filter (fun r => negb (prunable cutoff r)) (rows s))
               = filter p (rows s)).
    { intros p Hp. induction (rows s) as [|a l IH]; simpl; [reflexivity|].
      destruct (prunable cutoff a) eqn:Epr; simpl.
      - destruct (p a) eqn:Epa; [|exact IH].
        apply Hp in Epa. unfold prunable in Epr. rewrite Epa in Epr.
        now rewrite andb_false_r in Epr.
      - destruct (p a); simpl; now rewrite IH. }
    split; [lia|]. split; [|split; [|split; [|split]]].
    + intros r Hr Hn. apply filter_In. split; [exact Hr|].
      unfold prunable. rewrite Hn. now rewrite andb_false_r.
    + intros r Hr. apply filter_In in Hr. destruct Hr as (Hr & Hnp).
      split; [exact Hr|]. intros _ Hb t Ht.
      unfold prunable in Hnp. rewrite Ht in Hnp.
      apply String.eqb_eq in Hb. rewrite Hb in Hnp. cbn in Hnp.
      apply negb_true_iff, Z.ltb_ge in Hnp. exact Hnp.
    + pose proof (filter_length (prunable cutoff) (rows s)) as H.
      lia.
    + intros t. unfold countPending. cbn [rows]. f_equal. f_equal.
      apply Hkeep. intros r. apply pending_unprocessed.
    + unfold listEvents. cbn [rows]. f_equal.
      apply Hkeep. intros r Hr. apply andb_prop in Hr. destruct Hr as (_ & Hr).
      cbn in Hr. now destruct (processedAt r).
Qed.

End EventExtras.

(** ** The dispatcher *)

Module DispatcherExtras.

Import Events Dispatcher Groups EventQueries.

Lemma same_thread_eq a b : same_thread a b = true <-> a = b.
Proof.
  destruct a as [x|], b as [y|]; cbn; try (intuition congruence).
  rewrite Z.eqb_eq. intuition congruence.
Qed.

Lemma in_group_key g e : in_group g e = true <-> key g = key_of e.
Proof.
  unfold in_group, key, key_of.
  rewrite andb_true_iff, Z.eqb_eq, same_thread_eq. intuition congruence.
Qed.

Lemma in_group_same_key g g' e : key g = key g' -> in_group g e = in_group g' e.
Proof.
  unfold key, in_group. intros H. injection H as -> ->. reflexivity.
Qed.

Lemma addToGroups_keys e gs :
  map key (addToGroups e gs)
  = if existsb (fun g => in_group g e) gs then map key gs
    else map key gs ++ [key_of e].
Proof.
  induction gs as [|g gs IH]; cbn; [reflexivity|].
  fold (in_group g e). destruct (in_group g e) eqn:Eg; cbn; [reflexivity|].
  rewrite IH. now destruct (existsb _ gs).
Qed.

Lemma addToGroups_In e gs g' :
  NoDup (map key gs) -> In g' (addToGroups e gs) ->
  (exists g, In g gs /\ key g' = key g
             /\ g_events g' = g_events g ++ (if in_group g e then [e] else []))
  \/ (existsb (fun g => in_group g e) gs = false
      /\ g' = mkGroup (chatId e) (threadId e) [e]).
Proof.
  induction gs as [|g gs IH]; cbn [addToGroups]; intros Hnd Hin.
  - right. destruct Hin as [<-|[]]. split; reflexivity.
  - fold (in_group g e) in *. inversion Hnd as [|? ? Hnot Hnd']; subst.
    destruct (in_group g e) eqn:Eg.
    + left. destruct Hin as [<-|Hin].
      * exists g. split; [now left|]. now rewrite Eg.
      * exists g'. split; [now right|]. split; [reflexivity|].
        destruct (in_group g' e) eqn:Eg'; [|now rewrite app_nil_r].
        exfalso. apply Hnot. apply in_group_key in Eg, Eg'.
        rewrite Eg, <- Eg'. now apply in_map.
    + destruct Hin as [<-|Hin].
      * left. exists g. split; [now left|]. rewrite Eg.
        now rewrite app_nil_r.
      * destruct (IH Hnd' Hin) as [(g0 & Hg0 & Hk & Hev)|(Hex & ->)].
        -- left. exists g0. split; [now right|]. auto.
        -- right. cbn. fold (in_group g e). now rewrite Eg, Hex.
Qed.

Lemma addToGroups_Grouped e done gs :
  Grouped done gs -> Grouped (done ++ [e]) (addToGroups e gs).
Proof.
  intros (Hnd & Hev & Hcov). split; [|split].
  - rewrite addToGroups_keys.
    destruct (existsb (fun g => in_group g e) gs) eqn:Ex; [exact Hnd|].
    apply NoDup_app; repeat split; auto.
    + repeat constructor. tauto.
    + intros k Hk [<-|[]]. apply in_map_iff in Hk.
      destruct Hk as (g & Hg & Hin).
      assert (in_group g e = true) by (now apply in_group_key).
      assert (existsb (fun g => in_group g e) gs = true)
        by (apply existsb_exists; eauto).
      congruence.
  - intros g' Hin. apply addToGroups_In in Hin; [|exact Hnd].
    rewrite filter_app. cbn [filter].
    destruct Hin as [(g & Hg & Hk & He)|(Hex & ->)].
    + destruct (Hev g Hg) as (Hf & Hne).
      rewrite (in_group_same_key g' g e Hk).
      rewrite (filter_ext _ _ (fun x => in_group_same_key g' g x Hk)).
      rewrite He, <- Hf. split; [reflexivity|].
      destruct (g_events g); [contradiction | discriminate].
    + assert (filter (in_group (mkGroup (chatId e) (threadId e) [e])) done = [])
        as ->.
      { apply EventClaims.filter_none. intros x Hx.
        destruct (Hcov x Hx) as (g & Hg & Hgx).
        destruct (in_group (mkGroup (chatId e) (threadId e) [e]) x) eqn:Ex;
          [|reflexivity].
        apply in_group_key in Ex, Hgx. cbn in Ex.
        assert (in_group g e = true).
        { apply in_group_key. unfold key, key_of in *. cbn in *. congruence. }
        assert (existsb (fun g => in_group g e) gs = true)
          by (apply existsb_exists; eauto).
        congruence. }
      assert (in_group (mkGroup (chatId e) (threadId e) [e]) e = true) as ->
        by (now apply in_group_key).
      cbn. split; [reflexivity | discriminate].
  - assert (Hkeys : forall k, In k (map key gs) ->
                    In k (map key (addToGroups e gs))).
    { intros k Hk. rewrite addToGroups_keys.
      destruct (existsb _ gs); [exact Hk | apply in_or_app; now left]. }
    intros x Hx. apply in_app_or in Hx. destruct Hx as [Hx|[<-|[]]].
    + destruct (Hcov x Hx) as (g & Hg & Hgx).
      assert (In (key g) (map key (addToGroups e gs)))
        by (apply Hkeys; now apply in_map).
      apply in_map_iff in H. destruct H as (g' & Hk' & Hg').
      exists g'. split; [exact Hg'|].
      now rewrite (in_group_same_key g' g x Hk').
    + assert (In (key_of e) (map key (addToGroups e gs))).
      { rewrite addToGroups_keys.
        destruct (existsb (fun g => in_group g e) gs) eqn:Ex.
        - apply existsb_exists in Ex. destruct Ex as (g & Hg & Hgx).
          apply in_group_key in Hgx. rewrite <- Hgx. now apply in_map.
        - apply in_or_app. right. now left. }
      apply in_map_iff in H. destruct H as (g' & Hk' & Hg').
      exists g'. split; [exact Hg'|]. now apply in_group_key.
Qed.

Lemma fold_Grouped events : forall done gs,
  Grouped done gs ->
  Grouped (done ++ events) (fold_left (fun gs e => addToGroups e gs) events gs).
Proof.
  induction events as [|e events IH]; intros done gs H; cbn.
  - now rewrite app_nil_r.
  - replace (done ++ e :: events) with ((done ++ [e]) ++ events)
      by (now rewrite <- app_assoc).
    apply IH. now apply addToGroups_Grouped.
Qed.

Lemma groupEvents_Grouped events : Grouped events (groupEvents events).
Proof.
  apply (fold_Grouped events [] []). split; [constructor|].
  split; intros ? [].
Qed.

(** The groups hold the events, each once. *)
Lemma Grouped_length done : forall gs,
  NoDup (map key gs) ->
  (forall g, In g gs -> g_events g = filter (in_group g) done) ->
  (forall e, In e done -> exists g, In g gs /\ in_group g e = true) ->
  List.length (List.concat (map g_events gs)) = List.length done.
Proof.
  induction done as [|e done IH]; intros gs Hnd Hev Hcov.
  - assert (map g_events gs = map (fun _ => []) gs) as ->.
    { apply map_ext_in. intros g Hg. now rewrite (Hev g Hg). }
    clear. induction gs as [|g gs IHgs]; [reflexivity | exact IHgs].
  - destruct (Hcov e (or_introl eq_refl)) as (g0 & Hg0 & Hg0e).
    apply in_split in Hg0. destruct Hg0 as (l1 & l2 & ->).
    assert (Hother : forall g, In g (l1 ++ l2) -> in_group g e = false).
    { intros g Hg. destruct (in_group g e) eqn:Eg; [|reflexivity]. exfalso.
      apply in_group_key in Eg, Hg0e.
      rewrite map_app in Hnd. cbn in Hnd.
      apply NoDup_remove_2 in Hnd. apply Hnd.
      rewrite <- map_app. rewrite Hg0e, <- Eg. now apply in_map. }
    rewrite map_app, concat_app. cbn [map List.concat].
    rewrite !length_app.
    rewrite (Hev g0) by (apply in_or_app; right; now left).
    cbn [filter]. rewrite Hg0e. cbn [List.length].
    set (g0' := mkGroup (g_chatId g0) (g_threadId g0) (filter (in_group g0) done)).
    assert (IH' : List.length (List.concat (map g_events (l1 ++ g0' :: l2)))
                  = List.length done); [apply IH | ].
    + rewrite map_app in *. cbn [map] in *. exact Hnd.
    + intros g Hg. apply in_app_or in Hg. destruct Hg as [Hg|[<-|Hg]].
      * rewrite (Hev g) by (apply in_or_app; now left). cbn [filter].
        rewrite Hother by (apply in_or_app; now left). reflexivity.
      * reflexivity.
      * rewrite (Hev g) by (apply in_or_app; right; now right). cbn [filter].
        rewrite Hother by (apply in_or_app; now right). reflexivity.
    + intros x Hx. destruct (Hcov x (or_intror Hx)) as (g & Hg & Hgx).
      apply in_app_or in Hg. destruct Hg as [Hg|[<-|Hg]].
      * exists g. split; [apply in_or_app; now left | exact Hgx].
      * exists g0'. split; [apply in_or_app; right; now left | exact Hgx].
      * exists g. split; [apply in_or_app; right; now right | exact Hgx].
    + rewrite map_app, concat_app in IH'. cbn [map List.concat] in IH'.
      rewrite !length_app in IH'. subst g0'. cbn [g_events] in IH'. lia.
Qed.

(** X23. [groupEvents] splits the events by chat and thread: no two groups
    have the same chat and thread; the events of a group are exactly the
    events of that chat and thread, in the order they came in, and there is
    at least one; every event is in a group; and the groups together hold
    as many events as came in. *)
Theorem groupEvents_partitions_by_chat_and_thread events :
  NoDup (map key (groupEvents events))
  /\ (forall g, In g (groupEvents events) ->
        g_events g
        = filter (fun e => (chatId e =? g_chatId g)
                           && same_thread (threadId e) (g_threadId g)) events
        /\ g_events g <> [])
  /\ (forall e, In e events ->
        exists g, In g (groupEvents events)
                  /\ g_chatId g = chatId e /\ g_threadId g = threadId e
                  /\ In e (g_events g))
  /\ List.length (List.concat (map g_events (groupEvents events)))
     = List.length events.
Proof.
  destruct (groupEvents_Grouped events) as (Hnd & Hev & Hcov).
  split; [exact Hnd|]. split; [|split].
  - intros g Hg. destruct (Hev g Hg) as (Hf & Hne). split; [|exact Hne].
    rewrite Hf. apply filter_ext. intros e. unfold in_group.
    rewrite Z.eqb_sym. f_equal.
    destruct (threadId e), (g_threadId g); cbn; auto using Z.eqb_sym.
  - intros e He. destruct (Hcov e He) as (g & Hg & Hge).
    exists g. split; [exact Hg|].
    pose proof Hge as Hk. apply in_group_key in Hk.
    unfold key, key_of in Hk. injection Hk as Hc Ht.
    repeat split; auto.
    rewrite (proj1 (Hev g Hg)). apply filter_In. auto.
  - apply Grouped_length; auto. intros g Hg. exact (proj1 (Hev g Hg)).
Qed.

Lemma groups_at_most_events (gs : list Group) :
  (forall g, In g gs -> g_events g <> []) ->
  (List.length gs <= List.length (List.concat (map g_events gs)))%nat.
Proof.
  induction gs as [|g gs IH]; intros H; cbn [map List.concat List.length]; [lia|].
  rewrite length_app.
  assert (g_events g <> []) by (apply H; now left).
  assert (List.length gs <= List.length (List.concat (map g_events gs)))%nat
    by (apply IH; intros; apply H; now right).
  destruct (g_events g); [contradiction | cbn [List.length]; lia].
Qed.

Lemma claim_count now limit stale tok s :
  NoDup (map id (rows s)) -> fresh tok s -> 0 <= limit ->
  Z.of_nat (List.length (fst (claimEvents now limit stale tok s)))
  = Z.min limit
      (Z.of_nat (List.length (filter (is_pending (now - stale)) (rows s)))).
Proof.
  intros Hnd Hf Hl.
  assert (Hids : NoDup (map id (EventQueries.picked now limit stale s))).
  { unfold EventQueries.picked, by_createdAt.
    apply sql_limit_NoDup_map, sort_by_NoDup_map, filter_NoDup_map. exact Hnd. }
  assert (E : Permutation (fst (claimEvents now limit stale tok s))
                          (map (stamp now tok) (EventQueries.picked now limit stale s))).
  { apply NoDup_Permutation.
    - unfold claimEvents. cbn [fst]. unfold by_createdAt at 1.
      eapply Permutation_NoDup; [apply Permutation_sym, sort_by_perm|].
      apply (NoDup_map_inv id). apply filter_NoDup_map.
      rewrite map_map.
      erewrite map_ext; [exact Hnd|].
      intros r. cbn. now destruct (Lst.mem_Z _ _).
    - apply (NoDup_map_inv id). rewrite map_map. cbn. exact Hids.
    - intros e. rewrite EventExtras.claim_fst_In by assumption.
      rewrite in_map_iff. split; intros (r & H1 & H2); exists r; auto. }
  rewrite (Permutation_length E), length_map.
  unfold EventQueries.picked, Lst.sql_limit.
  destruct (Z.ltb_spec limit 0); [lia|].
  rewrite length_firstn. unfold by_createdAt. rewrite sort_by_length. lia.
Qed.

Section Counts.

Variable dispatch : Group -> result Reply.

Lemma dispatchGroups_bounds gs : forall n m,
  dispatchGroups dispatch gs n = Ok m ->
  n <= m <= n + Z.of_nat (List.length gs).
Proof.
  induction gs as [|g gs IH]; intros n m H; cbn in H.
  - injection H as <-. cbn. lia.
  - destruct (dispatch g) as [reply|msg]; cbn in H; [|discriminate].
    apply IH in H. cbn [List.length].
    destruct (didSend reply || didReact reply); lia.
Qed.

(** X24. What [processEvents] reports.  With the heartbeat off it makes no
    call on the event store.  With nothing pending it only claims, and the
    table stays as it was.  When it returns, [processed] is the number of
    pending events, or 20 when more than 20 are pending, and [sent] lies
    between 0 and [processed] (there are no more groups than events). *)
Theorem processEvents_counts_the_claimed_events now token ackTime s :
  NoDup (map id (rows s)) -> fresh token s ->
  (forall s' calls r,
      processEvents dispatch true now token ackTime s = (s', calls, Ok r) ->
      processed r = Z.min 20 (countPending now s)
      /\ 0 <= sent r <= processed r)
  /\ (countPending now s = 0 ->
      processEvents dispatch true now token ackTime s
      = (s, [CallClaim token], Ok (mkResult 0 0)))
  /\ processEvents dispatch false now token ackTime s = (s, [], Ok (mkResult 0 0)).
Proof.
  intros Hnd Hf.
  pose proof (claim_count now 20 DEFAULT_STALE_MS token s Hnd Hf ltac:(lia)) as Hc.
  fold (countPending now s) in Hc.
  split; [|split; [|reflexivity]].
  - intros s' calls r H. unfold processEvents in H. cbn [negb] in H.
    destruct (claimEvents now 20 DEFAULT_STALE_MS token s) as [events s1] eqn:Ec.
    cbn [fst] in Hc.
    destruct events as [|e events].
    + injection H as _ _ <-. cbn in *. lia.
    + destruct (dispatchGroups dispatch (groupEvents (e :: events)) 0) as [n|msg] eqn:Ed;
        [|discriminate].
      injection H as _ _ <-. cbn [processed sent].
      split; [exact Hc|].
      apply dispatchGroups_bounds in Ed.
      destruct (groupEvents_Grouped (e :: events)) as (Hk & Hev & Hcov).
      pose proof (groups_at_most_events (groupEvents (e :: events))
                    (fun g Hg => proj2 (Hev g Hg))) as Hle.
      rewrite (Grouped_length (e :: events) (groupEvents (e :: events)) Hk
                 (fun g Hg => proj1 (Hev g Hg)) Hcov) in Hle.
      cbn [List.length] in Hle. rewrite Zpos_P_of_succ_nat. lia.
  - intros H0. unfold countPending in H0.
    assert (Hnil : filter (is_pending (now - DEFAULT_STALE_MS)) (rows s) = []).
    { destruct (filter _ (rows s)); [reflexivity | cbn in H0; lia]. }
    unfold processEvents, claimEvents. cbn [negb]. rewrite Hnil.
    assert (Lst.sql_limit 20 (by_createdAt (@nil Event)) = []) as -> by reflexivity.
    cbn [map Lst.mem_Z existsb].
    rewrite EventClaims.map_unchanged by reflexivity.
    rewrite EventClaims.filter_none.
    + cbn. now destruct s.
    + intros x Hx. destruct (claimed_by token x) eqn:Ex; [|reflexivity].
      apply EventClaims.claimed_by_spec in Ex. exfalso. exact (Hf x Hx (proj2 Ex)).
Qed.

End Counts.

Lemma processEvents_counts_the_claimed_events_witness :
  processEvents Sample.dispatch_ok true 6000000 "a" 6000001 Sample.events3
  = (snd (ackEvents "a" 6000001
            (snd (claimEvents 6000000 20 DEFAULT_STALE_MS "a" Sample.events3))),
     [CallClaim "a"; CallAck "a"], Ok (mkResult 2 2))
  /\ 2 = Z.min 20 (countPending 6000000 Sample.events3).
Proof.
  assert (E : processEvents Sample.dispatch_ok true 6000000 "a" 6000001 Sample.events3
              = (snd (ackEvents "a" 6000001
                        (snd (claimEvents 6000000 20 DEFAULT_STALE_MS "a"
                                Sample.events3))),
                 [CallClaim "a"; CallAck "a"], Ok (mkResult 2 2)))
    by reflexivity.
  split; [exact E|].
  exact (proj1 (proj1 (processEvents_counts_the_claimed_events
                         Sample.dispatch_ok 6000000 "a" 6000001 Sample.events3
                         ltac:(cbn; repeat constructor; cbn; intuition discriminate)
                         ltac:(intros r Hr; cbn in Hr;
                               destruct Hr as [<-|[<-|[<-|[]]]]; cbn; discriminate))
                      _ _ _ E)).
Defined.

End DispatcherExtras.

(** ** Recall search *)

Module RecallExtras.

Import Recall Fusion RecallFacts.

Lemma occurs_In h hits : In h hits -> occurs (id h) hits = true.
Proof.
  intros H. apply existsb_exists. exists h. split; [exact H | apply Z.eqb_refl].
Qed.

(** X25. [search] outside the fusion.  For a limit that is not negative the
    result never has more than [limit] hits.  When one of the two searches
    found nothing, the result is the first [limit] hits of the other, in
    that search's order and with that search's own scores, tagged with it.
    In every case the tag of a hit tells which searches found its chunk:
    [hybrid] when both did, else [fts] or [vector]; and no hit is returned
    that neither search found. *)
Theorem search_tags_tell_the_finders limit fts vec :
  0 <= limit ->
  (List.length (search limit fts vec) <= Z.to_nat limit)%nat
  /\ (fts = [] ->
      search limit fts vec
      = map (fun h => mkSearchResult h Vector) (firstn (Z.to_nat limit) vec))
  /\ (vec = [] ->
      search limit fts vec
      = map (fun h => mkSearchResult h Fts) (firstn (Z.to_nat limit) fts))
  /\ (forall r, In r (search limit fts vec) ->
        matchType r = tag_of (id (hit r)) fts vec
        /\ (occurs (id (hit r)) fts = true \/ occurs (id (hit r)) vec = true)).
Proof.
  intros Hl. split; [|split; [|split]].
  - unfold search. destruct fts, vec; cbn [List.length]; try lia;
      rewrite length_map, js_slice0_nonneg by exact Hl;
      apply firstn_le_length.
  - intros ->. unfold search. destruct vec; [now rewrite firstn_nil|].
    now rewrite js_slice0_nonneg.
  - intros ->. unfold search. destruct fts; [now rewrite firstn_nil|].
    now rewrite js_slice0_nonneg.
  - intros r Hr. unfold search in Hr.
    destruct fts as [|f fts']; [destruct vec as [|v vec']; [contradiction|]|
                                destruct vec as [|v vec']].
    + apply in_map_iff in Hr. destruct Hr as (h & <- & Hh).
      rewrite js_slice0_nonneg in Hh by exact Hl. apply firstn_In in Hh.
      cbn [matchType hit]. unfold tag_of.
      change (occurs (id h) []) with false. cbv iota.
      split; [reflexivity|]. right. now apply occurs_In.
    + apply in_map_iff in Hr. destruct Hr as (h & <- & Hh).
      rewrite js_slice0_nonneg in Hh by exact Hl. apply firstn_In in Hh.
      cbn [matchType hit]. unfold tag_of.
      rewrite (occurs_In h _ Hh).
      change (occurs (id h) []) with false. cbv iota.
      split; [reflexivity|]. now left.
    + set (scores := accumulate Vector 0 (v :: vec')
                       (accumulate Fts 0 (f :: fts') [])) in *.
      assert (Hnd : NoDup (map eid scores)).
      { unfold scores. apply accumulate_NoDup, accumulate_NoDup. constructor. }
      apply in_map_iff in Hr. destruct Hr as (e & <- & He).
      rewrite js_slice0_nonneg in He by exact Hl. apply firstn_In in He.
      unfold ranked in He. apply sort_by_In in He.
      destruct (member_lookup scores e Hnd He) as (_ & Ht).
      assert (Hheld : held (eid e) scores = true)
        by (apply held_In; now apply in_map).
      unfold scores in Hheld. rewrite !accumulate_held in Hheld.
      cbn [held existsb orb] in Hheld.
      cbn [tag hit matchType with_score id]. fold (eid e).
      split.
      * rewrite <- Ht. unfold scores, tag_of.
        rewrite !accumulate_types. cbn [types_in].
        destruct (occurs (eid e) (f :: fts')), (occurs (eid e) (v :: vec'));
          try reflexivity; discriminate.
      * apply orb_true_iff. exact Hheld.
Qed.

Lemma search_tags_tell_the_finders_witness :
  search 1 [] [Sample.chunkB; Sample.chunkA]
  = [mkSearchResult Sample.chunkB Vector].
Proof.
  exact (proj1 (proj2 (search_tags_tell_the_finders
                         1 [] [Sample.chunkB; Sample.chunkA] ltac:(lia)))
               eq_refl).
Defined.

End RecallExtras.

(** ** Silent replies *)

Module DirectiveExtras.

Import Directives.

Lemma drop_space_hd l a r :
  Str.drop_space l = a :: r -> Str.is_space a = false.
Proof.
  induction l as [|c l IH]; cbn; [discriminate|].
  destruct (Str.is_space c) eqn:Ec; [exact IH|].
  intros H. injection H as <- _. exact Ec.
Qed.

Lemma drop_space_suffix l : exists p, l = p ++ Str.drop_space l.
Proof.
  induction l as [|c l (p & IH)]; cbn; [now exists []|].
  destruct (Str.is_space c).
  - exists (c :: p). cbn. now rewrite <- IH.
  - now exists [].
Qed.

Lemma drop_space_nil l :
  Str.drop_space l = [] <-> forallb Str.is_space l = true.
Proof.
  induction l as [|c l IH]; cbn; [tauto|].
  destruct (Str.is_space c); cbn; [exact IH|].
  split; discriminate.
Qed.

Lemma forallb_reversed {A} (f : A -> bool) l :
  forallb f (rev l) = forallb f l.
Proof.
  induction l as [|a l IH]; cbn; [reflexivity|].
  rewrite forallb_app, IH. cbn. rewrite andb_true_r. apply andb_comm.
Qed.

Lemma trim_list_nil l :
  Str.trim_list l = [] <-> forallb Str.is_space l = true.
Proof.
  unfold Str.trim_list. split.
  - intros H. apply (f_equal (@rev ascii)) in H. rewrite rev_involutive in H.
    cbn in H. apply drop_space_nil in H. rewrite forallb_reversed in H.
    destruct (Str.drop_space l) as [|a r] eqn:Ed; [now apply drop_space_nil|].
    apply drop_space_hd in Ed. cbn in H. rewrite Ed in H. discriminate.
  - intros H. apply drop_space_nil in H. now rewrite H.
Qed.

Lemma trim_list_hd l a r :
  Str.trim_list l = a :: r -> Str.is_space a = false.
Proof.
  unfold Str.trim_list. intros H.
  apply (f_equal (@rev ascii)) in H. rewrite rev_involutive in H.
  cbn [rev] in H.
  destruct (drop_space_suffix (rev (Str.drop_space l))) as (p & Hp).
  rewrite H in Hp. apply (f_equal (@rev ascii)) in Hp.
  rewrite rev_involutive, !rev_app_distr, rev_involutive in Hp. cbn in Hp.
  now apply drop_space_hd in Hp.
Qed.

Lemma trim_list_last l r z :
  Str.trim_list l = r ++ [z] -> Str.is_space z = false.
Proof.
  unfold Str.trim_list. intros H.
  apply (f_equal (@rev ascii)) in H. rewrite rev_involutive in H.
  rewrite rev_app_distr in H. cbn in H.
  now apply drop_space_hd in H.
Qed.

Lemma blank_spec s :
  ReplyStream.blank s = true
  <-> forallb Str.is_space (list_ascii_of_string s) = true.
Proof.
  unfold ReplyStream.blank, Str.trim. rewrite String.eqb_eq, <- trim_list_nil.
  split.
  - intros H. apply (f_equal list_ascii_of_string) in H.
    now rewrite list_ascii_of_string_of_list_ascii in H.
  - now intros ->.
Qed.

Lemma prefix_app p : forall s,
  String.prefix p s = true -> exists r, s = (p ++ r)%string.
Proof.
  induction p as [|a p IH]; intros s H.
  - now exists s.
  - destruct s as [|b s]; cbn in H; [discriminate|].
    destruct (ascii_dec a b) as [->|]; [|discriminate].
    destruct (IH s H) as (r & ->). now exists r.
Qed.

Lemma substring_skip a : forall m b,
  String.substring (String.length a) m (a ++ b) = String.substring 0 m b.
Proof. induction a as [|c a IH]; intros m b; cbn; auto. Qed.

Lemma substring_all b : String.substring 0 (String.length b) b = b.
Proof. induction b as [|c b IH]; cbn; [reflexivity | now rewrite IH]. Qed.

Lemma substring_front a : forall b,
  String.substring 0 (String.length a) (a ++ b) = a.
Proof.
  induction a as [|c a IH]; intros b; cbn.
  - now destruct b.
  - now rewrite IH.
Qed.

Lemma length_app_string a b :
  String.length (a ++ b) = (String.length a + String.length b)%nat.
Proof. induction a as [|c a IH]; cbn; [reflexivity | now rewrite IH]. Qed.

Lemma append_assoc_string a b c : ((a ++ b) ++ c = a ++ (b ++ c))%string.
Proof. induction a as [|x a IH]; cbn; [reflexivity | now rewrite IH]. Qed.

Lemma slice_from_app a b :
  ReplyStream.slice_from (String.length a) (a ++ b) = b.
Proof.
  unfold ReplyStream.slice_from. rewrite substring_skip, length_app_string.
  replace (String.length a + String.length b - String.length a)%nat
    with (String.length b) by lia.
  apply substring_all.
Qed.

Lemma slice_off_app a b :
  slice_off (String.length b) (a ++ b) = a.
Proof.
  unfold slice_off. rewrite length_app_string.
  replace (String.length a + String.length b - String.length b)%nat
    with (String.length a) by lia.
  apply substring_front.
Qed.

Lemma ends_with_app p s :
  ends_with p s = true -> exists r, s = (r ++ p)%string.
Proof.
  unfold ends_with. intros H. apply prefix_app in H. destruct H as (r & H).
  apply (f_equal list_ascii_of_string) in H.
  rewrite TrimFacts.list_of_append, !list_ascii_of_string_of_list_ascii in H.
  apply (f_equal (@rev ascii)) in H.
  rewrite rev_involutive, rev_app_distr, rev_involutive in H.
  exists (string_of_list_ascii (rev (list_ascii_of_string r))).
  rewrite <- (string_of_list_ascii_of_string s), H.
  rewrite <- (string_of_list_ascii_of_string p) at 2.
  generalize (rev (list_ascii_of_string r)) (list_ascii_of_string p).
  intros x y. induction x as [|c x IH]; cbn; [reflexivity | now rewrite IH].
Qed.

(** In trimmed text nothing but white space follows a token only when
    nothing follows it, and the same in front of it: the second and third
    test of the loop never succeed. *)
Lemma trimmed_tests_fail text token :
  (String.prefix (token ++ " ") (Str.trim text)
   && ReplyStream.blank
        (ReplyStream.slice_from (String.length token) (Str.trim text)) = false)
  /\ (ends_with (" " ++ token) (Str.trim text)
      && ReplyStream.blank (slice_off (String.length token) (Str.trim text))
      = false).
Proof.
  set (l := Str.trim_list (list_ascii_of_string text)).
  assert (Hl : list_ascii_of_string (Str.trim text) = l)
    by (unfold Str.trim; apply list_ascii_of_string_of_list_ascii).
  split.
  - destruct (String.prefix _ _) eqn:Ep; [cbn [andb]|reflexivity].
    apply prefix_app in Ep. destruct Ep as (r & Er).
    rewrite append_assoc_string in Er. rewrite Er, slice_from_app.
    destruct (ReplyStream.blank (" " ++ r)) eqn:Eb; [exfalso|reflexivity].
    apply blank_spec in Eb.
    apply (f_equal list_ascii_of_string) in Er. rewrite Hl in Er.
    rewrite TrimFacts.list_of_append in Er.
    destruct (exists_last (l := list_ascii_of_string (" " ++ r)))
      as (m & z & Em); [discriminate|].
    rewrite Em in Er, Eb. rewrite app_assoc in Er.
    apply trim_list_last in Er.
    rewrite forallb_app in Eb. cbn in Eb. rewrite Er in Eb.
    now rewrite andb_false_r in Eb.
  - destruct (ends_with _ _) eqn:Ep; [cbn [andb]|reflexivity].
    apply ends_with_app in Ep. destruct Ep as (r & Er).
    rewrite <- append_assoc_string in Er. rewrite Er, slice_off_app.
    destruct (ReplyStream.blank (r ++ " ")) eqn:Eb; [exfalso|reflexivity].
    apply blank_spec in Eb.
    apply (f_equal list_ascii_of_string) in Er. rewrite Hl in Er.
    rewrite TrimFacts.list_of_append in Er.
    destruct (list_ascii_of_string (r ++ " ")) as [|a m] eqn:Em.
    + apply (f_equal (@List.length ascii)) in Em.
      rewrite TrimFacts.list_of_append, length_app in Em. cbn in Em. lia.
    + cbn in Er. apply trim_list_hd in Er. cbn in Eb. rewrite Er in Eb.
      discriminate.
Qed.

(** X26. [stripSilentToken] calls a reply silent only when the whole
    trimmed text is one of the tokens.  Its tests for a token followed or
    preceded by a space never succeed, because the text has been trimmed:
    a reply such as the token and then more text keeps its text and is not
    silent.  Blank text gives the empty text and is not silent. *)
Theorem reply_is_silent_only_when_it_is_the_token text tokens :
  stripSilentToken text tokens
  = if (Str.trim text =? EmptyString)%string then (EmptyString, false)
    else if existsb (String.eqb (Str.trim text))
              (match tokens with
               | Some ts => ts
               | None => [SILENT_REPLY_TOKEN]
               end)
         then (EmptyString, true)
         else (text, false).
Proof.
  unfold stripSilentToken.
  destruct (String.eqb_spec (Str.trim text) EmptyString) as [E|E];
    [reflexivity|].
  assert (H : forall ts, silent_by (Str.trim text) ts
                         = existsb (String.eqb (Str.trim text)) ts).
  { induction ts as [|token ts IH]; cbn [silent_by existsb]; [reflexivity|].
    destruct (String.eqb_spec token EmptyString) as [->|Ht].
    - rewrite IH. destruct (String.eqb_spec (Str.trim text) EmptyString);
        [contradiction | reflexivity].
    - destruct (Str.trim text =? token)%string; [reflexivity|].
      destruct (trimmed_tests_fail text token) as (-> & ->).
      cbn [orb]. exact IH. }
  now rewrite H.
Qed.

End DirectiveExtras.

(** ** Streaming a reply *)

Module ReplyExtras.

Import ReplyStream.

Section Streaming.

Variable parseReplyDirectives : string -> Parsed.
Variable sanitizeUserText : string -> string.
Variable renderChunks : string -> list string.
Variable currentMessageId : option Z.

Lemma flushPrimary_calls w primary st :
  exists new,
    calls (fst (flushPrimary w primary st)) = calls st ++ new
    /\ (List.length new <= 2)%nat
    /\ (forall c, In c new -> content c <> None)
    /\ didReact (fst (flushPrimary w primary st)) = didReact st
    /\ buffer (fst (flushPrimary w primary st)) = buffer st.
Proof.
  unfold flushPrimary, send.
  destruct (sentMessageId st) as [sent|].
  - destruct (n_edit w primary).
    + exists [CEdit sent primary]. cbn. repeat split; auto.
      intros c [<-|[]]; discriminate.
    + exists [CEdit sent primary]. cbn. repeat split; auto.
      intros c [<-|[]]; discriminate.
    + exists [CEdit sent primary; CSend primary].
      destruct (n_send w primary) as [[i|]|m]; cbn;
        try destruct (negb (i =? 0)); cbn; rewrite <- ?app_assoc;
        (repeat split; auto; intros c [<-|[<-|[]]]; discriminate).
  - exists [CSend primary].
    destruct (n_send w primary) as [[i|]|m]; cbn;
      try destruct (negb (i =? 0)); cbn;
      (repeat split; auto; intros c [<-|[]]; discriminate).
Qed.

(** X27. A flush while the reply is still streaming is small.  It adds at
    most two calls to the transport (an edit, and a send when the edit
    fails), never a reaction, and leaves the buffer alone.  It adds no call
    at all when the reply was cancelled, when the mode is [off], when the
    cleaned text is blank, or when the last flush was less than
    [FLUSH_INTERVAL_MS] ago. *)
Theorem streaming_flush_makes_at_most_two_calls w st :
  exists new,
    calls (fst (flush parseReplyDirectives sanitizeUserText renderChunks
                      currentMessageId false w st))
    = calls st ++ new
    /\ (List.length new <= 2)%nat
    /\ (forall c, In c new -> content c <> None)
    /\ didReact (fst (flush parseReplyDirectives sanitizeUserText renderChunks
                            currentMessageId false w st))
       = didReact st
    /\ buffer (fst (flush parseReplyDirectives sanitizeUserText renderChunks
                          currentMessageId false w st))
       = buffer st
    /\ (n_cancelled w = true
        \/ mode_now parseReplyDirectives st = Off
        \/ blank (cleaned_now parseReplyDirectives sanitizeUserText st) = true
        \/ n_now w - lastFlushAt st < FLUSH_INTERVAL_MS ->
        new = []).
Proof.
  assert (Hnone : forall st0 : State,
             calls st0 = calls st -> didReact st0 = didReact st ->
             buffer st0 = buffer st ->
             exists new,
               calls st0 = calls st ++ new
               /\ (List.length new <= 2)%nat
               /\ (forall c, In c new -> content c <> None)
               /\ didReact st0 = didReact st
               /\ buffer st0 = buffer st
               /\ (n_cancelled w = true
                   \/ mode_now parseReplyDirectives st = Off
                   \/ blank (cleaned_now parseReplyDirectives sanitizeUserText st)
                      = true
                   \/ n_now w - lastFlushAt st < FLUSH_INTERVAL_MS ->
                   new = [])).
  { intros st0 Hc Hr Hb. exists []. rewrite app_nil_r. cbn.
    repeat split; auto; try lia; try (now intros c []). }
  unfold flush. destruct (n_cancelled w) eqn:Ecan; [now apply Hnone|].
  unfold mode_now, cleaned_now in *.
  set (parsed := parseReplyDirectives (buffer st)) in *.
  rewrite andb_false_r.
  set (st1 := match p_streamMode parsed with
              | Some m => set_mode m st
              | None => st
              end).
  assert (H1 : calls st1 = calls st /\ didReact st1 = didReact st
               /\ buffer st1 = buffer st /\ lastFlushAt st1 = lastFlushAt st
               /\ mode st1 = match p_streamMode parsed with
                             | Some m => m
                             | None => mode st
                             end)
    by (unfold st1; destruct (p_streamMode parsed); repeat split).
  destruct H1 as (Hc1 & Hr1 & Hb1 & Hf1 & Hm1).
  cbn [negb andb]. rewrite andb_true_r.
  destruct (mode st1) eqn:Emode; try (now apply Hnone).
  - (* edit *)
    destruct (blank (sanitizeUserText (p_text parsed))) eqn:Eblank;
      [now apply Hnone|].
    destruct (Z.ltb_spec (n_now w - lastFlushAt st1) FLUSH_INTERVAL_MS) as [Hlt|Hge];
      [now apply Hnone|].
    cbn [mode set_lastFlushAt]. rewrite Emode.
    unfold flushEdit.
    destruct (renderChunks _) as [|primary rest]; [now apply Hnone|].
    destruct (Lst.is_some _ && _); [now apply Hnone|].
    destruct (flushPrimary_calls w primary (set_lastFlushAt (n_now w) st1))
      as (new & Hcalls & Hlen & Hcont & Hreact & Hbuf).
    exists new.
    destruct (flushPrimary w primary (set_lastFlushAt (n_now w) st1))
      as [st2 [u|m]]; cbn [fst] in *; cbn;
      (rewrite Hcalls, Hreact, Hbuf; cbn; rewrite Hc1, Hr1, Hb1;
       repeat split; auto;
       intros [H|[H|[H|H]]]; [discriminate | congruence | congruence | lia]).
  - (* send *)
    destruct (blank (sanitizeUserText (p_text parsed))) eqn:Eblank;
      [now apply Hnone|].
    destruct (Z.ltb_spec (n_now w - lastFlushAt st1) FLUSH_INTERVAL_MS) as [Hlt|Hge];
      [now apply Hnone|].
    cbn [mode set_lastFlushAt]. rewrite Emode.
    unfold flushSend, send.
    destruct (blank (slice_from _ _)); [now apply Hnone|].
    set (delta := slice_from _ _).
    exists [CSend delta].
    destruct (n_send w delta) as [[i|]|m]; cbn;
      try destruct (negb (i =? 0)); cbn;
      try destruct (Lst.is_some (sentMessageId st1)); cbn;
      (rewrite Hc1, Hr1, Hb1; repeat split; auto;
       [intros c [<-|[]]; discriminate
       |intros [H|[H|[H|H]]]; [discriminate | congruence | congruence | lia]]).
Qed.

End Streaming.

End ReplyExtras.

(** ** Chunks of a rendered message *)

Module RenderExtras.

Import Render.

Section ChunkFacts.

Variable Unit : Type.
Variable is_lf : Unit -> bool.

Lemma last_lf_bound (t : list Unit) i :
  last_lf is_lf t = Some i -> (i < List.length t)%nat.
Proof.
  revert i. induction t as [|c t IH]; cbn; intros i H; [discriminate|].
  destruct (last_lf is_lf t) as [j|].
  - injection H as <-. specialize (IH j eq_refl). lia.
  - destruct (is_lf c); [|discriminate]. injection H as <-. lia.
Qed.

Lemma findChunkEnd_bounds (t : list Unit) start maxChars :
  (start < List.length t)%nat -> (1 <= maxChars)%nat ->
  (start < findChunkEnd is_lf t start maxChars <= List.length t)%nat
  /\ (findChunkEnd is_lf t start maxChars - start <= maxChars + 1)%nat.
Proof.
  intros Hs Hm. unfold findChunkEnd.
  destruct (Nat.eqb_spec (Nat.min (List.length t) (start + maxChars))
                         (List.length t)) as [E|E]; [lia|].
  destruct (lastIndexOf_lf is_lf t _) as [nl|] eqn:El; [|lia].
  destruct (Nat.ltb_spec (start + 2 * maxChars / 5) nl); [|lia].
  unfold lastIndexOf_lf in El. apply last_lf_bound in El.
  rewrite length_firstn in El. lia.
Qed.

Lemma slice_length (t : list Unit) start end_ :
  (start <= end_ <= List.length t)%nat ->
  List.length (slice start end_ t) = (end_ - start)%nat.
Proof.
  intros H. unfold slice. rewrite length_firstn, length_skipn. lia.
Qed.

Lemma slice_then_rest (t : list Unit) start end_ :
  (start <= end_)%nat ->
  slice start end_ t ++ skipn end_ t = skipn start t.
Proof.
  intros H. unfold slice.
  replace end_ with ((end_ - start) + start)%nat at 2 by lia.
  rewrite <- skipn_skipn. apply firstn_skipn.
Qed.

Lemma chunk_loop_ends (r : Rendered Unit) maxChars : forall fuel start,
  (1 <= maxChars)%nat ->
  (List.length (text r) - start <= fuel)%nat ->
  exists chunks,
    chunk_loop is_lf fuel r maxChars start = Some chunks
    /\ List.concat (map text chunks) = skipn start (text r)
    /\ (forall c, In c chunks ->
          (1 <= List.length (text c) <= maxChars + 1)%nat).
Proof.
  induction fuel as [|fuel IH]; intros start Hm Hfuel.
  - exists []. cbn. destruct (Nat.leb_spec (List.length (text r)) start); [|lia].
    split; [reflexivity|]. split; [|intros c []].
    symmetry. now apply skipn_all2.
  - cbn [chunk_loop].
    destruct (Nat.leb_spec (List.length (text r)) start) as [Hle|Hlt].
    + exists []. split; [reflexivity|]. split; [|intros c []].
      symmetry. now apply skipn_all2.
    + destruct (findChunkEnd_bounds (text r) start maxChars Hlt Hm) as (Hb & Hw).
      destruct (IH (findChunkEnd is_lf (text r) start maxChars) Hm ltac:(lia))
        as (chunks & Hc & Hcat & Hlen).
      rewrite Hc. cbn [option_map].
      eexists. split; [reflexivity|]. split.
      * cbn [map List.concat text]. rewrite Hcat.
        apply slice_then_rest. lia.
      * intros c [<-|Hin]; [|now apply Hlen].
        cbn [text]. rewrite slice_length by lia. lia.
Qed.

Lemma chunk_loop_stuck (r : Rendered Unit) start : forall fuel,
  (start < List.length (text r))%nat ->
  chunk_loop is_lf fuel r 0 start = None.
Proof.
  assert (Hend : (start < List.length (text r))%nat ->
                 findChunkEnd is_lf (text r) start 0 = start).
  { intros Hs. unfold findChunkEnd.
    replace (Nat.min (List.length (text r)) (start + 0)) with start by lia.
    destruct (Nat.eqb_spec start (List.length (text r))); [lia|].
    destruct (lastIndexOf_lf is_lf (text r) start) as [nl|] eqn:El;
      [|reflexivity].
    unfold lastIndexOf_lf in El. apply last_lf_bound in El.
    rewrite length_firstn in El.
    destruct (Nat.ltb_spec (start + 2 * 0 / 5) nl) as [H|H]; [|reflexivity].
    change (2 * 0 / 5)%nat with 0%nat in H. lia. }
  induction fuel as [|fuel IH]; intros Hs; cbn [chunk_loop];
    (destruct (Nat.leb_spec (List.length (text r)) start); [lia|]);
    [reflexivity|].
  rewrite (Hend Hs), (IH Hs). reflexivity.
Qed.

(** X28. [chunkTelegramMessage] cuts the text into pieces that, put
    together again, give the text.  For [maxChars >= 1] the loop ends (a
    number of rounds equal to the length of the text is enough); there is
    at least one chunk; a text that fits comes back as the one chunk;
    otherwise no chunk is empty and no chunk is longer than
    [maxChars + 1] (a cut after a line feed that sits exactly at the limit
    takes one character more than [maxChars]).  For [maxChars = 0] and a
    text that is not empty the loop never ends. *)
Theorem chunks_put_together_give_the_text (r : Rendered Unit) maxChars fuel :
  (1 <= maxChars)%nat -> (List.length (text r) <= fuel)%nat ->
  (exists chunks,
      chunkTelegramMessage is_lf fuel r maxChars = Some chunks
      /\ chunks <> []
      /\ List.concat (map text chunks) = text r
      /\ (forall c, In c chunks ->
            (List.length (text c) <= maxChars + 1)%nat)
      /\ ((List.length (text r) <= maxChars)%nat -> chunks = [r])
      /\ ((maxChars < List.length (text r))%nat ->
          forall c, In c chunks -> (1 <= List.length (text c))%nat))
  /\ (text r <> [] ->
      forall rounds, chunkTelegramMessage is_lf rounds r 0 = None).
Proof.
  intros Hm Hfuel. split.
  - unfold chunkTelegramMessage.
    destruct (Nat.leb_spec (List.length (text r)) maxChars) as [Hle|Hlt].
    + exists [r]. split; [reflexivity|]. split; [discriminate|].
      split; [cbn; apply app_nil_r|].
      split; [intros c [<-|[]]; lia|].
      split; [reflexivity | lia].
    + destruct (chunk_loop_ends r maxChars fuel 0 Hm ltac:(lia))
        as (chunks & Hc & Hcat & Hlen).
      exists chunks. split; [exact Hc|]. cbn [skipn] in Hcat.
      split.
      { intros ->. cbn in Hcat. rewrite <- Hcat in Hlt. cbn in Hlt. lia. }
      split; [exact Hcat|].
      split; [intros c Hin; apply Hlen; exact Hin|].
      split; [lia|]. intros _ c Hin. now apply Hlen.
  - intros Hne rounds. unfold chunkTelegramMessage.
    assert (0 < List.length (text r))%nat
      by (destruct (text r); [contradiction | cbn; lia]).
    destruct (Nat.leb_spec (List.length (text r)) 0); [lia|].
    now apply chunk_loop_stuck.
Qed.

Lemma span_app es1 es2 : span (es1 ++ es2) = span es1 + span es2.
Proof.
  unfold span. induction es1 as [|e es1 IH]; cbn; [reflexivity|].
  rewrite IH. lia.
Qed.

Lemma sliceEntities_span es start end_ :
  start < end_ ->
  span (sliceEntities es start end_)
  = fold_right Z.add 0
      (map (fun e =>
              Z.max 0 (e_offset e + e_length e - Z.max (e_offset e) start)
              - Z.max 0 (e_offset e + e_length e - Z.max (e_offset e) end_))
           es).
Proof.
  intros Hlt. induction es as [|e es IH]; [reflexivity|].
  cbn [sliceEntities flat_map map fold_right].
  fold (sliceEntities es start end_). rewrite span_app, IH.
  f_equal.
  destruct (Z.leb_spec (e_offset e + e_length e) start);
    destruct (Z.geb_spec (e_offset e) end_); cbn [orb]; unfold span; cbn;
    try lia.
  destruct (Z.leb_spec
              (Z.min (e_offset e + e_length e) end_ - Z.max (e_offset e) start) 0);
    cbn; lia.
Qed.

Lemma sliceEntities_inside es start end_ x :
  In x (sliceEntities es start end_) ->
  0 <= e_offset x /\ 0 < e_length x /\ e_offset x + e_length x <= end_ - start.
Proof.
  unfold sliceEntities. intros H. apply in_flat_map in H.
  destruct H as (e & _ & H).
  destruct ((e_offset e + e_length e <=? start) || (e_offset e >=? end_));
    [contradiction|].
  destruct (Z.leb_spec
              (Z.min (e_offset e + e_length e) end_ - Z.max (e_offset e) start) 0);
    [contradiction|].
  destruct H as [<-|[]]. cbn. lia.
Qed.

Lemma chunk_loop_span (r : Rendered Unit) maxChars : forall fuel start chunks,
  (1 <= maxChars)%nat ->
  (forall e, In e (entities r) ->
     e_offset e + e_length e <= Z.of_nat (List.length (text r))) ->
  chunk_loop is_lf fuel r maxChars start = Some chunks ->
  fold_right Z.add 0 (map (fun c => span (entities c)) chunks)
  = fold_right Z.add 0
      (map (fun e => Z.max 0 (e_offset e + e_length e
                              - Z.max (e_offset e) (Z.of_nat start)))
           (entities r)).
Proof.
  intros fuel start chunks Hm Hin. revert start chunks.
  assert (Hzero : forall start, (List.length (text r) <= start)%nat ->
            0 = fold_right Z.add 0
                  (map (fun e => Z.max 0 (e_offset e + e_length e
                                          - Z.max (e_offset e) (Z.of_nat start)))
                       (entities r))).
  { intros start Hle. induction (entities r) as [|e es IH]; [reflexivity|].
    cbn [map fold_right]. rewrite <- IH by (intros; apply Hin; now right).
    specialize (Hin e (or_introl eq_refl)). lia. }
  induction fuel as [|fuel IH]; intros start chunks H; cbn [chunk_loop] in H.
  - destruct (Nat.leb_spec (List.length (text r)) start); [|discriminate].
    injection H as <-. now apply Hzero.
  - destruct (Nat.leb_spec (List.length (text r)) start) as [Hle|Hlt].
    + injection H as <-. now apply Hzero.
    + destruct (findChunkEnd_bounds (text r) start maxChars Hlt Hm) as (Hb & _).
      destruct (chunk_loop is_lf fuel r maxChars _) as [rest|] eqn:Er;
        [|discriminate].
      injection H as <-. cbn [map fold_right entities].
      rewrite (IH _ _ Er), sliceEntities_span by lia.
      clear. induction (entities r) as [|e es IHes]; cbn [map fold_right]; lia.
Qed.

(** X29. The entities of the chunks, for a text that had to be cut (it is
    longer than [maxChars >= 1]) and entities that lie inside the text.
    Every entity of a chunk lies inside the chunk and covers at least one
    character; and cutting loses nothing: the entities of all chunks
    together cover as many characters as the entities of the message. *)
Theorem chunk_entities_cover_the_same_text (r : Rendered Unit) maxChars fuel chunks :
  (1 <= maxChars)%nat ->
  (maxChars < List.length (text r))%nat ->
  (forall e, In e (entities r) ->
     0 <= e_offset e /\ 0 <= e_length e
     /\ e_offset e + e_length e <= Z.of_nat (List.length (text r))) ->
  chunkTelegramMessage is_lf fuel r maxChars = Some chunks ->
  (forall c x, In c chunks -> In x (entities c) ->
     0 <= e_offset x /\ 0 < e_length x
     /\ e_offset x + e_length x <= Z.of_nat (List.length (text c)))
  /\ fold_right Z.add 0 (map (fun c => span (entities c)) chunks)
     = span (entities r).
Proof.
  intros Hm Hlong Hin H. unfold chunkTelegramMessage in H.
  destruct (Nat.leb_spec (List.length (text r)) maxChars); [lia|].
  split.
  - clear Hin. revert H. generalize 0%nat as start. revert chunks.
    induction fuel as [|fuel IH]; intros chunks start H c x Hc Hx;
      cbn [chunk_loop] in H.
    + destruct (Nat.leb_spec (List.length (text r)) start); [|discriminate].
      injection H as <-. contradiction.
    + destruct (Nat.leb_spec (List.length (text r)) start) as [Hle|Hlt].
      * injection H as <-. contradiction.
      * destruct (findChunkEnd_bounds (text r) start maxChars Hlt Hm) as (Hb & _).
        destruct (chunk_loop is_lf fuel r maxChars _) as [rest|] eqn:Er;
          [|discriminate].
        injection H as <-. destruct Hc as [<-|Hc]; [|eapply IH; eauto].
        cbn [entities text] in *. apply sliceEntities_inside in Hx.
        rewrite slice_length by lia. lia.
  - rewrite (chunk_loop_span r maxChars fuel 0 chunks Hm
               (fun e He => proj2 (proj2 (Hin e He))) H).
    unfold span. induction (entities r) as [|e es IH]; [reflexivity|].
    cbn [map fold_right]. rewrite IH by (intros; apply Hin; now right).
    specialize (Hin e (or_introl eq_refl)). lia.
Qed.

End ChunkFacts.

Lemma chunks_put_together_give_the_text_witness :
  option_map (map (fun c => List.length (text c)))
             (chunkTelegramMessage lf 5 Sample2.message 2)
  = Some [3; 2]%nat
  /\ exists chunks,
      chunkTelegramMessage lf 5 Sample2.message 2 = Some chunks
      /\ chunks <> []
      /\ List.concat (map text chunks) = text Sample2.message
      /\ (forall c, In c chunks -> (List.length (text c) <= 2 + 1)%nat)
      /\ ((List.length (text Sample2.message) <= 2)%nat ->
          chunks = [Sample2.message])
      /\ ((2 < List.length (text Sample2.message))%nat ->
          forall c, In c chunks -> (1 <= List.length (text c))%nat).
Proof.
  split; [reflexivity|].
  exact (proj1 (chunks_put_together_give_the_text ascii lf Sample2.message 2 5
                  ltac:(lia) ltac:(cbn; lia))).
Defined.

Lemma chunk_entities_cover_the_same_text_witness :
  option_map (map (fun c => map (fun x => (e_offset x, e_length x)) (entities c)))
             (chunkTelegramMessage lf 5 Sample2.message 2)
  = Some [[(1, 2)]; [(0, 1)]]
  /\ fold_right Z.add 0
       (map (fun c => span (entities c))
            [mkRendered (slice 0 3 (text Sample2.message))
                        (sliceEntities (entities Sample2.message) 0 3);
             mkRendered (slice 3 5 (text Sample2.message))
                        (sliceEntities (entities Sample2.message) 3 5)])
     = span (entities Sample2.message).
Proof.
  split; [reflexivity|].
  apply (chunk_entities_cover_the_same_text ascii lf Sample2.message 2 5).
  - lia.
  - cbn. lia.
  - intros e [<-|[]]. cbn. lia.
  - reflexivity.
Defined.

End RenderExtras.

(** ** Version numbers *)

Module VersionExtras.

Import Version.

Ltac order_cases :=
  unfold isNewer, triple; cbn [newer_from];
  repeat match goal with
         | |- context [?x >? ?y] => destruct (Z.gtb_spec x y)
         | |- context [?x <? ?y] => destruct (Z.ltb_spec x y)
         | H : context [?x >? ?y] |- _ => destruct (Z.gtb_spec x y)
         | H : context [?x <? ?y] |- _ => destruct (Z.ltb_spec x y)
         end.

(** X30. [isNewer] is a strict order on the first three numbers of a
    version: no version is newer than itself; of two versions at most one
    is newer than the other, and neither is exactly when their first three
    numbers agree; and newer than newer is newer.  The answer depends on
    those three numbers only. *)
Theorem isNewer_is_a_strict_order a b c :
  isNewer a a = false
  /\ (isNewer a b = true -> isNewer b a = false)
  /\ (isNewer a b = false /\ isNewer b a = false <-> triple a = triple b)
  /\ (isNewer a b = true -> isNewer b c = true -> isNewer a c = true)
  /\ (triple a = triple b -> isNewer a c = isNewer b c /\ isNewer c a = isNewer c b).
Proof.
  split; [|split; [|split; [|split]]].
  - order_cases; try reflexivity; lia.
  - order_cases; intros; try reflexivity; try discriminate; lia.
  - split.
    + order_cases; intros (Hab & Hba); try discriminate;
        (f_equal; [f_equal|]); lia.
    + unfold triple. intros E. injection E as E0 E1 E2.
      unfold isNewer. cbn [newer_from]. rewrite E0, E1, E2.
      split; order_cases; try reflexivity; lia.
  - order_cases; intros; try reflexivity; try discriminate; lia.
  - unfold triple. intros E. injection E as E0 E1 E2.
    unfold isNewer. cbn [newer_from]. now rewrite E0, E1, E2.
Qed.

(** A release tag after the numbers is not looked at, and a missing number
    counts as 0. *)
Example isNewer_examples :
  isNewer "1.2.3" "1.2.10" = true
  /\ isNewer "1.2.10" "1.2.3" = false
  /\ isNewer "1.2.3" "1.2.3-beta.1" = false
  /\ isNewer "1.2" "1.2.0.9" = false
  /\ isNewer "v1.0.0" "0.9.0" = true.
Proof. repeat split. Qed.

End VersionExtras.
